(** * AES256GCM: the authenticated-encryption envelope of [src/AES256GCM.ts]

    Definitions, in three layers:

    - [Module Bytes], [Module AES], [Module GCM], [Module Text]: an executable
      model of what the program borrows from its platform: byte buffers,
      the AES-256 block cipher (FIPS 197), Galois/Counter mode
      (NIST SP 800-38D), UTF-8, hexadecimal and base64 conversions of
      [Buffer].
    - [Module Node]: the [crypto] objects the program drives
      ([randomBytes], [createCipheriv], [update], [final], [getAuthTag],
      [createDecipheriv], [setAuthTag]) as a small state-and-exception monad
      over an entropy source and a log of the calls made.
    - [Module AES256GCM]: the class itself, method by method.

    Properties: facts about buffers, the mode and the encodings;
    [Module GF128], the field argument behind tag changes; the methods of
    the class characterised one by one; the claims of the specification;
    known answers; and further properties of the methods, numbered X1 to
    X19, with [Module GF128_field] (the blocks form a field) and
    [Module DecodeFacts] (UTF-8 read back). *)

From Stdlib Require Import String Ascii.
From Stdlib Require Import List NArith ZArith Lia Bool Arith.
From Stdlib Require Import Strings.Byte.
Import ListNotations.

(* ------------------------------------------------------------------ *)
(** ** Byte buffers *)

Module Bytes.

Definition byte := Byte.byte.
Definition bytes := list byte.

(** Total conversion from a number, keeping the low 8 bits. *)
Definition byte_of_N (n : N) : byte :=
  match Byte.of_N (n mod 256) with
  | Some b => b
  | None => x00
  end.

Definition bits8 : Type :=
  (bool * (bool * (bool * (bool * (bool * (bool * (bool * bool)))))))%type.

Definition xor_bits (p q : bits8) : bits8 :=
  let '(a0, (a1, (a2, (a3, (a4, (a5, (a6, a7))))))) := p in
  let '(b0, (b1, (b2, (b3, (b4, (b5, (b6, b7))))))) := q in
  (xorb a0 b0, (xorb a1 b1, (xorb a2 b2, (xorb a3 b3,
  (xorb a4 b4, (xorb a5 b5, (xorb a6 b6, xorb a7 b7))))))).

Definition xor_byte (a b : byte) : byte :=
  Byte.of_bits (xor_bits (Byte.to_bits a) (Byte.to_bits b)).

(** [a[i] ^ b[i]] over the common prefix. *)
Fixpoint xor_bytes (a b : bytes) : bytes :=
  match a, b with
  | x :: a', y :: b' => xor_byte x y :: xor_bytes a' b'
  | _, _ => []
  end.

(** [buf[i] ^= 1 << k], the single-bit flip of the tamper tests. *)
Definition flip_mask (k : nat) : byte := byte_of_N (N.shiftl 1 (N.of_nat (k mod 8))).

Fixpoint flip_bit (i k : nat) (buf : bytes) : bytes :=
  match buf, i with
  | [], _ => []
  | x :: rest, O => xor_byte x (flip_mask k) :: rest
  | x :: rest, S i' => x :: flip_bit i' k rest
  end.

(** Big-endian number of a buffer and back. *)
Definition bytes_to_N (l : bytes) : N :=
  fold_left (fun acc b => (acc * 256 + Byte.to_N b)%N) l 0%N.

Definition N_to_bytes (len : nat) (x : N) : bytes :=
  map (fun i => byte_of_N (N.shiftr x (8 * N.of_nat (len - 1 - i)))) (seq 0 len).

(** [Buffer.subarray(start, end)] and [Buffer.subarray(start)] for
    non-negative indices: both ends are clamped to the buffer. *)
Definition subarray (buf : bytes) (start stop : nat) : bytes :=
  firstn (stop - start) (skipn start buf).

Definition subarray_from (buf : bytes) (start : nat) : bytes :=
  skipn start buf.

(** Buffers of 16 bytes, the last one zero-padded, as 128-bit numbers. *)
Fixpoint blocks_fuel (fuel : nat) (l : bytes) : list N :=
  match fuel, l with
  | _, [] => []
  | O, _ => []
  | S f, _ => bytes_to_N (firstn 16 (l ++ repeat x00 15)) :: blocks_fuel f (skipn 16 l)
  end.

Definition blocks (l : bytes) : list N := blocks_fuel (length l) l.

End Bytes.
Import Bytes.

(* ------------------------------------------------------------------ *)
(** ** AES-256 forward cipher (FIPS 197) *)

Module AES.

Local Open Scope N_scope.

Definition xtime (a : N) : N :=
  N.lxor (N.land (N.shiftl a 1) 255) (if N.testbit a 7 then 27 else 0).

Fixpoint gf8_mul_loop (n : nat) (a b acc : N) : N :=
  match n with
  | O => acc
  | S n' =>
      gf8_mul_loop n' (xtime a) (N.shiftr b 1)
        (if N.testbit b 0 then N.lxor acc a else acc)
  end.

Definition gf8_mul (a b : N) : N := gf8_mul_loop 8 a b 0.

Definition gf8_sq (a : N) : N := gf8_mul a a.

(** [a^254], the inverse in GF(2^8) (and 0 for 0). *)
Definition gf8_inv (a : N) : N :=
  let a2 := gf8_sq a in
  let a4 := gf8_sq a2 in
  let a8 := gf8_sq a4 in
  let a16 := gf8_sq a8 in
  let a32 := gf8_sq a16 in
  let a64 := gf8_sq a32 in
  let a128 := gf8_sq a64 in
  gf8_mul a128 (gf8_mul a64 (gf8_mul a32 (gf8_mul a16 (gf8_mul a8 (gf8_mul a4 a2))))).

Definition rotl8 (a : N) (k : N) : N :=
  N.land (N.lor (N.shiftl a k) (N.shiftr a (8 - k))) 255.

Definition sbox_formula (a : N) : N :=
  let b := gf8_inv a in
  N.lxor (N.lxor (N.lxor (N.lxor (N.lxor b (rotl8 b 1)) (rotl8 b 2)) (rotl8 b 3)) (rotl8 b 4)) 99.

Definition sbox_table : list N :=
  Eval vm_compute in map (fun i => sbox_formula (N.of_nat i)) (seq 0 256).

Definition SubByte (a : N) : N := nth (N.to_nat a) sbox_table 0.

Definition state := list N.

Definition SubBytes (s : state) : state := map SubByte s.

(** Byte [r + 4c] of the state is row [r], column [c]. *)
Definition ShiftRows (s : state) : state :=
  map (fun i => nth ((i + 4 * (i mod 4)) mod 16)%nat s 0) (seq 0 16).

Definition mix_column (a0 a1 a2 a3 : N) : list N :=
  [ N.lxor (N.lxor (N.lxor (xtime a0) (N.lxor (xtime a1) a1)) a2) a3;
    N.lxor (N.lxor (N.lxor a0 (xtime a1)) (N.lxor (xtime a2) a2)) a3;
    N.lxor (N.lxor (N.lxor a0 a1) (xtime a2)) (N.lxor (xtime a3) a3);
    N.lxor (N.lxor (N.lxor (N.lxor (xtime a0) a0) a1) a2) (xtime a3) ].

Fixpoint MixColumns_fuel (fuel : nat) (s : state) : state :=
  match fuel, s with
  | S f, a0 :: a1 :: a2 :: a3 :: rest => mix_column a0 a1 a2 a3 ++ MixColumns_fuel f rest
  | _, _ => []
  end.

Definition MixColumns (s : state) : state := MixColumns_fuel 4 s.

Definition AddRoundKey (s k : state) : state := map (fun p => N.lxor (fst p) (snd p)) (combine s k).

(** Key schedule for Nk = 8, Nr = 14: sixty 4-byte words. *)
Definition word := list N.

Definition xor_word (a b : word) : word := map (fun p => N.lxor (fst p) (snd p)) (combine a b).

Definition RotWord (w : word) : word :=
  match w with
  | a :: rest => rest ++ [a]
  | [] => []
  end.

Definition SubWord (w : word) : word := map SubByte w.

Definition Rcon (j : nat) : word := [N.shiftl 1 (N.of_nat (j - 1)); 0; 0; 0].

(** [rev_w] holds [w[i-1]; w[i-2]; ...]. *)
Fixpoint expand (n i : nat) (rev_w : list word) : list word :=
  match n with
  | O => rev_w
  | S n' =>
      let prev := nth 0 rev_w [] in
      let back := nth 7 rev_w [] in
      let temp :=
        if (i mod 8 =? 0)%nat then xor_word (SubWord (RotWord prev)) (Rcon (i / 8))
        else if (i mod 8 =? 4)%nat then SubWord prev
        else prev in
      expand n' (S i) (xor_word back temp :: rev_w)
  end.

Fixpoint words_of (fuel : nat) (l : list N) : list word :=
  match fuel, l with
  | S f, a :: b :: c :: d :: rest => [a; b; c; d] :: words_of f rest
  | _, _ => []
  end.

Definition KeyExpansion (key : bytes) : list word :=
  rev (expand 52 8 (rev (words_of 8 (map Byte.to_N key)))).

Definition round_key (w : list word) (r : nat) : state :=
  concat (firstn 4 (skipn (4 * r) w)).

Fixpoint rounds (n r : nat) (w : list word) (s : state) : state :=
  match n with
  | O => s
  | S n' => rounds n' (S r) w (AddRoundKey (MixColumns (ShiftRows (SubBytes s))) (round_key w r))
  end.

Definition Cipher (key : bytes) (input : state) : state :=
  let w := KeyExpansion key in
  let s := AddRoundKey input (round_key w 0) in
  let s := rounds 13 1 w s in
  AddRoundKey (ShiftRows (SubBytes s)) (round_key w 14).

(** The block cipher on 128-bit numbers (big-endian blocks). *)
Definition encrypt_block (key : bytes) (blk : N) : N :=
  bytes_to_N (map byte_of_N (Cipher key (map Byte.to_N (N_to_bytes 16 blk)))).

End AES.

(* ------------------------------------------------------------------ *)
(** ** Galois/Counter mode over AES-256 (NIST SP 800-38D)

    Blocks are 128-bit numbers whose most significant bit is the first bit
    of the block.  There is no additional authenticated data: the program
    never calls [setAAD]. *)

Module GCM.

Local Open Scope N_scope.

Definition R : N := N.shiftl 225 120.

(** Multiplication by the indeterminate: one shift towards the last bit,
    reduced by [R] when a bit falls off. *)
Definition mulx (v : N) : N :=
  if N.testbit v 0 then N.lxor (N.shiftr v 1) R else N.shiftr v 1.

(** The multiplication of the standard: bit [i] of [x], counted from the
    first, adds [y] times the [i]-th power of the indeterminate. *)
Fixpoint mul_loop (n : nat) (i : N) (x v z : N) : N :=
  match n with
  | O => z
  | S n' =>
      mul_loop n' (i + 1) x (mulx v)
        (N.lxor z (if N.testbit x (127 - i) then v else 0))
  end.

Definition gf128_mul (x y : N) : N := mul_loop 128 0 x y 0.

(** GHASH over a multiplication: [Y_i = (Y_{i-1} xor X_i) * H]. *)
Definition GHASH_with (mul : N -> N -> N) (h : N) (xs : list N) : N :=
  fold_left (fun y x => mul (N.lxor y x) h) xs 0.

Definition GHASH : N -> list N -> N := GHASH_with gf128_mul.

(** The counter block [i] steps after [x]: the low 32 bits count modulo 2^32. *)
Definition inc32 (x i : N) : N :=
  N.lor (N.shiftl (N.shiftr x 32) 32) ((N.land x 4294967295 + i) mod 4294967296).

Definition bit_length (l : bytes) : N := 8 * N.of_nat (length l).

Definition hash_subkey (key : bytes) : N := AES.encrypt_block key 0.

Definition J0 (key iv : bytes) : N :=
  if (length iv =? 12)%nat then N.lor (N.shiftl (bytes_to_N iv) 32) 1
  else GHASH (hash_subkey key) (blocks iv ++ [bit_length iv]).

(** The first [n] bytes of the CTR key stream. *)
Definition keystream (key iv : bytes) (n : nat) : bytes :=
  firstn n
    (flat_map (fun i => N_to_bytes 16 (AES.encrypt_block key (inc32 (J0 key iv) (N.of_nat (S i)))))
       (seq 0 ((n + 15) / 16))).

(** The full 16-byte tag of a ciphertext. *)
Definition auth_tag (key iv ct : bytes) : bytes :=
  N_to_bytes 16
    (N.lxor (AES.encrypt_block key (J0 key iv))
       (GHASH (hash_subkey key) (blocks ct ++ [bit_length ct]))).

(** *** The field behind GHASH

    The 128-bit blocks with [lxor] as addition and [gf128_mul] as
    multiplication; [one128] is the unit (first bit set). *)

Definition one128 : N := 2 ^ 127.

(** Numbers of at most 128 bits. *)
Definition B128 (v : N) : Prop := v < 2 ^ 128.

Definition times (mul : N -> N -> N) (h y : N) : N := mul y h.

Definition power (mul : N -> N -> N) (h : N) (n : nat) : N :=
  Nat.iter n (times mul h) one128.

Definition square (mul : N -> N -> N) (y : N) : N := mul y y.

(** The laws of the multiplication that the tamper argument uses: it is
    additive in both arguments and commutes with [mulx]; the unit law is
    checked on the 128 single bits, and 128 squarings fix the
    indeterminate [2^126]. *)
Record galois_mul (mul : N -> N -> N) : Prop := {
  gm_bound : forall x y, B128 y -> B128 (mul x y);
  gm_lxor_l : forall a b y, mul (N.lxor a b) y = N.lxor (mul a y) (mul b y);
  gm_lxor_r : forall x a b, mul x (N.lxor a b) = N.lxor (mul x a) (mul x b);
  gm_0_l : forall y, mul 0 y = 0;
  gm_0_r : forall x, mul x 0 = 0;
  gm_mulx : forall x y, mul x (mulx y) = mulx (mul x y);
  gm_left_comm : forall a b c, mul a (mul b c) = mul b (mul a c);
  gm_1_r_basis : forall m, m < 128 -> mul (2 ^ m) one128 = 2 ^ m;
  gm_frobenius_x : Nat.iter 128 (square mul) (2 ^ 126) = 2 ^ 126
}.

End GCM.

(* ------------------------------------------------------------------ *)
(** ** Strings and the text encodings of [Buffer] *)

Module Text.

Local Open Scope N_scope.

(** A JavaScript string is a sequence of UTF-16 code units; [.length]
    counts code units. *)
Definition char16 := N.
Definition jsstring := list char16.

(** An ASCII literal as a JavaScript string. *)
Fixpoint js (s : string) : jsstring :=
  match s with
  | EmptyString => []
  | String c rest => N_of_ascii c :: js rest
  end.

Definition is_high_surrogate (u : char16) : bool := (55296 <=? u) && (u <=? 56319).
Definition is_low_surrogate (u : char16) : bool := (56320 <=? u) && (u <=? 57343).

Definition utf8_code_point (c : N) : bytes :=
  if c <? 128 then [byte_of_N c]
  else if c <? 2048 then [byte_of_N (192 + c / 64); byte_of_N (128 + c mod 64)]
  else if c <? 65536 then
    [byte_of_N (224 + c / 4096); byte_of_N (128 + (c / 64) mod 64); byte_of_N (128 + c mod 64)]
  else
    [byte_of_N (240 + c / 262144); byte_of_N (128 + (c / 4096) mod 64);
     byte_of_N (128 + (c / 64) mod 64); byte_of_N (128 + c mod 64)].

(** U+FFFD, written for a surrogate that has no partner. *)
Definition replacement : bytes := [xef; xbf; xbd].

(** [Buffer.from(s, "utf8")]. *)
Fixpoint utf8 (s : jsstring) : bytes :=
  match s with
  | [] => []
  | u :: rest =>
      if is_high_surrogate u then
        match rest with
        | l :: rest' =>
            if is_low_surrogate l
            then utf8_code_point (65536 + (u - 55296) * 1024 + (l - 56320)) ++ utf8 rest'
            else replacement ++ utf8 rest
        | [] => replacement
        end
      else if is_low_surrogate u then replacement ++ utf8 rest
      else utf8_code_point u ++ utf8 rest
  end.

(** [buf.toString("hex")]: two lower-case digits per byte. *)
Definition hex_digit (n : N) : char16 := if n <? 10 then 48 + n else 87 + n.

Definition hex_encode (b : bytes) : jsstring :=
  flat_map (fun x => [hex_digit (Byte.to_N x / 16); hex_digit (Byte.to_N x mod 16)]) b.

(** [s.slice(0, n)] for [n >= 0]. *)
Definition slice0 (s : jsstring) (n : nat) : jsstring := firstn n s.

(** *** base64 *)

(** Six bits, most significant first. *)
Definition sextet : Type := (bool * bool * bool * bool * bool * bool)%type.

Definition N_of_bool (b : bool) : N := if b then 1 else 0.

Definition sextet_index (s : sextet) : N :=
  let '(b5, b4, b3, b2, b1, b0) := s in
  32 * N_of_bool b5 + 16 * N_of_bool b4 + 8 * N_of_bool b3
  + 4 * N_of_bool b2 + 2 * N_of_bool b1 + N_of_bool b0.

Definition sextet_of_index (i : N) : sextet :=
  (N.testbit i 5, N.testbit i 4, N.testbit i 3, N.testbit i 2, N.testbit i 1, N.testbit i 0).

(** The standard alphabet [A-Z a-z 0-9 + /]. *)
Definition base64_char (i : N) : char16 :=
  if i <? 26 then 65 + i
  else if i <? 52 then 71 + i
  else if i <? 62 then i - 4
  else if i =? 62 then 43
  else 47.

Definition pad_char : char16 := 61.

(** The table of the decoder: the standard alphabet, and [-] and [_] of
    the URL-safe one; every other code unit is illegal. *)
Definition unbase64 (c : char16) : option N :=
  if (65 <=? c) && (c <=? 90) then Some (c - 65)
  else if (97 <=? c) && (c <=? 122) then Some (c - 71)
  else if (48 <=? c) && (c <=? 57) then Some (c + 4)
  else if (c =? 43) || (c =? 45) then Some 62
  else if (c =? 47) || (c =? 95) then Some 63
  else None.

Definition encode3 (a b c : byte) : sextet * sextet * sextet * sextet :=
  let '(a0, (a1, (a2, (a3, (a4, (a5, (a6, a7))))))) := Byte.to_bits a in
  let '(b0, (b1, (b2, (b3, (b4, (b5, (b6, b7))))))) := Byte.to_bits b in
  let '(c0, (c1, (c2, (c3, (c4, (c5, (c6, c7))))))) := Byte.to_bits c in
  ((a7, a6, a5, a4, a3, a2), (a1, a0, b7, b6, b5, b4),
   (b3, b2, b1, b0, c7, c6), (c5, c4, c3, c2, c1, c0)).

Definition sextet_char (s : sextet) : char16 := base64_char (sextet_index s).

(** [buf.toString("base64")]: standard alphabet, with padding. *)
Fixpoint base64_encode (b : bytes) : jsstring :=
  match b with
  | [] => []
  | [a0] =>
      let '(s1, s2, _, _) := encode3 a0 x00 x00 in
      [sextet_char s1; sextet_char s2; pad_char; pad_char]
  | [a0; a1] =>
      let '(s1, s2, s3, _) := encode3 a0 a1 x00 in
      [sextet_char s1; sextet_char s2; sextet_char s3; pad_char]
  | a0 :: a1 :: a2 :: rest =>
      let '(s1, s2, s3, s4) := encode3 a0 a1 a2 in
      sextet_char s1 :: sextet_char s2 :: sextet_char s3 :: sextet_char s4 :: base64_encode rest
  end.

(** The decoder of [Buffer.from(s, "base64")] reads the legal characters,
    skips every other one and stops at the first [=]. *)
Fixpoint legal_sextets (s : jsstring) : list sextet :=
  match s with
  | [] => []
  | c :: rest =>
      match unbase64 c with
      | Some i => sextet_of_index i :: legal_sextets rest
      | None => if c =? pad_char then [] else legal_sextets rest
      end
  end.

Definition byte1 (s1 s2 : sextet) : byte :=
  let '(p5, p4, p3, p2, p1, p0) := s1 in
  let '(q5, q4, _, _, _, _) := s2 in
  Byte.of_bits (q4, (q5, (p0, (p1, (p2, (p3, (p4, p5))))))).

Definition byte2 (s2 s3 : sextet) : byte :=
  let '(_, _, q3, q2, q1, q0) := s2 in
  let '(r5, r4, r3, r2, _, _) := s3 in
  Byte.of_bits (r2, (r3, (r4, (r5, (q0, (q1, (q2, q3))))))).

Definition byte3 (s3 s4 : sextet) : byte :=
  let '(_, _, _, _, r1, r0) := s3 in
  let '(t5, t4, t3, t2, t1, t0) := s4 in
  Byte.of_bits (t0, (t1, (t2, (t3, (t4, (t5, (r0, r1))))))).

(** Four sextets give three bytes; a last group of three gives two, of two
    gives one, and a single left-over sextet gives nothing. *)
Fixpoint decode_groups (l : list sextet) : bytes :=
  match l with
  | s1 :: s2 :: s3 :: s4 :: rest =>
      byte1 s1 s2 :: byte2 s2 s3 :: byte3 s3 s4 :: decode_groups rest
  | [s1; s2; s3] => [byte1 s1 s2; byte2 s2 s3]
  | [s1; s2] => [byte1 s1 s2]
  | _ => []
  end.

(** [Buffer.from(s, "base64")]: never throws. *)
Definition base64_decode (s : jsstring) : bytes := decode_groups (legal_sextets s).

(** What the specification calls valid base64 (standard alphabet, with
    padding): a multiple of four characters of [A-Z a-z 0-9 + /], the last
    one or two of which may be [=]. *)
Definition in_standard_alphabet (c : char16) : bool :=
  ((65 <=? c) && (c <=? 90)) || ((97 <=? c) && (c <=? 122))
  || ((48 <=? c) && (c <=? 57)) || (c =? 43) || (c =? 47).

Fixpoint valid_base64_groups (s : jsstring) : bool :=
  match s with
  | [] => true
  | [c1; c2; c3; c4] =>
      in_standard_alphabet c1 && in_standard_alphabet c2
      && ((in_standard_alphabet c3 && (in_standard_alphabet c4 || (c4 =? pad_char)))
          || ((c3 =? pad_char) && (c4 =? pad_char)))
  | c1 :: c2 :: c3 :: c4 :: rest =>
      in_standard_alphabet c1 && in_standard_alphabet c2
      && in_standard_alphabet c3 && in_standard_alphabet c4
      && valid_base64_groups rest
  | _ => false
  end.

Definition valid_base64 (s : jsstring) : bool := valid_base64_groups s.

End Text.
Import Text.

(* ------------------------------------------------------------------ *)
(** ** The [crypto] module of the platform, as the class uses it *)

Module Node.

(** Exceptions raised by [crypto] itself. *)
Inductive node_error : Type :=
| ERR_CRYPTO_UNKNOWN_CIPHER              (* Error: Unknown cipher *)
| ERR_CRYPTO_INVALID_KEYLEN              (* RangeError: Invalid key length *)
| ERR_CRYPTO_INVALID_IV                  (* TypeError: Invalid initialization vector *)
| ERR_CRYPTO_INVALID_AUTH_TAG (len : nat) (* TypeError: Invalid authentication tag length: len *)
| ERR_CRYPTO_INVALID_STATE               (* Error: Invalid state for operation *)
| ERR_UNABLE_TO_AUTHENTICATE.            (* Error: Unsupported state or unable to authenticate data *)

(** What a caller of the class can observe as a failure.  The first three
    are the [throw new Error(...)] statements of the class, under the names
    the specification gives them; [MalformedBlob] and [InvalidTextEncoding]
    are kinds the specification names; [CryptoError] is an exception of
    [crypto] that the class does not catch. *)
Inductive error : Type :=
| InvalidKeyLength       (* "Key must be 32 bytes (256 bits)" *)
| InvalidNonceLength     (* "IV must be exactly 6 characters" *)
| AuthenticationFailed   (* "Decryption failed: Authentication failed or data corrupted" *)
| MalformedBlob
| InvalidTextEncoding
| CryptoError (e : node_error).

(** The calls into [crypto], in the order they are made. *)
Inductive call : Type :=
| RandomBytes (n : nat)
| CreateCipheriv
| CipherUpdate
| CipherFinal
| GetAuthTag
| CreateDecipheriv
| SetAuthTag
| DecipherUpdate
| DecipherFinal.

(** The entropy source, how much of it has been read, and the log. *)
Record world : Type := {
  entropy : nat -> byte;
  cursor : nat;
  calls : list call
}.

Inductive outcome (A : Type) : Type :=
| Return (a : A)
| Throw (e : error).
Arguments Return {A} a.
Arguments Throw {A} e.

Definition M (A : Type) : Type := world -> outcome A * world.

Definition ret {A} (a : A) : M A := fun w => (Return a, w).

Definition throw {A} (e : error) : M A := fun w => (Throw e, w).

Definition bind {A B} (m : M A) (k : A -> M B) : M B :=
  fun w =>
    match m w with
    | (Return a, w') => k a w'
    | (Throw e, w') => (Throw e, w')
    end.

(** [try { m } catch (error) { h }]. *)
Definition try_catch {A} (m : M A) (h : error -> M A) : M A :=
  fun w =>
    match m w with
    | (Return a, w') => (Return a, w')
    | (Throw e, w') => h e w'
    end.

Definition log (c : call) : M unit :=
  fun w => (Return tt, {| entropy := entropy w; cursor := cursor w; calls := calls w ++ [c] |}).

Declare Scope node_scope.
Delimit Scope node_scope with node.
Notation "x <- m ;; k" := (bind m (fun x => k))
  (at level 61, m at next level, right associativity) : node_scope.
Notation "' p <- m ;; k" := (bind m (fun x => match x with p => k end))
  (at level 61, p pattern, m at next level, right associativity) : node_scope.
Notation "m ;; k" := (bind m (fun _ => k))
  (at level 61, right associativity) : node_scope.
Local Open Scope node_scope.

(** [crypto.randomBytes(n)]. *)
Definition randomBytes (n : nat) : M bytes :=
  log (RandomBytes n) ;;
  fun w =>
    (Return (map (entropy w) (seq (cursor w) n)),
     {| entropy := entropy w; cursor := cursor w + n; calls := calls w |}).

(** A cipher object for ["aes-256-gcm"]: its key and nonce, the ciphertext
    it has produced so far, and whether [final] has been called. *)
Record Cipheriv : Type := {
  cipher_key : bytes;
  cipher_iv : bytes;
  cipher_out : bytes;
  cipher_finished : bool
}.

(** [crypto.createCipheriv(algorithm, key, iv)], for the one algorithm
    modelled.  An empty nonce is refused; in this mode the nonce may have
    any other length.  (A platform may put an upper limit on it, 128 bytes
    with OpenSSL 3; the class itself makes nonces of 6 to 18 bytes.) *)
Definition createCipheriv (algorithm : string) (key iv : bytes) : M Cipheriv :=
  log CreateCipheriv ;;
  if negb (String.eqb algorithm "aes-256-gcm") then throw (CryptoError ERR_CRYPTO_UNKNOWN_CIPHER)
  else if (length iv =? 0)%nat then throw (CryptoError ERR_CRYPTO_INVALID_IV)
  else if negb (length key =? 32)%nat then throw (CryptoError ERR_CRYPTO_INVALID_KEYLEN)
  else ret {| cipher_key := key; cipher_iv := iv; cipher_out := []; cipher_finished := false |}.

(** The key stream bytes for positions [off .. off + len). *)
Definition keystream_at (key iv : bytes) (off len : nat) : bytes :=
  skipn off (GCM.keystream key iv (off + len)).

(** [cipher.update(data)]: the mode is a stream, every byte comes out at once. *)
Definition cipher_update (c : Cipheriv) (data : bytes) : M (bytes * Cipheriv) :=
  log CipherUpdate ;;
  let out := xor_bytes data (keystream_at (cipher_key c) (cipher_iv c) (length (cipher_out c)) (length data)) in
  ret (out, {| cipher_key := cipher_key c; cipher_iv := cipher_iv c;
               cipher_out := cipher_out c ++ out; cipher_finished := cipher_finished c |}).

(** [cipher.final()]: nothing is left to write. *)
Definition cipher_final (c : Cipheriv) : M (bytes * Cipheriv) :=
  log CipherFinal ;;
  ret ([], {| cipher_key := cipher_key c; cipher_iv := cipher_iv c;
              cipher_out := cipher_out c; cipher_finished := true |}).

(** [cipher.getAuthTag()]: only after [final]. *)
Definition getAuthTag (c : Cipheriv) : M bytes :=
  log GetAuthTag ;;
  if cipher_finished c then ret (GCM.auth_tag (cipher_key c) (cipher_iv c) (cipher_out c))
  else throw (CryptoError ERR_CRYPTO_INVALID_STATE).

(** A decipher object: key, nonce, the tag once set, the ciphertext read. *)
Record Decipheriv : Type := {
  decipher_key : bytes;
  decipher_iv : bytes;
  decipher_tag : option bytes;
  decipher_in : bytes
}.

(** [crypto.createDecipheriv(algorithm, key, iv)], with the same checks. *)
Definition createDecipheriv (algorithm : string) (key iv : bytes) : M Decipheriv :=
  log CreateDecipheriv ;;
  if negb (String.eqb algorithm "aes-256-gcm") then throw (CryptoError ERR_CRYPTO_UNKNOWN_CIPHER)
  else if (length iv =? 0)%nat then throw (CryptoError ERR_CRYPTO_INVALID_IV)
  else if negb (length key =? 32)%nat then throw (CryptoError ERR_CRYPTO_INVALID_KEYLEN)
  else ret {| decipher_key := key; decipher_iv := iv; decipher_tag := None; decipher_in := [] |}.

(** Without the [authTagLength] option a tag of 4, 8 or 12 to 16 bytes is
    accepted. *)
Definition valid_tag_length (n : nat) : bool :=
  (n =? 4)%nat || (n =? 8)%nat || ((12 <=? n)%nat && (n <=? 16)%nat).

(** [decipher.setAuthTag(tag)]. *)
Definition setAuthTag (d : Decipheriv) (tag : bytes) : M Decipheriv :=
  log SetAuthTag ;;
  if valid_tag_length (length tag)
  then ret {| decipher_key := decipher_key d; decipher_iv := decipher_iv d;
              decipher_tag := Some tag; decipher_in := decipher_in d |}
  else throw (CryptoError (ERR_CRYPTO_INVALID_AUTH_TAG (length tag))).

(** [decipher.update(data)]: the plaintext bytes come out before the tag
    is checked. *)
Definition decipher_update (d : Decipheriv) (data : bytes) : M (bytes * Decipheriv) :=
  log DecipherUpdate ;;
  let out := xor_bytes data (keystream_at (decipher_key d) (decipher_iv d) (length (decipher_in d)) (length data)) in
  ret (out, {| decipher_key := decipher_key d; decipher_iv := decipher_iv d;
               decipher_tag := decipher_tag d; decipher_in := decipher_in d ++ data |}).

Fixpoint bytes_eqb (a b : bytes) : bool :=
  match a, b with
  | [], [] => true
  | x :: a', y :: b' => Byte.eqb x y && bytes_eqb a' b'
  | _, _ => false
  end.

(** [decipher.final()]: the tag that was set is compared with the leading
    bytes of the tag of what was read; a mismatch throws. *)
Definition decipher_final (d : Decipheriv) : M bytes :=
  log DecipherFinal ;;
  match decipher_tag d with
  | Some tag =>
      if bytes_eqb tag (firstn (length tag)
                          (GCM.auth_tag (decipher_key d) (decipher_iv d) (decipher_in d)))
      then ret []
      else throw (CryptoError ERR_UNABLE_TO_AUTHENTICATE)
  | None => throw (CryptoError ERR_UNABLE_TO_AUTHENTICATE)
  end.

End Node.
Import Node.

(* ------------------------------------------------------------------ *)
(** ** The class [AES256GCM] *)

Module AES256GCM.

Local Open Scope node_scope.

(* private readonly fields *)
Definition algorithm : string := "aes-256-gcm".
Definition keyLength : nat := 32.
Definition ivLength : nat := 6.
Definition authTagLength : nat := 16.

(** The TypeScript type [string | Buffer]. *)
Inductive StringOrBuffer : Type :=
| Str (s : jsstring)
| Buf (b : bytes).

(** [typeof x === "string" ? Buffer.from(x, "utf8") : x]. *)
Definition toBuffer (x : StringOrBuffer) : bytes :=
  match x with
  | Str s => utf8 s
  | Buf b => b
  end.

(** The object [{ encrypted, iv, authTag }]. *)
Record Encrypted : Type := {
  encrypted : bytes;
  iv : jsstring;
  authTag : bytes
}.

(** Truthiness of an optional string argument: [undefined] and [""] are
    falsy. *)
Definition truthy (s : option jsstring) : bool :=
  match s with
  | Some (_ :: _) => true
  | _ => false
  end.

(** The string behind a truthy optional argument. *)
Definition chars (s : option jsstring) : jsstring :=
  match s with
  | Some s => s
  | None => []
  end.

Definition generateKey : M bytes := randomBytes keyLength.

Definition generateRandomString : M jsstring :=
  b <- randomBytes ivLength ;;
  ret (slice0 (hex_encode b) ivLength).

Definition encrypt (data : StringOrBuffer) (key : bytes) (fixedIv : option jsstring)
  : M Encrypted :=
  (* Validate key length *)
  if negb (length key =? keyLength)%nat then throw InvalidKeyLength else
  (* Use fixed IV if provided, otherwise generate a random one *)
  ivString <- (if truthy fixedIv then ret (chars fixedIv) else generateRandomString) ;;
  (* Validate IV length if fixed IV is provided *)
  if truthy fixedIv && negb (length (chars fixedIv) =? ivLength)%nat
  then throw InvalidNonceLength else
  (* Convert string to Buffer for encryption *)
  let iv := utf8 ivString in
  (* Create cipher *)
  cipher <- createCipheriv algorithm key iv ;;
  (* Convert data to Buffer if it's a string *)
  let dataBuffer := toBuffer data in
  (* Encrypt the data *)
  '(part1, cipher) <- cipher_update cipher dataBuffer ;;
  '(part2, cipher) <- cipher_final cipher ;;
  let encrypted := part1 ++ part2 in
  (* Get the authentication tag *)
  authTag <- getAuthTag cipher ;;
  ret {| encrypted := encrypted; iv := ivString; authTag := authTag |}.

Definition decrypt (encrypted key : bytes) (iv : StringOrBuffer) (authTag : bytes)
  : M bytes :=
  (* Validate key length *)
  if negb (length key =? keyLength)%nat then throw InvalidKeyLength else
  (* Convert IV to Buffer if it's a string *)
  let ivBuffer := toBuffer iv in
  (* Create decipher *)
  decipher <- createDecipheriv algorithm key ivBuffer ;;
  (* Set authentication tag *)
  decipher <- setAuthTag decipher authTag ;;
  (* Decrypt the data *)
  try_catch
    ('(part1, decipher) <- decipher_update decipher encrypted ;;
     part2 <- decipher_final decipher ;;
     ret (part1 ++ part2))
    (fun _ => throw AuthenticationFailed).

Definition encryptToBuffer (data : StringOrBuffer) (key : bytes) (fixedIv : option jsstring)
  : M bytes :=
  r <- encrypt data key fixedIv ;;
  let ivBuffer := utf8 (iv r) in
  ret (ivBuffer ++ authTag r ++ encrypted r).

Definition decryptFromBuffer (encryptedBuffer key : bytes) : M bytes :=
  let ivBuffer := subarray encryptedBuffer 0 ivLength in
  let authTag := subarray encryptedBuffer ivLength (ivLength + authTagLength) in
  let encrypted := subarray_from encryptedBuffer (ivLength + authTagLength) in
  decrypt encrypted key (Buf ivBuffer) authTag.

Definition encryptToString (data : StringOrBuffer) (key : bytes) (fixedIv : option jsstring)
  : M jsstring :=
  b <- encryptToBuffer data key fixedIv ;;
  ret (base64_encode b).

Definition decryptFromString (encryptedString : jsstring) (key : bytes) : M bytes :=
  let encryptedBuffer := base64_decode encryptedString in
  decryptFromBuffer encryptedBuffer key.

End AES256GCM.
Import AES256GCM.

(* ------------------------------------------------------------------ *)
(** ** Vocabulary of the statements *)

(** The world after [n] more bytes of entropy and the calls [cs]. *)
Definition advance (w : world) (n : nat) (cs : list call) : world :=
  {| entropy := entropy w; cursor := cursor w + n; calls := calls w ++ cs |}.

(** The world after the calls [cs], no entropy read. *)
Definition logged (w : world) (cs : list call) : world :=
  {| entropy := entropy w; cursor := cursor w; calls := calls w ++ cs |}.

(** The nonce [generateRandomString] draws in world [w]. *)
Definition next_nonce (w : world) : jsstring :=
  slice0 (hex_encode (map (entropy w) (seq (cursor w) ivLength))) ivLength.

(** Ciphertext and tag of [data] under [key] and the nonce string [ivs]. *)
Definition seal_ct (key : bytes) (ivs : jsstring) (data : bytes) : bytes :=
  xor_bytes data (GCM.keystream key (utf8 ivs) (length data)).

Definition seal (key : bytes) (ivs : jsstring) (data : StringOrBuffer) : Encrypted :=
  {| encrypted := seal_ct key ivs (toBuffer data);
     iv := ivs;
     authTag := GCM.auth_tag key (utf8 ivs) (seal_ct key ivs (toBuffer data)) |}.

(** The check of [decipher.final()]: the presented tag against the leading
    bytes of the tag of the presented ciphertext. *)
Definition tag_matches (key ivb ct tag : bytes) : bool :=
  bytes_eqb tag (firstn (length tag) (GCM.auth_tag key ivb ct)).

(** What [decipher.update] gives for a whole ciphertext. *)
Definition open_ct (key ivb ct : bytes) : bytes :=
  xor_bytes ct (GCM.keystream key ivb (length ct)).

(** Strings of ASCII characters. *)
Definition is_ascii (s : jsstring) : Prop := Forall (fun c => (c < 128)%N) s.

Definition encrypt_calls : list call := [CreateCipheriv; CipherUpdate; CipherFinal; GetAuthTag].
Definition decrypt_calls : list call := [CreateDecipheriv; SetAuthTag; DecipherUpdate; DecipherFinal].

(** Test data. *)
Module Vectors.

Definition hexval (c : ascii) : N :=
  let n := N_of_ascii c in
  if ((48 <=? n) && (n <=? 57))%N then (n - 48)%N
  else if ((97 <=? n) && (n <=? 102))%N then (n - 87)%N
  else 0%N.

Fixpoint hex (s : string) : bytes :=
  match s with
  | String a (String b rest) => byte_of_N (16 * hexval a + hexval b) :: hex rest
  | _ => []
  end.

Definition zero_key : bytes := repeat x00 32.

Definition demo_key : bytes :=
  hex "d50ec22b016bc0a3fbaaf99816ec397714a7dfb992e847c491d83656324f5cda".

Definition short_key : bytes := [x74; x6f; x6f; x73; x68; x6f; x72; x74].

Definition w0 : world :=
  {| entropy := fun i => byte_of_N (N.of_nat (7 * i + 161)); cursor := 0; calls := [] |}.

End Vectors.

(* ------------------------------------------------------------------ *)
(** ** Reading text back

    What the tests and the example do with a decrypted buffer:
    [decrypted.toString("utf8")]. *)

Module Decode.
Local Open Scope N_scope.

(** A code point as UTF-16: itself, or a surrogate pair. *)
Definition utf16_code_point (c : N) : jsstring :=
  if c <? 65536 then [c] else [55296 + (c - 65536) / 1024; 56320 + (c - 65536) mod 1024].

(** [buf.toString("utf8")].  [needed] continuation bytes are still expected
    for the code point begun in [cp], the next one between [lower] and
    [upper]; a byte that cannot start or continue a sequence gives U+FFFD,
    and a byte that breaks a sequence is read again as a first byte. *)
Fixpoint utf8_decode (needed : nat) (cp lower upper : N) (l : bytes) : jsstring :=
  match l with
  | [] => match needed with O => [] | S _ => [65533] end
  | x :: rest =>
      let b := Byte.to_N x in
      let first :=
        if b <? 128 then b :: utf8_decode 0 0 128 191 rest
        else if (194 <=? b) && (b <=? 223) then utf8_decode 1 (b - 192) 128 191 rest
        else if (224 <=? b) && (b <=? 239) then
          utf8_decode 2 (b - 224) (if b =? 224 then 160 else 128) (if b =? 237 then 159 else 191) rest
        else if (240 <=? b) && (b <=? 244) then
          utf8_decode 3 (b - 240) (if b =? 240 then 144 else 128) (if b =? 244 then 143 else 191) rest
        else 65533 :: utf8_decode 0 0 128 191 rest in
      match needed with
      | O => first
      | S n =>
          if (lower <=? b) && (b <=? upper) then
            match n with
            | O => utf16_code_point (cp * 64 + (b - 128)) ++ utf8_decode 0 0 128 191 rest
            | S _ => utf8_decode n (cp * 64 + (b - 128)) 128 191 rest
            end
          else 65533 :: first
      end
  end.

Definition toString_utf8 (b : bytes) : jsstring := utf8_decode 0 0 128 191 b.

(** [s.toWellFormed()]: every surrogate without a partner becomes U+FFFD. *)
Fixpoint toWellFormed (s : jsstring) : jsstring :=
  match s with
  | [] => []
  | u :: rest =>
      if is_high_surrogate u then
        match rest with
        | l :: rest' =>
            if is_low_surrogate l then u :: l :: toWellFormed rest'
            else 65533 :: toWellFormed rest
        | [] => [65533]
        end
      else if is_low_surrogate u then 65533 :: toWellFormed rest
      else u :: toWellFormed rest
  end.

(** [s.isWellFormed()]. *)
Fixpoint isWellFormed (s : jsstring) : bool :=
  match s with
  | [] => true
  | u :: rest =>
      if is_high_surrogate u then
        match rest with
        | l :: rest' => is_low_surrogate l && isWellFormed rest'
        | [] => false
        end
      else negb (is_low_surrogate u) && isWellFormed rest
  end.

End Decode.
Import Decode.

(** The digits of [toString("hex")]: [0-9 a-f]. *)
Definition is_lower_hex (c : char16) : bool :=
  (((48 <=? c) && (c <=? 57)) || ((97 <=? c) && (c <=? 102)))%N.

(* ------------------------------------------------------------------ *)
(** ** A certificate that the blocks form a field

    Multiplication of blocks is multiplication of polynomials over the
    two-element field modulo a polynomial of degree 128.  That polynomial
    is irreducible exactly when [v * v = v] has no other solutions than
    [0] and the unit, that is, when the linear map [v |-> v * v + v] has
    a kernel of two elements.  [inverse_artin] is a linear map, found by
    elimination, that undoes this map up to the unit; that it does so is
    checked on the 128 single bits in [GF128_field]. *)

Module Berlekamp.
Import GCM.
Local Open Scope N_scope.

(** The linear map whose kernel is the set of idempotents: [v * v + v]. *)
Definition artin (mul : N -> N -> N) (v : N) : N := N.lxor (square mul v) v.

(** A linear map given by the images of the single bits [2^i], [2^(i+1)], ... *)
Fixpoint combine_bits (cols : list N) (i : N) (v : N) : N :=
  match cols with
  | [] => 0
  | c :: cs => N.lxor (if N.testbit v i then c else 0) (combine_bits cs (i + 1) v)
  end.

(** Gaussian elimination over the two-element field.  A row [(p, vec, img)]
    records that the map under construction sends [vec] to [img]; [p] is the
    leading bit of [vec], and no other row has bit [p]. *)
Definition row : Type := (N * N * N)%type.

Definition reduce (rows : list row) (vec img : N) : N * N :=
  fold_left (fun '(vec, img) '(p, v, i) =>
               if N.testbit vec p then (N.lxor vec v, N.lxor img i) else (vec, img))
    rows (vec, img).

Definition eliminate (rows : list row) (vec img : N) : list row :=
  let '(vec, img) := reduce rows vec img in
  let p := N.log2 vec in
  map (fun '(pp, vv, ii) =>
         if N.testbit vv p then (pp, N.lxor vv vec, N.lxor ii img) else (pp, vv, ii)) rows
  ++ [(p, vec, img)].

Definition image_of (rows : list row) (i : N) : N :=
  match find (fun '(p, _, _) => p =? i) rows with
  | Some (_, _, img) => img
  | None => 0
  end.

(** A left inverse of [artin] away from the unit: it sends [artin (2^m)]
    back to [2^m] for [m < 127]. *)
Definition inverse_artin : list N :=
  Eval vm_compute in
    let rows := fold_left (fun rows m => eliminate rows (artin gf128_mul (2 ^ m)) (2 ^ m))
                  (map N.of_nat (seq 0 127)) [] in
    map (image_of rows) (map N.of_nat (seq 0 128)).

End Berlekamp.

(* ================================================================== *)
(** * Properties *)

(** ** Byte buffers *)

Lemma xor_bits_cancel (p q : bits8) : xor_bits (xor_bits p q) q = p.
Proof.
  destruct p as [a0 [a1 [a2 [a3 [a4 [a5 [a6 a7]]]]]]].
  destruct q as [b0 [b1 [b2 [b3 [b4 [b5 [b6 b7]]]]]]].
  cbn. rewrite !xorb_assoc, !xorb_nilpotent, !xorb_false_r. reflexivity.
Qed.

Lemma xor_byte_cancel (a b : byte) : xor_byte (xor_byte a b) b = a.
Proof.
  unfold xor_byte. rewrite Byte.to_bits_of_bits, xor_bits_cancel.
  apply Byte.of_bits_to_bits.
Qed.

Lemma xor_bytes_length (a b : bytes) :
  length (xor_bytes a b) = Nat.min (length a) (length b).
Proof.
  revert b. induction a as [|x a IH]; intros [|y b]; cbn; auto.
Qed.

Lemma xor_bytes_cancel (a b : bytes) :
  length a <= length b -> xor_bytes (xor_bytes a b) b = a.
Proof.
  revert b. induction a as [|x a IH]; intros [|y b] Hl; cbn in *; try lia; auto.
  rewrite xor_byte_cancel, IH by lia. reflexivity.
Qed.

Lemma N_to_bytes_length (n : nat) (x : N) : length (N_to_bytes n x) = n.
Proof. unfold N_to_bytes. now rewrite length_map, length_seq. Qed.

Lemma bytes_eqb_refl (a : bytes) : bytes_eqb a a = true.
Proof.
  induction a as [|x a IH]; cbn; auto.
  now rewrite (Byte.byte_dec_lb (eq_refl x)), IH.
Qed.

Lemma bytes_eqb_eq (a b : bytes) : bytes_eqb a b = true <-> a = b.
Proof.
  split; [|intros ->; apply bytes_eqb_refl].
  revert b. induction a as [|x a IH]; intros [|y b]; cbn; try discriminate; auto.
  intros H. apply andb_true_iff in H as [Hx Hr].
  apply Byte.byte_dec_bl in Hx. f_equal; auto.
Qed.

Lemma xorb_fixpoint (a b : bool) : xorb a b = a -> b = false.
Proof. destruct a, b; cbn; congruence. Qed.

Lemma xor_bits_fixpoint (p q : bits8) :
  xor_bits p q = p -> q = (false, (false, (false, (false, (false, (false, (false, false))))))).
Proof.
  destruct p as [a0 [a1 [a2 [a3 [a4 [a5 [a6 a7]]]]]]].
  destruct q as [b0 [b1 [b2 [b3 [b4 [b5 [b6 b7]]]]]]].
  cbn. intros H. injection H as H0 H1 H2 H3 H4 H5 H6 H7.
  apply xorb_fixpoint in H0, H1, H2, H3, H4, H5, H6, H7. subst. reflexivity.
Qed.

Lemma flip_mask_nonzero (k : nat) : flip_mask k <> x00.
Proof.
  unfold flip_mask.
  assert (Hk : k mod 8 < 8) by (apply Nat.mod_upper_bound; lia).
  destruct (k mod 8) as [|[|[|[|[|[|[|[|n]]]]]]]]; try (vm_compute; discriminate); lia.
Qed.

Lemma xor_byte_changes (a m : byte) : m <> x00 -> xor_byte a m <> a.
Proof.
  intros Hm H. apply Hm. unfold xor_byte in H.
  apply (f_equal Byte.to_bits) in H. rewrite Byte.to_bits_of_bits in H.
  apply xor_bits_fixpoint in H.
  rewrite <- (Byte.of_bits_to_bits m), H. reflexivity.
Qed.

Lemma flip_bit_length (i k : nat) (buf : bytes) : length (flip_bit i k buf) = length buf.
Proof.
  revert i. induction buf as [|x buf IH]; intros [|i]; cbn; auto.
Qed.

Lemma flip_bit_changes (i k : nat) (buf : bytes) :
  i < length buf -> flip_bit i k buf <> buf.
Proof.
  revert i. induction buf as [|x buf IH]; intros [|i] Hi; cbn in *; try lia.
  - intros H. injection H as H. revert H. apply xor_byte_changes, flip_mask_nonzero.
  - intros H. injection H as H. revert H. apply IH. lia.
Qed.

(** ** Galois/Counter mode *)

Lemma flat_map_length_const {A B} (f : A -> list B) (n : nat) (l : list A) :
  (forall a, length (f a) = n) -> length (flat_map f l) = n * length l.
Proof.
  intros Hf. induction l as [|a l IH]; cbn; [lia|].
  rewrite length_app, Hf, IH. lia.
Qed.

Lemma keystream_length (key iv : bytes) (n : nat) : length (GCM.keystream key iv n) = n.
Proof.
  unfold GCM.keystream. rewrite length_firstn.
  rewrite (flat_map_length_const _ 16) by (intros; apply N_to_bytes_length).
  rewrite length_seq.
  pose proof (Nat.div_mod_eq (n + 15) 16) as E.
  pose proof (Nat.mod_upper_bound (n + 15) 16 ltac:(lia)) as B.
  lia.
Qed.

Lemma auth_tag_length (key iv ct : bytes) : length (GCM.auth_tag key iv ct) = 16.
Proof. apply N_to_bytes_length. Qed.

Lemma keystream_at_0 (key iv : bytes) (n : nat) :
  keystream_at key iv 0 n = GCM.keystream key iv n.
Proof. reflexivity. Qed.

Lemma seal_ct_length (key : bytes) (ivs : jsstring) (data : bytes) :
  length (seal_ct key ivs data) = length data.
Proof.
  unfold seal_ct. rewrite xor_bytes_length, keystream_length. lia.
Qed.

Lemma seal_ct_open (key : bytes) (ivs : jsstring) (data : bytes) :
  xor_bytes (seal_ct key ivs data) (GCM.keystream key (utf8 ivs) (length (seal_ct key ivs data))) = data.
Proof.
  rewrite seal_ct_length. unfold seal_ct.
  apply xor_bytes_cancel. rewrite keystream_length. lia.
Qed.

(** ** The field of GHASH, and tags under a flipped bit

    The tag of a ciphertext is the encrypted first counter block, xor
    GHASH of the ciphertext blocks and their length.  Flipping one bit of the
    ciphertext flips one bit [d] of one block, and that changes GHASH by
    [d] multiplied [t] times by the hash subkey [h], for some [t >= 1].
    A single bit is the unit shifted by [mulx], and [mulx] is injective, so
    the change is zero only if the [t]-th power of [h] is zero; and that
    forces [h = 0], because squaring 128 times is the identity.  The laws
    needed of the multiplication are collected in [galois_mul], proved for
    [gf128_mul] on its loop, and used in [Section Field] for any
    multiplication that has them. *)

Module GF128.

Import GCM.
Local Open Scope N_scope.

Ltac lxor_ring :=
  apply N.bits_inj; intro; rewrite ?N.lxor_spec, ?N.bits_0;
  repeat match goal with
         | |- context [N.testbit ?a ?k] => destruct (N.testbit a k)
         end; reflexivity.

Lemma lxor_lt_pow2 a b n : a < 2 ^ n -> b < 2 ^ n -> N.lxor a b < 2 ^ n.
Proof.
  intros Ha Hb.
  destruct (N.eq_dec (N.lxor a b) 0) as [E|E].
  - rewrite E. apply N.neq_0_lt_0, N.pow_nonzero. discriminate.
  - apply N.log2_lt_pow2; [lia|].
    pose proof (N.log2_lxor a b) as H.
    assert (La : a = 0 \/ N.log2 a < n).
    { destruct (N.eq_dec a 0); [auto | right; apply N.log2_lt_pow2; lia]. }
    assert (Lb : b = 0 \/ N.log2 b < n).
    { destruct (N.eq_dec b 0); [auto | right; apply N.log2_lt_pow2; lia]. }
    destruct La as [-> | La], Lb as [-> | Lb].
    + rewrite N.lxor_0_l in E. congruence.
    + rewrite N.lxor_0_l. exact Lb.
    + rewrite N.lxor_0_r. exact La.
    + lia.
Qed.

Lemma mulx_0 : mulx 0 = 0.
Proof. reflexivity. Qed.

Lemma mulx_lxor a b : mulx (N.lxor a b) = N.lxor (mulx a) (mulx b).
Proof.
  unfold mulx. rewrite N.lxor_spec, N.shiftr_lxor.
  destruct (N.testbit a 0), (N.testbit b 0); cbn [xorb]; lxor_ring.
Qed.

Lemma mulx_bound v : B128 v -> B128 (mulx v).
Proof.
  unfold B128, mulx. intros Hv.
  assert (Hs : N.shiftr v 1 < 2 ^ 128).
  { rewrite N.shiftr_div_pow2. apply N.Div0.div_lt_upper_bound.
    change (2 ^ 1 * 2 ^ 128) with (2 * 2 ^ 128). lia. }
  destruct (N.testbit v 0); [apply lxor_lt_pow2; [exact Hs | reflexivity] | exact Hs].
Qed.

Lemma mulx_injective v : B128 v -> mulx v = 0 -> v = 0.
Proof.
  unfold B128, mulx. intros Hv H.
  assert (Hs : N.shiftr v 1 < 2 ^ 127).
  { rewrite N.shiftr_div_pow2. apply N.Div0.div_lt_upper_bound.
    change (2 ^ 1 * 2 ^ 127) with (2 ^ 128). exact Hv. }
  destruct (N.testbit v 0) eqn:E.
  - apply N.lxor_eq in H. exfalso.
    assert (HR : 2 ^ 127 <= R) by (vm_compute; discriminate).
    rewrite H in Hs. apply N.lt_nge in Hs. contradiction.
  - rewrite N.bit0_odd in E.
    rewrite N.shiftr_div_pow2 in H. change (2 ^ 1) with 2 in H.
    pose proof (N.div_mod v 2 ltac:(discriminate)) as D.
    rewrite H, N.mul_0_r, N.add_0_l in D.
    rewrite <- N.bit0_mod, N.bit0_odd, E in D. exact D.
Qed.

(** *** The loop *)

Lemma mul_loop_bound n i x v z : B128 v -> B128 z -> B128 (mul_loop n i x v z).
Proof.
  revert i v z. induction n as [|n IH]; intros i v z Hv Hz; cbn [mul_loop]; [exact Hz|].
  apply IH; [apply mulx_bound, Hv|].
  apply lxor_lt_pow2; [exact Hz|].
  destruct (N.testbit x (127 - i)); [exact Hv | reflexivity].
Qed.

Lemma mul_loop_lxor_v n i x v1 v2 z1 z2 :
  mul_loop n i x (N.lxor v1 v2) (N.lxor z1 z2)
  = N.lxor (mul_loop n i x v1 z1) (mul_loop n i x v2 z2).
Proof.
  revert i v1 v2 z1 z2. induction n as [|n IH]; intros; cbn [mul_loop]; [reflexivity|].
  rewrite mulx_lxor, <- IH. f_equal.
  destruct (N.testbit x (127 - i)); lxor_ring.
Qed.

Lemma mul_loop_lxor_x n i x1 x2 v z1 z2 :
  mul_loop n i (N.lxor x1 x2) v (N.lxor z1 z2)
  = N.lxor (mul_loop n i x1 v z1) (mul_loop n i x2 v z2).
Proof.
  revert i v z1 z2. induction n as [|n IH]; intros; cbn [mul_loop]; [reflexivity|].
  rewrite N.lxor_spec, <- IH. f_equal.
  destruct (N.testbit x1 (127 - i)), (N.testbit x2 (127 - i)); cbn [xorb]; lxor_ring.
Qed.

Lemma mul_loop_0_v n i x : mul_loop n i x 0 0 = 0.
Proof.
  revert i. induction n as [|n IH]; intros; cbn [mul_loop]; [reflexivity|].
  rewrite mulx_0. destruct (N.testbit x (127 - i)); apply IH.
Qed.

Lemma mul_loop_0_x n i v z : mul_loop n i 0 v z = z.
Proof.
  revert i v z. induction n as [|n IH]; intros; cbn [mul_loop]; [reflexivity|].
  rewrite N.bits_0, N.lxor_0_r. apply IH.
Qed.

Lemma mul_loop_mulx n i x v z :
  mul_loop n i x (mulx v) (mulx z) = mulx (mul_loop n i x v z).
Proof.
  revert i v z. induction n as [|n IH]; intros; cbn [mul_loop]; [reflexivity|].
  rewrite <- IH, mulx_lxor. f_equal. f_equal.
  destruct (N.testbit x (127 - i)); reflexivity.
Qed.

(** An additive map that commutes with [mulx] moves into the second
    argument of the loop. *)
Lemma mul_loop_push (B : N -> N) n i x v z :
  (forall a b, B (N.lxor a b) = N.lxor (B a) (B b)) ->
  (forall v, B (mulx v) = mulx (B v)) ->
  B 0 = 0 ->
  B (mul_loop n i x v z) = mul_loop n i x (B v) (B z).
Proof.
  intros B_lxor B_mulx B_0.
  revert i v z. induction n as [|n IH]; intros; cbn [mul_loop]; [reflexivity|].
  rewrite IH, B_mulx, B_lxor. f_equal. f_equal.
  destruct (N.testbit x (127 - i)); [reflexivity | exact B_0].
Qed.

Lemma basis_check (f : N -> bool) :
  forallb f (map N.of_nat (seq 0 128)) = true -> forall m, m < 128 -> f m = true.
Proof.
  intros H m Hm. rewrite forallb_forall in H. apply H.
  apply in_map_iff. exists (N.to_nat m). split; [apply N2Nat.id|].
  apply in_seq. lia.
Qed.

(** The multiplication of the model has the laws of [galois_mul]. *)
Lemma gf128_mul_galois : galois_mul gf128_mul.
Proof.
  constructor.
  - intros x y Hy. exact (mul_loop_bound 128 0 x y 0 Hy eq_refl).
  - intros a b y. exact (mul_loop_lxor_x 128 0 a b y 0 0).
  - intros x a b. exact (mul_loop_lxor_v 128 0 x a b 0 0).
  - intros y. exact (mul_loop_0_x 128 0 y 0).
  - intros x. exact (mul_loop_0_v 128 0 x).
  - intros x y. exact (mul_loop_mulx 128 0 x y 0).
  - intros a b c.
    exact (eq_trans
             (mul_loop_push (fun y => mul_loop 128 0 a y 0) 128 0 b c 0
                (fun u v => mul_loop_lxor_v 128 0 a u v 0 0)
                (fun v => mul_loop_mulx 128 0 a v 0)
                (mul_loop_0_v 128 0 a))
             (f_equal (mul_loop 128 0 b (mul_loop 128 0 a c 0)) (mul_loop_0_v 128 0 a))).
  - intros m Hm. apply N.eqb_eq.
    apply (basis_check (fun m => gf128_mul (2 ^ m) one128 =? 2 ^ m)); [|exact Hm].
    vm_compute. reflexivity.
  - vm_compute. reflexivity.
Qed.

(** Extension from the basis [2^m], [m < 128], by additivity. *)
Lemma lt_pow2_S_split v k :
  v < 2 ^ N.succ k ->
  (v < 2 ^ k) \/ (exists v', v' < 2 ^ k /\ v = N.lxor v' (2 ^ k)).
Proof.
  intros Hv. rewrite N.pow_succ_r' in Hv.
  destruct (N.lt_ge_cases v (2 ^ k)) as [H|H]; [left; exact H|].
  right. exists (v - 2 ^ k). split; [lia|].
  rewrite <- N.add_nocarry_lxor; [lia|].
  apply N.bits_inj. intro j. rewrite N.land_spec, N.bits_0, N.pow2_bits_eqb.
  destruct (N.eqb_spec k j) as [<-|Hne]; [|apply andb_false_r].
  rewrite andb_true_r.
  destruct (N.eq_dec (v - 2 ^ k) 0) as [E|E]; [rewrite E; apply N.bits_0|].
  apply N.bits_above_log2. apply N.log2_lt_pow2; lia.
Qed.

Section Extension.
Variable L : N -> N.
Hypothesis L_lxor : forall a b, B128 a -> B128 b -> L (N.lxor a b) = N.lxor (L a) (L b).
Hypothesis L_basis : forall m, m < 128 -> L (2 ^ m) = 0.

Lemma extension_zero : L 0 = 0.
Proof.
  pose proof (L_lxor 0 0 eq_refl eq_refl) as H.
  rewrite !N.lxor_nilpotent in H. exact H.
Qed.

Lemma extension_bounded k v : k <= 128 -> v < 2 ^ k -> L v = 0.
Proof.
  revert v. induction k as [|k IH] using N.peano_ind; intros v Hk Hv.
  - cbn in Hv. assert (v = 0) by lia. subst. apply extension_zero.
  - destruct (lt_pow2_S_split v k Hv) as [H | (v' & Hv' & ->)].
    + apply IH; [lia | exact H].
    + assert (P : 2 ^ k < 2 ^ 128) by (apply N.pow_lt_mono_r; lia).
      rewrite L_lxor; [| unfold B128; lia | exact P].
      rewrite (IH v'), L_basis by lia. reflexivity.
Qed.

Lemma extension v : B128 v -> L v = 0.
Proof. apply (extension_bounded 128). lia. Qed.
End Extension.

Lemma iter_mulx_bound i v : B128 v -> B128 (Nat.iter i mulx v).
Proof.
  intros Hv. induction i as [|i IH]; [exact Hv|].
  rewrite Nat.iter_succ. apply mulx_bound, IH.
Qed.

Lemma iter_mulx_injective i v : B128 v -> Nat.iter i mulx v = 0 -> v = 0.
Proof.
  intros Hv. induction i as [|i IH]; [auto|].
  rewrite Nat.iter_succ. intros H. apply IH.
  apply mulx_injective; [apply iter_mulx_bound, Hv | exact H].
Qed.

(** Every single bit is the unit shifted. *)
Lemma single_bit_shift m :
  m < 128 -> 2 ^ m = Nat.iter (N.to_nat (127 - m)) mulx one128.
Proof.
  intros Hm. apply N.eqb_eq.
  apply (basis_check (fun m => 2 ^ m =? Nat.iter (N.to_nat (127 - m)) mulx one128));
    [|exact Hm].
  vm_compute. reflexivity.
Qed.

Section Field.
Variable mul : N -> N -> N.
Hypothesis G : galois_mul mul.

Lemma mul_bound x y : B128 y -> B128 (mul x y).
Proof. apply (gm_bound mul G). Qed.

Lemma mul_lxor_l a b y : mul (N.lxor a b) y = N.lxor (mul a y) (mul b y).
Proof. apply (gm_lxor_l mul G). Qed.

Lemma mul_lxor_r x a b : mul x (N.lxor a b) = N.lxor (mul x a) (mul x b).
Proof. apply (gm_lxor_r mul G). Qed.

Lemma mul_0_l y : mul 0 y = 0.
Proof. apply (gm_0_l mul G). Qed.

Lemma mul_0_r x : mul x 0 = 0.
Proof. apply (gm_0_r mul G). Qed.

Lemma mul_mulx x y : mul x (mulx y) = mulx (mul x y).
Proof. apply (gm_mulx mul G). Qed.

Lemma mul_left_comm a b c : mul a (mul b c) = mul b (mul a c).
Proof. apply (gm_left_comm mul G). Qed.

Lemma mul_1_r y : B128 y -> mul y one128 = y.
Proof.
  intros Hy. apply N.lxor_eq.
  apply (extension (fun y => N.lxor (mul y one128) y)); [| |exact Hy].
  - intros a b _ _. rewrite mul_lxor_l. lxor_ring.
  - intros m Hm. rewrite (gm_1_r_basis mul G) by exact Hm. apply N.lxor_nilpotent.
Qed.

Lemma mul_comm a b : B128 a -> B128 b -> mul a b = mul b a.
Proof.
  intros Ha Hb.
  rewrite <- (mul_1_r b Hb) at 1.
  rewrite mul_left_comm, (mul_1_r a Ha). reflexivity.
Qed.

Lemma mul_1_l y : B128 y -> mul one128 y = y.
Proof.
  intros Hy. rewrite mul_comm; [apply mul_1_r, Hy | reflexivity | exact Hy].
Qed.

Lemma times_eq h y : times mul h y = mul y h.
Proof. reflexivity. Qed.

Lemma power_S h n : power mul h (S n) = mul (power mul h n) h.
Proof. reflexivity. Qed.

Lemma power_bound h n : B128 h -> B128 (power mul h n).
Proof.
  intros Hh. induction n as [|n IH]; [reflexivity|].
  rewrite power_S. apply mul_bound, Hh.
Qed.

Lemma power_1 h : B128 h -> power mul h 1 = h.
Proof. intros Hh. rewrite power_S. apply mul_1_l, Hh. Qed.

Lemma power_add h a b :
  B128 h -> mul (power mul h a) (power mul h b) = power mul h (a + b).
Proof.
  intros Hh. revert a. induction b as [|b IH]; intros a.
  - rewrite Nat.add_0_r. apply mul_1_r, power_bound, Hh.
  - rewrite power_S, mul_left_comm, <- power_S.
    rewrite mul_comm by (apply power_bound, Hh).
    rewrite IH. f_equal. lia.
Qed.

Lemma power_zero_above h t n :
  B128 h -> power mul h t = 0 -> (t <= n)%nat -> power mul h n = 0.
Proof.
  intros Hh Ht Hn. replace n with (t + (n - t))%nat by lia.
  rewrite <- power_add, Ht by exact Hh. apply mul_0_l.
Qed.

(** Squaring is additive and, 128 times, the identity. *)
Lemma square_bound y : B128 y -> B128 (square mul y).
Proof. apply mul_bound. Qed.

Lemma square_lxor a b :
  B128 a -> B128 b -> square mul (N.lxor a b) = N.lxor (square mul a) (square mul b).
Proof.
  intros Ha Hb. unfold square.
  rewrite mul_lxor_l, !mul_lxor_r, (mul_comm b a) by assumption.
  lxor_ring.
Qed.

Lemma iter_square_bound k y : B128 y -> B128 (Nat.iter k (square mul) y).
Proof.
  intros Hy. induction k as [|k IH]; [exact Hy|].
  rewrite Nat.iter_succ. apply square_bound, IH.
Qed.

Lemma iter_square_lxor k a b :
  B128 a -> B128 b ->
  Nat.iter k (square mul) (N.lxor a b)
  = N.lxor (Nat.iter k (square mul) a) (Nat.iter k (square mul) b).
Proof.
  intros Ha Hb. induction k as [|k IH]; [reflexivity|].
  rewrite !Nat.iter_succ, IH. apply square_lxor; apply iter_square_bound; assumption.
Qed.

(** The single bits are the powers of the indeterminate. *)
Lemma times_x y : B128 y -> mul y (2 ^ 126) = mulx y.
Proof.
  intros Hy. change (2 ^ 126) with (mulx one128).
  rewrite mul_mulx, mul_1_r by exact Hy. reflexivity.
Qed.

Lemma iter_mulx_power i : Nat.iter i mulx one128 = power mul (2 ^ 126) i.
Proof.
  induction i as [|i IH]; [reflexivity|].
  rewrite Nat.iter_succ, power_S, IH. symmetry.
  apply times_x, power_bound. reflexivity.
Qed.

Lemma square_mul a b :
  B128 a -> B128 b -> square mul (mul a b) = mul (square mul a) (square mul b).
Proof.
  intros Ha Hb. unfold square.
  rewrite (mul_left_comm (mul a b) a b).
  rewrite (mul_comm (mul a b) b) by (try apply mul_bound; assumption).
  rewrite (mul_left_comm b a b).
  rewrite (mul_comm (mul a a) (mul b b)) by (apply mul_bound; assumption).
  rewrite (mul_left_comm (mul b b) a a).
  rewrite (mul_comm (mul b b) a) by (try apply mul_bound; assumption).
  reflexivity.
Qed.

Lemma iter_square_mul k a b :
  B128 a -> B128 b ->
  Nat.iter k (square mul) (mul a b)
  = mul (Nat.iter k (square mul) a) (Nat.iter k (square mul) b).
Proof.
  intros Ha Hb. induction k as [|k IH]; [reflexivity|].
  rewrite !Nat.iter_succ, IH. apply square_mul; apply iter_square_bound; assumption.
Qed.

Lemma iter_square_one k : Nat.iter k (square mul) one128 = one128.
Proof.
  induction k as [|k IH]; [reflexivity|].
  rewrite Nat.iter_succ, IH. apply mul_1_r. reflexivity.
Qed.

Lemma iter_square_of_power k h n :
  B128 h ->
  Nat.iter k (square mul) (power mul h n) = power mul (Nat.iter k (square mul) h) n.
Proof.
  intros Hh. induction n as [|n IH]; [apply iter_square_one|].
  rewrite !power_S, iter_square_mul, IH; [reflexivity | apply power_bound, Hh | exact Hh].
Qed.

Lemma frobenius_basis m : m < 128 -> Nat.iter 128 (square mul) (2 ^ m) = 2 ^ m.
Proof.
  intros Hm. rewrite (single_bit_shift m Hm), iter_mulx_power.
  rewrite iter_square_of_power by reflexivity.
  now rewrite (gm_frobenius_x mul G).
Qed.

Lemma frobenius y : B128 y -> Nat.iter 128 (square mul) y = y.
Proof.
  intros Hy. apply N.lxor_eq.
  apply (extension (fun y => N.lxor (Nat.iter 128 (square mul) y) y)); [| |exact Hy].
  - intros a b Ha Hb. rewrite iter_square_lxor by assumption. lxor_ring.
  - intros m Hm. rewrite frobenius_basis by exact Hm. apply N.lxor_nilpotent.
Qed.

Lemma frobenius_iter c y : B128 y -> Nat.iter (128 * c) (square mul) y = y.
Proof.
  intros Hy. induction c as [|c IH]; [reflexivity|].
  replace (128 * S c)%nat with (128 + 128 * c)%nat by lia.
  rewrite Nat.iter_add, IH. apply frobenius, Hy.
Qed.

Lemma iter_square_power h k :
  B128 h -> Nat.iter k (square mul) h = power mul h (2 ^ k)%nat.
Proof.
  intros Hh. induction k as [|k IH].
  - cbn [Nat.pow]. symmetry. apply power_1, Hh.
  - rewrite Nat.iter_succ, IH. unfold square. rewrite power_add by exact Hh.
    f_equal. cbn [Nat.pow]. lia.
Qed.

Lemma pow2_128_ge t : (t <= 2 ^ (128 * t))%nat.
Proof.
  induction t as [|t IH]; [lia|].
  replace (128 * S t)%nat with (128 + 128 * t)%nat by lia.
  rewrite Nat.pow_add_r.
  assert (2 ^ 128 >= 2)%nat.
  { change 128%nat with (1 + 127)%nat. rewrite Nat.pow_add_r.
    assert (0 < 2 ^ 127)%nat by (apply Nat.neq_0_lt_0, Nat.pow_nonzero; lia).
    cbn [Nat.pow]. lia. }
  assert (0 < 2 ^ (128 * t))%nat by (apply Nat.neq_0_lt_0, Nat.pow_nonzero; lia).
  nia.
Qed.

(** No non-zero element is nilpotent. *)
Lemma power_nonzero h t : B128 h -> h <> 0 -> power mul h t <> 0.
Proof.
  intros Hh Hne Ht. apply Hne.
  rewrite <- (frobenius_iter t h Hh), iter_square_power by exact Hh.
  apply (power_zero_above h t); [exact Hh | exact Ht | apply pow2_128_ge].
Qed.

Lemma times_bound h y : B128 h -> B128 (times mul h y).
Proof. intros Hh. rewrite times_eq. apply mul_bound, Hh. Qed.

Lemma times_lxor h a b : times mul h (N.lxor a b) = N.lxor (times mul h a) (times mul h b).
Proof. rewrite !times_eq. apply mul_lxor_l. Qed.

Lemma times_mulx h y : B128 h -> B128 y -> times mul h (mulx y) = mulx (times mul h y).
Proof.
  intros Hh Hy. rewrite !times_eq.
  rewrite (mul_comm (mulx y) h) by (try apply mulx_bound; assumption).
  rewrite mul_mulx, (mul_comm h y) by assumption. reflexivity.
Qed.

Lemma iter_times_bound h t y : B128 h -> B128 y -> B128 (Nat.iter t (times mul h) y).
Proof.
  intros Hh Hy. destruct t as [|t]; [exact Hy|].
  rewrite Nat.iter_succ. apply times_bound, Hh.
Qed.

Lemma iter_times_mulx h t y :
  B128 h -> B128 y ->
  Nat.iter t (times mul h) (mulx y) = mulx (Nat.iter t (times mul h) y).
Proof.
  intros Hh Hy. induction t as [|t IH]; [reflexivity|].
  rewrite !Nat.iter_succ, IH. apply times_mulx; [exact Hh | apply iter_times_bound; assumption].
Qed.

Lemma iter_times_iter_mulx h t i y :
  B128 h -> B128 y ->
  Nat.iter t (times mul h) (Nat.iter i mulx y) = Nat.iter i mulx (Nat.iter t (times mul h) y).
Proof.
  intros Hh Hy. induction i as [|i IH]; [reflexivity|].
  rewrite !Nat.iter_succ, iter_times_mulx, IH; [reflexivity | exact Hh | apply iter_mulx_bound, Hy].
Qed.

(** Multiplying a single bit any number of times by a non-zero [h] never
    gives zero. *)
Lemma single_bit_times_nonzero h m t :
  B128 h -> h <> 0 -> m < 128 -> Nat.iter t (times mul h) (2 ^ m) <> 0.
Proof.
  intros Hh Hne Hm H.
  rewrite (single_bit_shift m Hm), iter_times_iter_mulx in H by (exact Hh || reflexivity).
  apply iter_mulx_injective in H; [| apply iter_times_bound; [exact Hh | reflexivity]].
  revert H. apply power_nonzero; assumption.
Qed.

(** GHASH of two block lists that differ in one block. *)
Lemma ghash_fold_lxor h xs a d :
  fold_left (fun y x => mul (N.lxor y x) h) xs (N.lxor a d)
  = N.lxor (fold_left (fun y x => mul (N.lxor y x) h) xs a)
           (Nat.iter (length xs) (times mul h) d).
Proof.
  revert a d. induction xs as [|x xs IH]; intros a d; [reflexivity|].
  cbn [fold_left length]. rewrite Nat.iter_succ_r, <- IH. f_equal.
  rewrite times_eq, <- mul_lxor_l. f_equal. lxor_ring.
Qed.

Lemma ghash_one_block_changed h xs1 x d xs2 :
  GHASH_with mul h (xs1 ++ N.lxor x d :: xs2)
  = N.lxor (GHASH_with mul h (xs1 ++ x :: xs2)) (Nat.iter (S (length xs2)) (times mul h) d).
Proof.
  unfold GHASH_with. rewrite !fold_left_app. cbn [fold_left].
  set (a := fold_left _ xs1 0).
  rewrite <- N.lxor_assoc, mul_lxor_l, <- (times_eq h d).
  rewrite ghash_fold_lxor, Nat.iter_succ_r. reflexivity.
Qed.

Lemma ghash_bound h xs : B128 h -> B128 (GHASH_with mul h xs).
Proof.
  intros Hh. unfold GHASH_with.
  assert (Gen : forall a, B128 a -> B128 (fold_left (fun y x => mul (N.lxor y x) h) xs a)).
  { induction xs as [|x xs IH]; intros a Ha; [exact Ha|].
    cbn [fold_left]. apply IH, mul_bound, Hh. }
  apply Gen. reflexivity.
Qed.

Lemma ghash_zero_key xs : GHASH_with mul 0 xs = 0.
Proof.
  unfold GHASH_with.
  assert (Gen : forall a, a = 0 -> fold_left (fun y x => mul (N.lxor y x) 0) xs a = 0).
  { induction xs as [|x xs IH]; intros a Ha; [exact Ha|].
    cbn [fold_left]. apply IH, mul_0_r. }
  apply Gen. reflexivity.
Qed.

(** A single changed bit in one block changes GHASH. *)
Lemma ghash_single_bit h xs1 x m xs2 :
  B128 h -> h <> 0 -> m < 128 ->
  GHASH_with mul h (xs1 ++ N.lxor x (2 ^ m) :: xs2) <> GHASH_with mul h (xs1 ++ x :: xs2).
Proof.
  intros Hh Hne Hm E. rewrite ghash_one_block_changed in E.
  apply (single_bit_times_nonzero h m (S (length xs2)) Hh Hne Hm).
  apply (f_equal (N.lxor (GHASH_with mul h (xs1 ++ x :: xs2)))) in E.
  rewrite N.lxor_nilpotent, <- N.lxor_assoc, N.lxor_nilpotent, N.lxor_0_l in E. exact E.
Qed.

End Field.

(** *** Buffers as numbers *)

Lemma bytes_to_N_acc (l : bytes) (acc : N) :
  fold_left (fun a b => a * 256 + Byte.to_N b) l acc
  = acc * 256 ^ N.of_nat (length l) + bytes_to_N l.
Proof.
  unfold bytes_to_N. revert acc. induction l as [|b l IH]; intros acc.
  - cbn. lia.
  - cbn [fold_left length]. rewrite IH, (IH (0 * 256 + Byte.to_N b)).
    rewrite Nat2N.inj_succ, N.pow_succ_r'. lia.
Qed.

Lemma bytes_to_N_cons (b : byte) (l : bytes) :
  bytes_to_N (b :: l) = Byte.to_N b * 256 ^ N.of_nat (length l) + bytes_to_N l.
Proof.
  unfold bytes_to_N at 1. cbn [fold_left]. rewrite bytes_to_N_acc. reflexivity.
Qed.

Lemma bytes_to_N_bound (l : bytes) : bytes_to_N l < 256 ^ N.of_nat (length l).
Proof.
  induction l as [|b l IH]; [reflexivity|].
  rewrite bytes_to_N_cons. cbn [length]. rewrite Nat2N.inj_succ, N.pow_succ_r'.
  pose proof (Byte.to_N_bounded b). nia.
Qed.

Lemma pow256 n : 256 ^ n = 2 ^ (8 * n).
Proof. change 256 with (2 ^ 8). now rewrite <- N.pow_mul_r. Qed.

Lemma land_shiftl_small a n b : b < 2 ^ n -> N.land (N.shiftl a n) b = 0.
Proof.
  intros Hb. apply N.bits_inj. intro j. rewrite N.land_spec, N.bits_0.
  destruct (N.lt_ge_cases j n) as [H|H].
  - now rewrite N.shiftl_spec_low.
  - destruct (N.eq_dec b 0) as [->|Hne]; [now rewrite N.bits_0, andb_false_r|].
    rewrite (N.bits_above_log2 b j), andb_false_r; [reflexivity|].
    apply N.lt_le_trans with n; [|exact H]. apply N.log2_lt_pow2; lia.
Qed.

Lemma bytes_to_N_cons_lxor (b : byte) (l : bytes) :
  bytes_to_N (b :: l)
  = N.lxor (N.shiftl (Byte.to_N b) (8 * N.of_nat (length l))) (bytes_to_N l).
Proof.
  rewrite bytes_to_N_cons, pow256, <- N.shiftl_mul_pow2.
  apply N.add_nocarry_lxor, land_shiftl_small.
  rewrite <- pow256. apply bytes_to_N_bound.
Qed.

Lemma xor_byte_flip_mask (b : byte) (k : nat) :
  Byte.to_N (xor_byte b (flip_mask k)) = N.lxor (Byte.to_N b) (2 ^ N.of_nat (k mod 8)).
Proof.
  unfold flip_mask.
  assert (Hk : (k mod 8 < 8)%nat) by (apply Nat.mod_upper_bound; lia).
  destruct (k mod 8)%nat as [|[|[|[|[|[|[|[|n]]]]]]]]; try lia;
    destruct b; vm_compute; reflexivity.
Qed.

(** Flipping bit [k] of byte [i] flips one bit of the number. *)
Lemma bytes_to_N_flip (i k : nat) (l : bytes) :
  (i < length l)%nat ->
  bytes_to_N (flip_bit i k l)
  = N.lxor (bytes_to_N l) (2 ^ (8 * N.of_nat (length l - 1 - i) + N.of_nat (k mod 8))).
Proof.
  revert i. induction l as [|b l IH]; intros i Hi; [cbn in Hi; lia|].
  destruct i as [|i]; cbn [flip_bit].
  - rewrite !bytes_to_N_cons_lxor, xor_byte_flip_mask, N.shiftl_lxor.
    replace (length (b :: l) - 1 - 0)%nat with (length l) by (cbn; lia).
    rewrite (N.shiftl_mul_pow2 (2 ^ _)), <- N.pow_add_r.
    rewrite (N.add_comm (N.of_nat (k mod 8))). lxor_ring.
  - rewrite !bytes_to_N_cons_lxor, flip_bit_length, IH by (cbn in Hi; lia).
    replace (length (b :: l) - 1 - S i)%nat with (length l - 1 - i)%nat by (cbn; lia).
    lxor_ring.
Qed.

Lemma flip_bit_app (i k : nat) (l l' : bytes) :
  (i < length l)%nat -> flip_bit i k (l ++ l') = flip_bit i k l ++ l'.
Proof.
  revert i. induction l as [|b l IH]; intros [|i] Hi; cbn in *; try lia; [reflexivity|].
  now rewrite IH by lia.
Qed.

Lemma firstn_flip_bit_lt (n i k : nat) (l : bytes) :
  (i < n)%nat -> firstn n (flip_bit i k l) = flip_bit i k (firstn n l).
Proof.
  revert n i. induction l as [|b l IH]; intros [|n] [|i] Hi; cbn;
    try lia; try reflexivity.
  f_equal. apply IH. lia.
Qed.

Lemma skipn_flip_bit_lt (n i k : nat) (l : bytes) :
  (i < n)%nat -> skipn n (flip_bit i k l) = skipn n l.
Proof.
  revert n i. induction l as [|b l IH]; intros [|n] [|i] Hi; cbn;
    try lia; try reflexivity.
  apply IH. lia.
Qed.

Lemma firstn_flip_bit_ge (n i k : nat) (l : bytes) :
  (n <= i)%nat -> firstn n (flip_bit i k l) = firstn n l.
Proof.
  revert n i. induction l as [|b l IH]; intros [|n] [|i] Hi; cbn;
    try lia; try reflexivity.
  f_equal. apply IH. lia.
Qed.

Lemma skipn_flip_bit_ge (n i k : nat) (l : bytes) :
  (n <= i)%nat -> skipn n (flip_bit i k l) = flip_bit (i - n) k (skipn n l).
Proof.
  revert n i. induction l as [|b l IH]; intros [|n] [|i] Hi; cbn;
    try lia; try reflexivity.
  - destruct (i - n)%nat; reflexivity.
  - apply IH. lia.
Qed.

(** The blocks of a buffer with one bit flipped: one block has one bit
    flipped. *)
Lemma blocks_fuel_flip (f i k : nat) (l : bytes) :
  (i < length l)%nat -> (length l <= f)%nat ->
  exists xs1 x xs2 m,
    m < 128
    /\ blocks_fuel f l = xs1 ++ x :: xs2
    /\ blocks_fuel f (flip_bit i k l) = xs1 ++ N.lxor x (2 ^ m) :: xs2.
Proof.
  revert i l. induction f as [|f IH]; intros i l Hi Hf; [lia|].
  destruct l as [|b l]; [cbn in Hi; lia|].
  assert (Hfl : exists b' l', flip_bit i k (b :: l) = b' :: l').
  { destruct i; cbn [flip_bit]; eauto. }
  destruct Hfl as (b' & l' & Efl).
  cbn [blocks_fuel]. rewrite Efl. cbn [blocks_fuel]. rewrite <- Efl.
  set (buf := b :: l) in *.
  destruct (Nat.lt_ge_cases i 16) as [Hlt|Hge].
  - exists [], (bytes_to_N (firstn 16 (buf ++ repeat x00 15))), (blocks_fuel f (skipn 16 buf)),
      (8 * N.of_nat (16 - 1 - i) + N.of_nat (k mod 8)).
    assert (Hlen : length (firstn 16 (buf ++ repeat x00 15)) = 16%nat).
    { rewrite length_firstn, length_app, repeat_length. subst buf. cbn [length]. lia. }
    split.
    { assert (k mod 8 < 8)%nat by (apply Nat.mod_upper_bound; lia). lia. }
    split; [reflexivity|]. cbn [app]. f_equal.
    + rewrite <- (flip_bit_app i k buf (repeat x00 15) Hi).
      rewrite firstn_flip_bit_lt by exact Hlt.
      rewrite bytes_to_N_flip by (rewrite Hlen; exact Hlt).
      rewrite Hlen. reflexivity.
    + now rewrite skipn_flip_bit_lt.
  - destruct (IH (i - 16)%nat (skipn 16 buf)) as (xs1 & x & xs2 & m & Hm & E1 & E2).
    { rewrite length_skipn. lia. }
    { rewrite length_skipn. subst buf. cbn [length] in *. lia. }
    exists (bytes_to_N (firstn 16 (buf ++ repeat x00 15)) :: xs1), x, xs2, m.
    split; [exact Hm|]. split.
    + cbn [app]. now rewrite E1.
    + cbn [app]. rewrite skipn_flip_bit_ge, E2 by exact Hge. f_equal.
      rewrite <- (flip_bit_app i k buf (repeat x00 15) Hi).
      now rewrite firstn_flip_bit_ge by exact Hge.
Qed.

Lemma blocks_flip (i k : nat) (l : bytes) :
  (i < length l)%nat ->
  exists xs1 x xs2 m,
    m < 128
    /\ blocks l = xs1 ++ x :: xs2
    /\ blocks (flip_bit i k l) = xs1 ++ N.lxor x (2 ^ m) :: xs2.
Proof.
  intros Hi. unfold blocks. rewrite flip_bit_length.
  apply blocks_fuel_flip; [exact Hi | lia].
Qed.

(** *** Numbers as buffers *)

Lemma to_N_byte_of_N (n : N) : Byte.to_N (byte_of_N n) = n mod 256.
Proof.
  unfold byte_of_N.
  assert (H : n mod 256 < 256) by (apply N.mod_lt; discriminate).
  destruct (Byte.of_N (n mod 256)) as [b|] eqn:E.
  - now apply Byte.to_of_N.
  - pose proof (Byte.to_of_N_option_map (n mod 256)) as O. rewrite E in O. cbn [option_map] in O.
    destruct (N.leb_spec (n mod 256) 255); [discriminate | lia].
Qed.

Lemma N_to_bytes_S (n : nat) (x : N) :
  N_to_bytes (S n) x = byte_of_N (N.shiftr x (8 * N.of_nat n)) :: N_to_bytes n x.
Proof.
  unfold N_to_bytes. cbn [seq map]. f_equal.
  - f_equal. f_equal. f_equal. lia.
  - rewrite <- seq_shift, map_map. apply map_ext. intros i.
    f_equal. f_equal. f_equal. f_equal. lia.
Qed.

Lemma bytes_to_N_to_bytes (n : nat) (x : N) :
  bytes_to_N (N_to_bytes n x) = x mod 256 ^ N.of_nat n.
Proof.
  induction n as [|n IH].
  - cbn. now rewrite N.mod_1_r.
  - rewrite N_to_bytes_S, bytes_to_N_cons, IH, N_to_bytes_length, to_N_byte_of_N.
    rewrite Nat2N.inj_succ, N.pow_succ_r', N.shiftr_div_pow2, <- pow256.
    rewrite (N.mul_comm 256), N.Div0.mod_mul_r. lia.
Qed.

Lemma N_to_bytes_16_injective (a b : N) :
  B128 a -> B128 b -> N_to_bytes 16 a = N_to_bytes 16 b -> a = b.
Proof.
  unfold B128. intros Ha Hb E. apply (f_equal bytes_to_N) in E.
  rewrite !bytes_to_N_to_bytes in E.
  change (256 ^ N.of_nat 16) with (2 ^ 128) in E.
  now rewrite !N.mod_small in E by assumption.
Qed.

(** The block cipher gives 128 bits. *)
Lemma encrypt_block_bound (key : bytes) (blk : N) : B128 (AES.encrypt_block key blk).
Proof.
  unfold B128, AES.encrypt_block.
  set (out := AES.Cipher key _).
  assert (Hl : (length out <= 16)%nat).
  { subst out. unfold AES.Cipher, AES.AddRoundKey.
    rewrite length_map, length_combine. unfold AES.ShiftRows at 1.
    rewrite length_map, length_seq. lia. }
  eapply N.lt_le_trans; [apply bytes_to_N_bound|].
  rewrite length_map. change (2 ^ 128) with (256 ^ 16).
  apply N.pow_le_mono_r; lia.
Qed.

Lemma hash_subkey_bound (key : bytes) : B128 (hash_subkey key).
Proof. exact (encrypt_block_bound key 0). Qed.

Lemma bit_length_flip (i k : nat) (ct : bytes) :
  bit_length (flip_bit i k ct) = bit_length ct.
Proof. unfold bit_length. now rewrite flip_bit_length. Qed.

(** With a non-zero hash subkey, a flipped bit of the ciphertext changes
    the tag. *)
Lemma auth_tag_flip (key ivb ct : bytes) (i k : nat) :
  hash_subkey key <> 0 -> (i < length ct)%nat ->
  auth_tag key ivb (flip_bit i k ct) <> auth_tag key ivb ct.
Proof.
  intros Hh Hi E. unfold auth_tag in E.
  rewrite bit_length_flip in E.
  pose proof (hash_subkey_bound key) as Hb.
  destruct (blocks_flip i k ct Hi) as (xs1 & x & xs2 & m & Hm & E1 & E2).
  rewrite E1, E2, <- !app_assoc in E. cbn [app] in E.
  unfold GHASH in E.
  apply N_to_bytes_16_injective in E;
    [| exact (lxor_lt_pow2 _ _ 128 (encrypt_block_bound key (J0 key ivb))
                (ghash_bound gf128_mul gf128_mul_galois (hash_subkey key) _ Hb))
     | exact (lxor_lt_pow2 _ _ 128 (encrypt_block_bound key (J0 key ivb))
                (ghash_bound gf128_mul gf128_mul_galois (hash_subkey key) _ Hb))].
  apply (f_equal (N.lxor (AES.encrypt_block key (J0 key ivb)))) in E.
  rewrite <- !N.lxor_assoc, N.lxor_nilpotent, !N.lxor_0_l in E.
  exact (ghash_single_bit gf128_mul gf128_mul_galois (hash_subkey key) xs1 x m
           (xs2 ++ [bit_length ct]) Hb Hh Hm E).
Qed.

(** With a zero hash subkey every ciphertext has the same tag. *)
Lemma auth_tag_weak_key (key ivb ct ct' : bytes) :
  hash_subkey key = 0 -> auth_tag key ivb ct = auth_tag key ivb ct'.
Proof.
  intros Hh. unfold auth_tag, GHASH. rewrite Hh.
  now rewrite !(ghash_zero_key gf128_mul gf128_mul_galois).
Qed.

End GF128.

(** ** Text encodings *)

Lemma sextet_char_legal (s : sextet) :
  unbase64 (sextet_char s) = Some (sextet_index s).
Proof. destruct s as [[[[[[] []] []] []] []] []]; reflexivity. Qed.

Lemma sextet_index_inverse (s : sextet) : sextet_of_index (sextet_index s) = s.
Proof. destruct s as [[[[[[] []] []] []] []] []]; reflexivity. Qed.

Lemma legal_sextets_char (s : sextet) (rest : jsstring) :
  legal_sextets (sextet_char s :: rest) = s :: legal_sextets rest.
Proof. cbn [legal_sextets]. now rewrite sextet_char_legal, sextet_index_inverse. Qed.

Lemma legal_sextets_pad (rest : jsstring) : legal_sextets (pad_char :: rest) = [].
Proof. reflexivity. Qed.

Lemma decode_encode3 (a b c : byte) :
  let '(s1, s2, s3, s4) := encode3 a b c in
  byte1 s1 s2 = a /\ byte2 s2 s3 = b /\ byte3 s3 s4 = c.
Proof.
  unfold encode3.
  destruct (Byte.to_bits a) as [a0 [a1 [a2 [a3 [a4 [a5 [a6 a7]]]]]]] eqn:Ea.
  destruct (Byte.to_bits b) as [b0 [b1 [b2 [b3 [b4 [b5 [b6 b7]]]]]]] eqn:Eb.
  destruct (Byte.to_bits c) as [c0 [c1 [c2 [c3 [c4 [c5 [c6 c7]]]]]]] eqn:Ec.
  unfold byte1, byte2, byte3. rewrite <- Ea, <- Eb, <- Ec, !Byte.of_bits_to_bits. auto.
Qed.

Lemma base64_roundtrip_bounded (n : nat) (b : bytes) :
  length b <= n -> base64_decode (base64_encode b) = b.
Proof.
  unfold base64_decode. revert b.
  induction n as [|n IH]; intros b Hn.
  - destruct b; [reflexivity | cbn in Hn; lia].
  - destruct b as [|a0 [|a1 [|a2 rest]]]; [reflexivity | | |].
    + cbn [base64_encode].
      pose proof (decode_encode3 a0 x00 x00) as H.
      destruct (encode3 a0 x00 x00) as [[[s1 s2] s3] s4]. destruct H as (H1 & _).
      rewrite !legal_sextets_char, legal_sextets_pad. cbn. now rewrite H1.
    + cbn [base64_encode].
      pose proof (decode_encode3 a0 a1 x00) as H.
      destruct (encode3 a0 a1 x00) as [[[s1 s2] s3] s4]. destruct H as (H1 & H2 & _).
      rewrite !legal_sextets_char, legal_sextets_pad. cbn. now rewrite H1, H2.
    + cbn [base64_encode].
      pose proof (decode_encode3 a0 a1 a2) as H.
      destruct (encode3 a0 a1 a2) as [[[s1 s2] s3] s4]. destruct H as (H1 & H2 & H3).
      rewrite !legal_sextets_char. cbn [decode_groups].
      rewrite H1, H2, H3, IH by (cbn in Hn; lia). reflexivity.
Qed.

(** [Buffer.from(buf.toString("base64"), "base64")] gives [buf] back. *)
Lemma base64_roundtrip (b : bytes) : base64_decode (base64_encode b) = b.
Proof. apply (base64_roundtrip_bounded (length b)). lia. Qed.

(** A string of ASCII characters is encoded one byte per character. *)
Lemma utf8_ascii (s : jsstring) : is_ascii s -> utf8 s = map byte_of_N s.
Proof.
  induction 1 as [|c s Hc Hs IH]; [reflexivity|].
  cbn [utf8 map].
  assert (Hh : is_high_surrogate c = false).
  { unfold is_high_surrogate. apply andb_false_iff. left. apply N.leb_gt. lia. }
  assert (Hl : is_low_surrogate c = false).
  { unfold is_low_surrogate. apply andb_false_iff. left. apply N.leb_gt. lia. }
  rewrite Hh, Hl, IH. unfold utf8_code_point.
  apply N.ltb_lt in Hc. now rewrite Hc.
Qed.

Lemma utf8_ascii_length (s : jsstring) : is_ascii s -> length (utf8 s) = length s.
Proof. intros H. now rewrite utf8_ascii, length_map. Qed.

Lemma utf8_code_point_nonempty (c : N) : utf8_code_point c <> [].
Proof.
  unfold utf8_code_point.
  destruct (c <? 128)%N; [discriminate|].
  destruct (c <? 2048)%N; [discriminate|].
  destruct (c <? 65536)%N; discriminate.
Qed.

(** A non-empty string has a non-empty encoding. *)
Lemma utf8_nonempty (c : char16) (s : jsstring) : (length (utf8 (c :: s)) =? 0) = false.
Proof.
  assert (Hcp : forall p, 0 < length (utf8_code_point p)).
  { intros p. pose proof (utf8_code_point_nonempty p) as H.
    destruct (utf8_code_point p); [congruence | cbn [length]; lia]. }
  assert (Hr : length replacement = 3) by reflexivity.
  apply Nat.eqb_neq. cbn [utf8].
  destruct (is_high_surrogate c).
  - destruct s as [|l s']; [rewrite Hr; lia|].
    destruct (is_low_surrogate l); rewrite length_app.
    + specialize (Hcp (65536 + (c - 55296) * 1024 + (l - 56320))%N). lia.
    + lia.
  - destruct (is_low_surrogate c); rewrite length_app.
    + lia.
    + specialize (Hcp c). lia.
Qed.

Lemma hex_digit_ascii (n : N) : (n < 16)%N -> (hex_digit n < 128)%N.
Proof. unfold hex_digit. intros H. destruct (n <? 10)%N; lia. Qed.

Lemma hex_encode_ascii (b : bytes) : is_ascii (hex_encode b).
Proof.
  unfold is_ascii, hex_encode. induction b as [|x b IH]; cbn; [constructor|].
  pose proof (Byte.to_N_bounded x) as Hx.
  constructor; [|constructor; [|exact IH]]; apply hex_digit_ascii.
  - apply N.Div0.div_lt_upper_bound. lia.
  - apply N.mod_lt. lia.
Qed.

Lemma hex_encode_length (b : bytes) : length (hex_encode b) = 2 * length b.
Proof.
  unfold hex_encode.
  rewrite (flat_map_length_const _ 2) by reflexivity. reflexivity.
Qed.

Lemma is_ascii_firstn (n : nat) (s : jsstring) : is_ascii s -> is_ascii (firstn n s).
Proof.
  unfold is_ascii. intros H. revert n.
  induction H as [|c s Hc Hs IH]; intros [|n]; cbn [firstn]; constructor; auto.
Qed.

(** The generated nonce: six hexadecimal digits, six bytes. *)
Lemma next_nonce_length (w : world) : length (next_nonce w) = 6.
Proof.
  unfold next_nonce, slice0, ivLength.
  rewrite length_firstn, hex_encode_length, length_map, length_seq. reflexivity.
Qed.

Lemma next_nonce_ascii (w : world) : is_ascii (next_nonce w).
Proof. apply is_ascii_firstn, hex_encode_ascii. Qed.

Lemma next_nonce_bytes (w : world) : length (utf8 (next_nonce w)) = 6.
Proof. now rewrite utf8_ascii_length, next_nonce_length by apply next_nonce_ascii. Qed.

(** ** The class, method by method *)

Lemma bind_return {A B} (m : M A) (k : A -> M B) w a w' :
  m w = (Return a, w') -> bind m k w = k a w'.
Proof. unfold bind. now intros ->. Qed.

Lemma bind_throw {A B} (m : M A) (k : A -> M B) w e w' :
  m w = (Throw e, w') -> bind m k w = (Throw e, w').
Proof. unfold bind. now intros ->. Qed.

Lemma logged_logged w cs cs' : logged (logged w cs) cs' = logged w (cs ++ cs').
Proof. unfold logged. cbn. now rewrite <- app_assoc. Qed.

Lemma advance_logged w n cs cs' : logged (advance w n cs) cs' = advance w n (cs ++ cs').
Proof. unfold logged, advance. cbn. now rewrite <- app_assoc. Qed.

Lemma randomBytes_run n w :
  randomBytes n w = (Return (map (entropy w) (seq (cursor w) n)), advance w n [RandomBytes n]).
Proof. reflexivity. Qed.

Lemma generateRandomString_run w :
  generateRandomString w = (Return (next_nonce w), advance w 6 [RandomBytes 6]).
Proof. reflexivity. Qed.

Lemma createCipheriv_run key iv w :
  length key = 32 -> (length iv =? 0) = false ->
  createCipheriv algorithm key iv w
  = (Return {| cipher_key := key; cipher_iv := iv; cipher_out := []; cipher_finished := false |},
     logged w [CreateCipheriv]).
Proof.
  intros Hk Hi. unfold createCipheriv.
  rewrite (bind_return _ _ w tt (logged w [CreateCipheriv])) by reflexivity.
  change (String.eqb algorithm "aes-256-gcm") with true. cbn [negb].
  now rewrite Hi, Hk.
Qed.

Lemma cipher_update_run c data w :
  cipher_update c data w
  = (Return (xor_bytes data (keystream_at (cipher_key c) (cipher_iv c) (length (cipher_out c)) (length data)),
             {| cipher_key := cipher_key c; cipher_iv := cipher_iv c;
                cipher_out := cipher_out c
                  ++ xor_bytes data (keystream_at (cipher_key c) (cipher_iv c) (length (cipher_out c)) (length data));
                cipher_finished := cipher_finished c |}),
     logged w [CipherUpdate]).
Proof. reflexivity. Qed.

Lemma cipher_final_run c w :
  cipher_final c w
  = (Return ([], {| cipher_key := cipher_key c; cipher_iv := cipher_iv c;
                    cipher_out := cipher_out c; cipher_finished := true |}),
     logged w [CipherFinal]).
Proof. reflexivity. Qed.

Lemma getAuthTag_run c w :
  cipher_finished c = true ->
  getAuthTag c w
  = (Return (GCM.auth_tag (cipher_key c) (cipher_iv c) (cipher_out c)), logged w [GetAuthTag]).
Proof.
  intros Hf. unfold getAuthTag.
  rewrite (bind_return _ _ w tt (logged w [GetAuthTag])) by reflexivity.
  now rewrite Hf.
Qed.

(** The cipher part of [encrypt], once the nonce string is chosen. *)
Lemma encrypt_body data key ivs w :
  length key = 32 -> (length (utf8 ivs) =? 0) = false ->
  (cipher <- createCipheriv algorithm key (utf8 ivs) ;;
   '(part1, cipher) <- cipher_update cipher (toBuffer data) ;;
   '(part2, cipher) <- cipher_final cipher ;;
   authTag <- getAuthTag cipher ;;
   ret {| encrypted := part1 ++ part2; iv := ivs; authTag := authTag |})%node w
  = (Return (seal key ivs data), logged w encrypt_calls).
Proof.
  intros Hk Hi.
  erewrite bind_return by (apply createCipheriv_run; assumption). cbv beta.
  erewrite bind_return by apply cipher_update_run. cbv beta iota.
  erewrite bind_return by apply cipher_final_run. cbv beta iota.
  erewrite bind_return by (apply getAuthTag_run; reflexivity). cbv beta.
  cbn [cipher_key cipher_iv cipher_out length app].
  rewrite keystream_at_0, app_nil_r.
  rewrite !logged_logged. reflexivity.
Qed.

Lemma key_check (key : bytes) :
  length key = 32 -> negb (length key =? keyLength) = false.
Proof. intros ->. reflexivity. Qed.

Lemma key_check_fails (key : bytes) :
  length key <> 32 -> negb (length key =? keyLength) = true.
Proof. intros H. apply negb_true_iff, Nat.eqb_neq. exact H. Qed.

(** [encrypt] without a usable fixed nonce draws one and seals under it. *)
Lemma encrypt_generated data key fixedIv w :
  length key = 32 -> truthy fixedIv = false ->
  encrypt data key fixedIv w
  = (Return (seal key (next_nonce w) data), advance w 6 (RandomBytes 6 :: encrypt_calls)).
Proof.
  intros Hk Hf. unfold encrypt.
  rewrite (key_check _ Hk), Hf. cbn [andb].
  erewrite bind_return by apply generateRandomString_run. cbv beta.
  rewrite encrypt_body; [| assumption | now rewrite next_nonce_bytes].
  now rewrite advance_logged.
Qed.

(** [encrypt] with a fixed nonce of six characters seals under it and reads
    no entropy. *)
Lemma encrypt_fixed data key ivs w :
  length key = 32 -> length ivs = 6 ->
  encrypt data key (Some ivs) w = (Return (seal key ivs data), logged w encrypt_calls).
Proof.
  intros Hk Hi. unfold encrypt.
  destruct ivs as [|c ivs]; [discriminate|].
  rewrite (key_check _ Hk). cbn [truthy chars andb].
  erewrite bind_return by reflexivity. cbv beta.
  unfold ivLength. rewrite Hi. cbn [Nat.eqb negb].
  apply encrypt_body; [assumption | apply utf8_nonempty].
Qed.

(** A non-empty fixed nonce of another length is refused on the spot. *)
Lemma encrypt_wrong_nonce data key ivs w :
  length key = 32 -> ivs <> [] -> length ivs <> 6 ->
  encrypt data key (Some ivs) w = (Throw InvalidNonceLength, w).
Proof.
  intros Hk Hne Hi. unfold encrypt.
  destruct ivs as [|c ivs]; [congruence|].
  rewrite (key_check _ Hk). cbn [truthy chars andb].
  erewrite bind_return by reflexivity. cbv beta.
  apply Nat.eqb_neq in Hi. unfold ivLength. rewrite Hi. reflexivity.
Qed.

Lemma encrypt_bad_key data key fixedIv w :
  length key <> 32 -> encrypt data key fixedIv w = (Throw InvalidKeyLength, w).
Proof. intros Hk. unfold encrypt. now rewrite (key_check_fails _ Hk). Qed.

Lemma createDecipheriv_run key ivb w :
  length key = 32 -> (length ivb =? 0) = false ->
  createDecipheriv algorithm key ivb w
  = (Return {| decipher_key := key; decipher_iv := ivb; decipher_tag := None; decipher_in := [] |},
     logged w [CreateDecipheriv]).
Proof.
  intros Hk Hi. unfold createDecipheriv.
  rewrite (bind_return _ _ w tt (logged w [CreateDecipheriv])) by reflexivity.
  change (String.eqb algorithm "aes-256-gcm") with true. cbn [negb].
  now rewrite Hi, Hk.
Qed.

Lemma createDecipheriv_empty key ivb w :
  (length ivb =? 0) = true ->
  createDecipheriv algorithm key ivb w
  = (Throw (CryptoError ERR_CRYPTO_INVALID_IV), logged w [CreateDecipheriv]).
Proof.
  intros Hi. unfold createDecipheriv.
  rewrite (bind_return _ _ w tt (logged w [CreateDecipheriv])) by reflexivity.
  change (String.eqb algorithm "aes-256-gcm") with true. cbn [negb].
  now rewrite Hi.
Qed.

Lemma setAuthTag_run d tag w :
  valid_tag_length (length tag) = true ->
  setAuthTag d tag w
  = (Return {| decipher_key := decipher_key d; decipher_iv := decipher_iv d;
               decipher_tag := Some tag; decipher_in := decipher_in d |},
     logged w [SetAuthTag]).
Proof.
  intros Ht. unfold setAuthTag.
  rewrite (bind_return _ _ w tt (logged w [SetAuthTag])) by reflexivity.
  now rewrite Ht.
Qed.

Lemma setAuthTag_refused d tag w :
  valid_tag_length (length tag) = false ->
  setAuthTag d tag w
  = (Throw (CryptoError (ERR_CRYPTO_INVALID_AUTH_TAG (length tag))), logged w [SetAuthTag]).
Proof.
  intros Ht. unfold setAuthTag.
  rewrite (bind_return _ _ w tt (logged w [SetAuthTag])) by reflexivity.
  now rewrite Ht.
Qed.

Lemma decipher_update_run d data w :
  decipher_update d data w
  = (Return (xor_bytes data (keystream_at (decipher_key d) (decipher_iv d) (length (decipher_in d)) (length data)),
             {| decipher_key := decipher_key d; decipher_iv := decipher_iv d;
                decipher_tag := decipher_tag d; decipher_in := decipher_in d ++ data |}),
     logged w [DecipherUpdate]).
Proof. reflexivity. Qed.

Lemma decipher_final_run d tag w :
  decipher_tag d = Some tag ->
  decipher_final d w
  = (if tag_matches (decipher_key d) (decipher_iv d) (decipher_in d) tag
     then Return [] else Throw (CryptoError ERR_UNABLE_TO_AUTHENTICATE),
     logged w [DecipherFinal]).
Proof.
  intros Ht. unfold decipher_final.
  rewrite (bind_return _ _ w tt (logged w [DecipherFinal])) by reflexivity.
  rewrite Ht. unfold tag_matches.
  destruct (bytes_eqb _ _); reflexivity.
Qed.

Lemma decrypt_bad_key ct key iv tag w :
  length key <> 32 -> decrypt ct key iv tag w = (Throw InvalidKeyLength, w).
Proof. intros Hk. unfold decrypt. now rewrite (key_check_fails _ Hk). Qed.

(** An empty nonce: [createDecipheriv] throws, outside the [try]. *)
Lemma decrypt_empty_iv ct key iv tag w :
  length key = 32 -> toBuffer iv = [] ->
  decrypt ct key iv tag w
  = (Throw (CryptoError ERR_CRYPTO_INVALID_IV), logged w [CreateDecipheriv]).
Proof.
  intros Hk Hi. unfold decrypt. rewrite (key_check _ Hk), Hi.
  erewrite bind_throw by (apply createDecipheriv_empty; reflexivity). reflexivity.
Qed.

(** A tag of a length [setAuthTag] refuses: it throws, outside the [try]. *)
Lemma decrypt_bad_tag_length ct key iv tag w :
  length key = 32 -> toBuffer iv <> [] -> valid_tag_length (length tag) = false ->
  decrypt ct key iv tag w
  = (Throw (CryptoError (ERR_CRYPTO_INVALID_AUTH_TAG (length tag))),
     logged w [CreateDecipheriv; SetAuthTag]).
Proof.
  intros Hk Hi Ht. unfold decrypt. rewrite (key_check _ Hk).
  assert (Hi' : (length (toBuffer iv) =? 0) = false).
  { apply Nat.eqb_neq. destruct (toBuffer iv); [congruence | cbn; lia]. }
  erewrite bind_return by (apply createDecipheriv_run; assumption). cbv beta.
  erewrite bind_throw by (apply setAuthTag_refused; assumption).
  now rewrite logged_logged.
Qed.

(** Otherwise the tag decides: the plaintext, or the error of the [catch]. *)
Lemma decrypt_run ct key iv tag w :
  length key = 32 -> toBuffer iv <> [] -> valid_tag_length (length tag) = true ->
  decrypt ct key iv tag w
  = (if tag_matches key (toBuffer iv) ct tag
     then Return (open_ct key (toBuffer iv) ct)
     else Throw AuthenticationFailed,
     logged w decrypt_calls).
Proof.
  intros Hk Hi Ht. unfold decrypt. rewrite (key_check _ Hk).
  assert (Hi' : (length (toBuffer iv) =? 0) = false).
  { apply Nat.eqb_neq. destruct (toBuffer iv); [congruence | cbn; lia]. }
  erewrite bind_return by (apply createDecipheriv_run; assumption). cbv beta.
  erewrite bind_return by (apply setAuthTag_run; assumption). cbv beta.
  unfold try_catch.
  erewrite bind_return by apply decipher_update_run. cbv beta iota.
  cbn [decipher_key decipher_iv decipher_tag decipher_in length app].
  rewrite keystream_at_0.
  destruct (tag_matches key (toBuffer iv) ct tag) eqn:Hm.
  - erewrite bind_return
      by (rewrite (decipher_final_run _ tag) by reflexivity;
          cbn [decipher_key decipher_iv decipher_in]; rewrite Hm; reflexivity).
    cbv beta. unfold ret. rewrite app_nil_r, !logged_logged. reflexivity.
  - erewrite bind_throw
      by (rewrite (decipher_final_run _ tag) by reflexivity;
          cbn [decipher_key decipher_iv decipher_in]; rewrite Hm; reflexivity).
    unfold throw. rewrite !logged_logged. reflexivity.
Qed.

(** *** The buffer and text layers *)

Lemma encryptToBuffer_run data key fixedIv w r w' :
  encrypt data key fixedIv w = (Return r, w') ->
  encryptToBuffer data key fixedIv w = (Return (utf8 (iv r) ++ authTag r ++ encrypted r), w').
Proof. intros H. unfold encryptToBuffer. erewrite bind_return by exact H. reflexivity. Qed.

Lemma encryptToBuffer_throw data key fixedIv w e w' :
  encrypt data key fixedIv w = (Throw e, w') ->
  encryptToBuffer data key fixedIv w = (Throw e, w').
Proof. intros H. unfold encryptToBuffer. erewrite bind_throw by exact H. reflexivity. Qed.

Lemma encryptToString_run data key fixedIv w r w' :
  encrypt data key fixedIv w = (Return r, w') ->
  encryptToString data key fixedIv w
  = (Return (base64_encode (utf8 (iv r) ++ authTag r ++ encrypted r)), w').
Proof.
  intros H. unfold encryptToString.
  erewrite bind_return by (apply encryptToBuffer_run; exact H). reflexivity.
Qed.

Lemma encryptToString_throw data key fixedIv w e w' :
  encrypt data key fixedIv w = (Throw e, w') ->
  encryptToString data key fixedIv w = (Throw e, w').
Proof.
  intros H. unfold encryptToString.
  erewrite bind_throw by (apply encryptToBuffer_throw; exact H). reflexivity.
Qed.

Lemma firstn_app_exact {A} (n : nat) (l1 l2 : list A) :
  length l1 = n -> firstn n (l1 ++ l2) = l1.
Proof.
  intros <-. rewrite firstn_app, Nat.sub_diag, firstn_all. cbn [firstn]. apply app_nil_r.
Qed.

Lemma skipn_app_exact {A} (n : nat) (l1 l2 : list A) :
  length l1 = n -> skipn n (l1 ++ l2) = l2.
Proof.
  intros <-. rewrite skipn_app, Nat.sub_diag, skipn_all. reflexivity.
Qed.

(** The three slices of a blob [nonce ++ tag ++ ciphertext] whose nonce
    has 6 bytes and whose tag has 16. *)
Lemma blob_slices (ivb tag ct : bytes) :
  length ivb = 6 -> length tag = 16 ->
  subarray (ivb ++ tag ++ ct) 0 ivLength = ivb
  /\ subarray (ivb ++ tag ++ ct) ivLength (ivLength + authTagLength) = tag
  /\ subarray_from (ivb ++ tag ++ ct) (ivLength + authTagLength) = ct.
Proof.
  intros Hi Ht. unfold subarray, subarray_from, ivLength, authTagLength.
  repeat split.
  - change (6 - 0) with 6. change (skipn 0 (ivb ++ tag ++ ct)) with (ivb ++ tag ++ ct).
    now apply firstn_app_exact.
  - rewrite (skipn_app_exact 6) by assumption.
    change (6 + 16 - 6) with 16. now apply firstn_app_exact.
  - change (6 + 16) with 22. rewrite app_assoc.
    apply skipn_app_exact. rewrite length_app. lia.
Qed.

(** Sealing and opening under one key and one nonce. *)
Lemma decrypt_seal key ivs ivx data w :
  length key = 32 -> utf8 ivs <> [] -> toBuffer ivx = utf8 ivs ->
  decrypt (encrypted (seal key ivs data)) key ivx (authTag (seal key ivs data)) w
  = (Return (toBuffer data), logged w decrypt_calls).
Proof.
  intros Hk Hi Hx. cbn [seal encrypted authTag].
  rewrite decrypt_run; [| assumption | now rewrite Hx | now rewrite auth_tag_length].
  rewrite Hx. unfold tag_matches.
  rewrite firstn_all, bytes_eqb_refl.
  unfold open_ct. now rewrite seal_ct_open.
Qed.

Lemma decryptFromBuffer_seal key ivs data w :
  length key = 32 -> length (utf8 ivs) = 6 ->
  decryptFromBuffer
    (utf8 ivs ++ authTag (seal key ivs data) ++ encrypted (seal key ivs data)) key w
  = (Return (toBuffer data), logged w decrypt_calls).
Proof.
  intros Hk Hi. unfold decryptFromBuffer.
  destruct (blob_slices (utf8 ivs) (authTag (seal key ivs data)) (encrypted (seal key ivs data)))
    as (-> & -> & ->); [assumption | apply auth_tag_length |].
  apply decrypt_seal; [assumption | | reflexivity].
  intros E. rewrite E in Hi. discriminate.
Qed.

(** ** The claims *)

(** C1 (round trip).  For every plaintext, given as a string or as a
    buffer and possibly empty, and every 32-byte key, [encrypt] succeeds and
    [decrypt] applied to the ciphertext, nonce and tag it returned gives the
    plaintext bytes back; [encryptToBuffer] succeeds and
    [decryptFromBuffer] applied to its blob gives them back; and
    [encryptToString] succeeds and [decryptFromString] applied to its text
    gives them back.  This holds whatever the entropy source yields and in
    whatever state the decrypting call is made. *)
Theorem C1_roundtrip (data : StringOrBuffer) (key : bytes) (w : world) :
  length key = 32 ->
  (exists r w1,
      encrypt data key None w = (Return r, w1)
      /\ forall w2, fst (decrypt (encrypted r) key (Str (iv r)) (authTag r) w2)
                    = Return (toBuffer data))
  /\ (exists blob w1,
         encryptToBuffer data key None w = (Return blob, w1)
         /\ forall w2, fst (decryptFromBuffer blob key w2) = Return (toBuffer data))
  /\ (exists text w1,
         encryptToString data key None w = (Return text, w1)
         /\ forall w2, fst (decryptFromString text key w2) = Return (toBuffer data)).
Proof.
  intros Hk.
  pose proof (encrypt_generated data key None w Hk eq_refl) as He.
  pose proof (next_nonce_bytes w) as Hn.
  repeat split.
  - eexists _, _. split; [exact He|]. intros w2.
    rewrite decrypt_seal; [reflexivity | assumption | | reflexivity].
    intros E. rewrite E in Hn. discriminate.
  - eexists _, _. split; [apply encryptToBuffer_run; exact He|]. intros w2.
    cbn [iv seal]. rewrite decryptFromBuffer_seal; [reflexivity | assumption | assumption].
  - eexists _, _. split; [apply encryptToString_run; exact He|]. intros w2.
    unfold decryptFromString. rewrite base64_roundtrip.
    cbn [iv seal]. rewrite decryptFromBuffer_seal; [reflexivity | assumption | assumption].
Qed.

(** C6 (key length).  With a key that is not 32 bytes long, [encrypt] and
    [decrypt] both fail with [InvalidKeyLength], and they leave the world
    as it was: no call into [crypto] is logged (no cipher or decipher is
    created, nothing is encrypted or decrypted) and no entropy is read. *)
Theorem C6_key_length_checked_first
  (data : StringOrBuffer) (fixedIv : option jsstring)
  (ct : bytes) (nonce : StringOrBuffer) (tag : bytes) (key : bytes) (w : world) :
  length key <> 32 ->
  encrypt data key fixedIv w = (Throw InvalidKeyLength, w)
  /\ decrypt ct key nonce tag w = (Throw InvalidKeyLength, w).
Proof.
  intros Hk. split; [apply encrypt_bad_key | apply decrypt_bad_key]; exact Hk.
Qed.

(** C7 (blob layout).  For every plaintext and 32-byte key,
    [encryptToBuffer] returns a blob of [22 + len] bytes, [len] being the
    number of plaintext bytes; bytes [0, 6) are the nonce that [encrypt]
    used and returned, bytes [6, 22) are its tag, and the rest is its
    ciphertext. *)
Theorem C7_blob_layout (data : StringOrBuffer) (key : bytes) (w : world) :
  length key = 32 ->
  exists r blob w1,
    encrypt data key None w = (Return r, w1)
    /\ encryptToBuffer data key None w = (Return blob, w1)
    /\ length blob = 22 + length (toBuffer data)
    /\ subarray blob 0 6 = utf8 (iv r)
    /\ subarray blob 6 22 = authTag r
    /\ subarray_from blob 22 = encrypted r.
Proof.
  intros Hk.
  pose proof (encrypt_generated data key None w Hk eq_refl) as He.
  pose proof (next_nonce_bytes w) as Hn.
  eexists _, _, _. split; [exact He|]. split; [apply encryptToBuffer_run; exact He|].
  cbn [iv seal encrypted authTag].
  split.
  - rewrite !length_app, Hn, auth_tag_length, seal_ct_length. lia.
  - apply (blob_slices (utf8 (next_nonce w))); [assumption | apply auth_tag_length].
Qed.

(** C8 (determinism).  With a 32-byte key and a fixed nonce of six
    characters, [encrypt] succeeds, and two calls with the same plaintext,
    key and nonce return the same ciphertext and the same tag, in whatever
    states the two calls are made. *)
Theorem C8_fixed_nonce_deterministic
  (data : StringOrBuffer) (key : bytes) (nonce : jsstring) (w1 w2 : world) :
  length key = 32 -> length nonce = 6 ->
  exists r1 r2,
    fst (encrypt data key (Some nonce) w1) = Return r1
    /\ fst (encrypt data key (Some nonce) w2) = Return r2
    /\ encrypted r1 = encrypted r2
    /\ authTag r1 = authTag r2
    /\ iv r1 = nonce /\ iv r2 = nonce.
Proof.
  intros Hk Hn. exists (seal key nonce data), (seal key nonce data).
  rewrite !encrypt_fixed by assumption. repeat split.
Qed.

(** C9 (lengths).  For every plaintext and 32-byte key, [encrypt]
    succeeds, its ciphertext has exactly as many bytes as the plaintext and
    its tag has 16 bytes; and the same lengths hold for whatever [encrypt]
    returns when it is given a fixed nonce. *)
Theorem C9_lengths (data : StringOrBuffer) (key : bytes) (w : world) :
  length key = 32 ->
  (exists r w1,
      encrypt data key None w = (Return r, w1)
      /\ length (encrypted r) = length (toBuffer data)
      /\ length (authTag r) = 16)
  /\ (forall fixedIv r w1,
         encrypt data key fixedIv w = (Return r, w1) ->
         length (encrypted r) = length (toBuffer data) /\ length (authTag r) = 16).
Proof.
  intros Hk.
  assert (Hs : forall ivs, length (encrypted (seal key ivs data)) = length (toBuffer data)
                           /\ length (authTag (seal key ivs data)) = 16).
  { intros ivs. cbn [seal encrypted authTag]. now rewrite seal_ct_length, auth_tag_length. }
  split.
  - eexists _, _. split; [apply (encrypt_generated data key None w Hk eq_refl)|]. apply Hs.
  - intros fixedIv r w1 He.
    destruct (truthy fixedIv) eqn:Ht.
    + destruct fixedIv as [[|c s]|]; try discriminate Ht.
      destruct (Nat.eq_dec (length (c :: s)) 6) as [H6|H6].
      * rewrite encrypt_fixed in He by assumption. injection He as <- _. apply Hs.
      * rewrite encrypt_wrong_nonce in He by (assumption || discriminate). discriminate He.
    + rewrite encrypt_generated in He by assumption. injection He as <- _. apply Hs.
Qed.

(** C10 (empty fixed nonce).  Called with the empty string as fixed nonce
    and a 32-byte key, [encrypt] does exactly what it does without a fixed
    nonce: it draws six bytes of entropy, takes the first six hexadecimal
    digits of them as the nonce, and succeeds with the ciphertext and tag
    under that nonce.  It does not fail with [InvalidNonceLength]. *)
Theorem C10_empty_nonce_is_absent (data : StringOrBuffer) (key : bytes) (w : world) :
  length key = 32 ->
  encrypt data key (Some []) w = encrypt data key None w
  /\ encrypt data key (Some []) w
     = (Return (seal key (next_nonce w) data), advance w 6 (RandomBytes 6 :: encrypt_calls))
  /\ generateRandomString w = (Return (next_nonce w), advance w 6 [RandomBytes 6])
  /\ length (next_nonce w) = 6
  /\ fst (encrypt data key (Some []) w) <> Throw InvalidNonceLength.
Proof.
  intros Hk.
  rewrite !(encrypt_generated data key _ w Hk) by reflexivity.
  split; [reflexivity|]. split; [reflexivity|]. split; [reflexivity|].
  split; [apply next_nonce_length | discriminate].
Qed.

(** Whatever its arguments, [decrypt] returns a plaintext or fails in one of
    three ways: its own key check, the error of its [catch], or an exception
    of [crypto] raised before the [try]. *)
Lemma decrypt_outcome ct key nonce tag w :
  (exists pt, fst (decrypt ct key nonce tag w) = Return pt)
  \/ fst (decrypt ct key nonce tag w) = Throw InvalidKeyLength
  \/ fst (decrypt ct key nonce tag w) = Throw AuthenticationFailed
  \/ exists e, fst (decrypt ct key nonce tag w) = Throw (CryptoError e).
Proof.
  destruct (Nat.eq_dec (length key) 32) as [Hk|Hk].
  - destruct (toBuffer nonce) as [|b ivb] eqn:Hi.
    + rewrite decrypt_empty_iv by assumption. right; right; right. eexists. reflexivity.
    + assert (Hne : toBuffer nonce <> []) by (rewrite Hi; discriminate).
      destruct (valid_tag_length (length tag)) eqn:Ht.
      * rewrite decrypt_run by assumption.
        destruct (tag_matches _ _ _ _); cbn [fst]; [left; eexists; reflexivity | auto].
      * rewrite decrypt_bad_tag_length by assumption.
        right; right; right. eexists. reflexivity.
  - rewrite decrypt_bad_key by assumption. auto.
Qed.

(** The first call of [decrypt] under a 32-byte key is [createDecipheriv]. *)
Lemma decrypt_creates_decipher ct key nonce tag w :
  length key = 32 ->
  exists cs, calls (snd (decrypt ct key nonce tag w)) = calls w ++ CreateDecipheriv :: cs.
Proof.
  intros Hk.
  destruct (toBuffer nonce) as [|b ivb] eqn:Hi.
  - rewrite decrypt_empty_iv by assumption. eexists. reflexivity.
  - assert (Hne : toBuffer nonce <> []) by (rewrite Hi; discriminate).
    destruct (valid_tag_length (length tag)) eqn:Ht.
    + rewrite decrypt_run by assumption. eexists. reflexivity.
    + rewrite decrypt_bad_tag_length by assumption. eexists. reflexivity.
Qed.

(** The slices of a blob shorter than 22 bytes: up to six bytes of nonce,
    what is left as tag, no ciphertext. *)
Lemma short_blob_slices (blob : bytes) :
  length blob < 22 ->
  subarray blob 0 ivLength = firstn 6 blob
  /\ subarray blob ivLength (ivLength + authTagLength) = skipn 6 blob
  /\ subarray_from blob (ivLength + authTagLength) = [].
Proof.
  intros Hl. unfold subarray, subarray_from, ivLength, authTagLength.
  repeat split.
  - change (6 + 16 - 6) with 16. apply firstn_all2. rewrite length_skipn. lia.
  - apply skipn_all2. cbn. lia.
Qed.

(** C5 as stated fails on the empty string: it is a fixed nonce whose
    length is not 6, and [encrypt] does not fail; it replaces it by a
    generated nonce. *)
Lemma C5_counterexample :
  length Vectors.zero_key = 32
  /\ length (@nil char16) <> 6
  /\ encrypt (Str (js "hello")) Vectors.zero_key (Some []) Vectors.w0
     = (Return {| encrypted := Vectors.hex "78cf4dc0a8";
                  iv := js "a1a8af";
                  authTag := Vectors.hex "244f956503b562810299c689872313a0" |},
        advance Vectors.w0 6 (RandomBytes 6 :: encrypt_calls))
  /\ fst (encrypt (Str (js "hello")) Vectors.zero_key (Some []) Vectors.w0)
     <> Throw InvalidNonceLength.
Proof.
  split; [reflexivity|]. split; [discriminate|].
  assert (E : encrypt (Str (js "hello")) Vectors.zero_key (Some []) Vectors.w0
     = (Return {| encrypted := Vectors.hex "78cf4dc0a8";
                  iv := js "a1a8af";
                  authTag := Vectors.hex "244f956503b562810299c689872313a0" |},
        advance Vectors.w0 6 (RandomBytes 6 :: encrypt_calls))) by (vm_compute; reflexivity).
  split; [exact E | rewrite E; discriminate].
Qed.

(** C5, amended.  With a 32-byte key, every non-empty fixed nonce whose
    length is not six characters makes [encrypt], [encryptToBuffer] and
    [encryptToString] fail with [InvalidNonceLength]; the world is left as
    it was, so no nonce is generated in its place and no cipher is created
    with a truncated or padded one. *)
Theorem C5_wrong_length_nonce_refused
  (data : StringOrBuffer) (key : bytes) (nonce : jsstring) (w : world) :
  length key = 32 -> nonce <> [] -> length nonce <> 6 ->
  encrypt data key (Some nonce) w = (Throw InvalidNonceLength, w)
  /\ encryptToBuffer data key (Some nonce) w = (Throw InvalidNonceLength, w)
  /\ encryptToString data key (Some nonce) w = (Throw InvalidNonceLength, w).
Proof.
  intros Hk Hne Hl.
  pose proof (encrypt_wrong_nonce data key nonce w Hk Hne Hl) as He.
  split; [exact He|]. split.
  - apply encryptToBuffer_throw, He.
  - apply encryptToString_throw, He.
Qed.

(** C3 as stated fails: the class has no length check.  On the empty blob
    the failure is the invalid-nonce exception of [createDecipheriv], which
    has been called; on a blob of ten bytes, a nonce and the first four
    bytes of the tag of the empty plaintext, the decipher runs and the call
    returns the empty plaintext. *)
Lemma C3_counterexample :
  length (@nil byte) < 22
  /\ length (utf8 (js "abcdef") ++ Vectors.hex "760ba435") < 22
  /\ length Vectors.zero_key = 32
  /\ decryptFromBuffer [] Vectors.zero_key Vectors.w0
     = (Throw (CryptoError ERR_CRYPTO_INVALID_IV), logged Vectors.w0 [CreateDecipheriv])
  /\ decryptFromBuffer (utf8 (js "abcdef") ++ Vectors.hex "760ba435") Vectors.zero_key Vectors.w0
     = (Return [], logged Vectors.w0 decrypt_calls).
Proof.
  split; [cbn; lia|]. split; [cbn; lia|]. split; [reflexivity|].
  split; vm_compute; reflexivity.
Qed.

(** C3, amended.  For every blob shorter than 22 bytes and every 32-byte
    key, [decryptFromBuffer] does no check of its own: it is [decrypt] on
    the clamped slices (at most six bytes of nonce, the rest as tag, an
    empty ciphertext).  It never fails with [MalformedBlob], and
    [createDecipheriv] is always called.  The empty blob fails with the
    invalid-nonce exception of [crypto]; a blob whose tag slice has a
    length [setAuthTag] refuses fails with its invalid-tag-length
    exception; otherwise the tag slice is checked against the tag of the
    empty ciphertext, and the call fails with [AuthenticationFailed] or
    returns the empty plaintext. *)
Theorem C3_short_blob (blob key : bytes) (w : world) :
  length blob < 22 -> length key = 32 ->
  decryptFromBuffer blob key w = decrypt [] key (Buf (firstn 6 blob)) (skipn 6 blob) w
  /\ fst (decryptFromBuffer blob key w) <> Throw MalformedBlob
  /\ (exists cs, calls (snd (decryptFromBuffer blob key w)) = calls w ++ CreateDecipheriv :: cs)
  /\ (blob = [] ->
      decryptFromBuffer blob key w
      = (Throw (CryptoError ERR_CRYPTO_INVALID_IV), logged w [CreateDecipheriv]))
  /\ (blob <> [] -> valid_tag_length (length blob - 6) = false ->
      decryptFromBuffer blob key w
      = (Throw (CryptoError (ERR_CRYPTO_INVALID_AUTH_TAG (length blob - 6))),
         logged w [CreateDecipheriv; SetAuthTag]))
  /\ (valid_tag_length (length blob - 6) = true ->
      decryptFromBuffer blob key w
      = (if tag_matches key (firstn 6 blob) [] (skipn 6 blob)
         then Return [] else Throw AuthenticationFailed,
         logged w decrypt_calls)).
Proof.
  intros Hl Hk.
  assert (E : decryptFromBuffer blob key w
              = decrypt [] key (Buf (firstn 6 blob)) (skipn 6 blob) w).
  { unfold decryptFromBuffer.
    destruct (short_blob_slices blob Hl) as (-> & -> & ->). reflexivity. }
  rewrite E.
  assert (Hne : blob <> [] -> toBuffer (Buf (firstn 6 blob)) <> []).
  { destruct blob; [congruence | discriminate]. }
  split; [reflexivity|]. split.
  { destruct (decrypt_outcome [] key (Buf (firstn 6 blob)) (skipn 6 blob) w)
      as [(pt & ->) | [-> | [-> | (e & ->)]]]; discriminate. }
  split; [apply decrypt_creates_decipher; assumption|].
  split; [|split].
  - intros ->. now apply decrypt_empty_iv.
  - intros Hb Ht. rewrite <- length_skipn in *. now apply decrypt_bad_tag_length; auto.
  - intros Ht. rewrite <- length_skipn in Ht.
    assert (Hb : blob <> []) by (intros ->; discriminate Ht).
    rewrite decrypt_run by auto. reflexivity.
Qed.



(** ** Tampering (towards C2) *)

(** A flipped bit in the tag: the decipher runs, the check of [final]
    fails, and the [catch] turns that into [AuthenticationFailed].  What
    [update] gave before is dropped with the exception. *)
Lemma tampered_tag_rejected key ivs data i k w :
  length key = 32 -> utf8 ivs <> [] -> i < 16 ->
  decrypt (encrypted (seal key ivs data)) key (Str ivs)
    (flip_bit i k (authTag (seal key ivs data))) w
  = (Throw AuthenticationFailed, logged w decrypt_calls).
Proof.
  intros Hk Hi Hlt. cbn [seal encrypted authTag].
  set (ct := seal_ct key ivs (toBuffer data)).
  rewrite decrypt_run;
    [| assumption | assumption | now rewrite flip_bit_length, auth_tag_length].
  cbn [toBuffer]. unfold tag_matches.
  rewrite flip_bit_length, firstn_all.
  destruct (bytes_eqb _ _) eqn:E; [|reflexivity].
  apply bytes_eqb_eq in E. exfalso. revert E.
  apply flip_bit_changes. now rewrite auth_tag_length.
Qed.

(** A flipped bit in the ciphertext: the call fails, with
    [AuthenticationFailed], exactly when the changed ciphertext has another
    tag than the original one; if the two tags were equal the call would
    return the changed plaintext. *)
Lemma tampered_ciphertext key ivs data i k w :
  length key = 32 -> utf8 ivs <> [] ->
  let ct := encrypted (seal key ivs data) in
  let ct' := flip_bit i k ct in
  decrypt ct' key (Str ivs) (authTag (seal key ivs data)) w
  = (if bytes_eqb (GCM.auth_tag key (utf8 ivs) ct) (GCM.auth_tag key (utf8 ivs) ct')
     then Return (open_ct key (utf8 ivs) ct')
     else Throw AuthenticationFailed,
     logged w decrypt_calls).
Proof.
  intros Hk Hi. cbn [seal encrypted authTag].
  set (ct := seal_ct key ivs (toBuffer data)). cbv zeta.
  rewrite decrypt_run; [| assumption | assumption | now rewrite auth_tag_length].
  cbn [toBuffer]. unfold tag_matches.
  rewrite (auth_tag_length key (utf8 ivs) ct).
  rewrite <- (auth_tag_length key (utf8 ivs) (flip_bit i k ct)), firstn_all.
  reflexivity.
Qed.

(** A flipped bit in the ciphertext, under a key whose hash subkey is not
    zero: the tag check fails and the [catch] gives
    [AuthenticationFailed]. *)
Lemma tampered_ciphertext_rejected key ivs data i k w :
  length key = 32 -> utf8 ivs <> [] -> GCM.hash_subkey key <> 0%N ->
  i < length (toBuffer data) ->
  decrypt (flip_bit i k (encrypted (seal key ivs data))) key (Str ivs)
    (authTag (seal key ivs data)) w
  = (Throw AuthenticationFailed, logged w decrypt_calls).
Proof.
  intros Hk Hi Hh Hlt.
  pose proof (tampered_ciphertext key ivs data i k w Hk Hi) as T. cbv zeta in T.
  rewrite T. clear T.
  destruct (bytes_eqb _ _) eqn:E; [|reflexivity].
  apply bytes_eqb_eq in E. exfalso. symmetry in E. revert E.
  apply GF128.auth_tag_flip; [exact Hh|].
  cbn [seal encrypted]. now rewrite seal_ct_length.
Qed.

(** Under a key whose hash subkey is zero the same call returns a
    plaintext. *)
Lemma tampered_ciphertext_accepted key ivs data i k w :
  length key = 32 -> utf8 ivs <> [] -> GCM.hash_subkey key = 0%N ->
  decrypt (flip_bit i k (encrypted (seal key ivs data))) key (Str ivs)
    (authTag (seal key ivs data)) w
  = (Return (open_ct key (utf8 ivs) (flip_bit i k (encrypted (seal key ivs data)))),
     logged w decrypt_calls).
Proof.
  intros Hk Hi Hh.
  pose proof (tampered_ciphertext key ivs data i k w Hk Hi) as T. cbv zeta in T.
  rewrite T. clear T.
  rewrite (GF128.auth_tag_weak_key key (utf8 ivs) _ (flip_bit i k (encrypted (seal key ivs data))) Hh).
  now rewrite bytes_eqb_refl.
Qed.

(** What [encrypt] returns is a sealed plaintext under a key of 32 bytes
    and a nonce of six characters. *)
Lemma encrypt_returns data key fixedIv w r w1 :
  encrypt data key fixedIv w = (Return r, w1) ->
  length key = 32
  /\ exists ivs, r = seal key ivs data /\ length ivs = 6 /\ utf8 ivs <> [].
Proof.
  intros He.
  destruct (Nat.eq_dec (length key) 32) as [Hk|Hk];
    [| rewrite encrypt_bad_key in He by exact Hk; discriminate He].
  split; [exact Hk|].
  destruct (truthy fixedIv) eqn:Ht.
  - destruct fixedIv as [[|c s]|]; try discriminate Ht.
    destruct (Nat.eq_dec (length (c :: s)) 6) as [H6|H6].
    + rewrite encrypt_fixed in He by assumption. injection He as <- _.
      exists (c :: s). split; [reflexivity|]. split; [exact H6|].
      pose proof (utf8_nonempty c s) as U. intros E. rewrite E in U. discriminate U.
    + rewrite encrypt_wrong_nonce in He by (assumption || discriminate). discriminate He.
  - rewrite encrypt_generated in He by assumption. injection He as <- _.
    exists (next_nonce w). split; [reflexivity|]. split; [apply next_nonce_length|].
    pose proof (next_nonce_bytes w) as U. intros E. rewrite E in U. discriminate U.
Qed.

(** Tampering with what [encrypt] returned.  A flipped bit of the tag is
    always rejected with [AuthenticationFailed].  A flipped bit of the
    ciphertext is rejected with [AuthenticationFailed] when the hash subkey
    of the key (the encryption of the zero block) is not zero; were it
    zero, the call would return a plaintext. *)
Theorem tamper_detection data key fixedIv w r w1 :
  encrypt data key fixedIv w = (Return r, w1) ->
  (forall i k w2, i < 16 ->
     decrypt (encrypted r) key (Str (iv r)) (flip_bit i k (authTag r)) w2
     = (Throw AuthenticationFailed, logged w2 decrypt_calls))
  /\ (GCM.hash_subkey key <> 0%N ->
      forall i k w2, i < length (encrypted r) ->
        decrypt (flip_bit i k (encrypted r)) key (Str (iv r)) (authTag r) w2
        = (Throw AuthenticationFailed, logged w2 decrypt_calls))
  /\ (GCM.hash_subkey key = 0%N ->
      forall i k w2, exists pt,
        decrypt (flip_bit i k (encrypted r)) key (Str (iv r)) (authTag r) w2
        = (Return pt, logged w2 decrypt_calls)).
Proof.
  intros He. destruct (encrypt_returns _ _ _ _ _ _ He) as (Hk & ivs & -> & _ & Hi).
  cbn [iv seal]. fold (seal key ivs data). split; [|split].
  - intros i k w2 Hlt. now apply tampered_tag_rejected.
  - intros Hh i k w2 Hlt. apply tampered_ciphertext_rejected; try assumption.
    cbn [seal encrypted] in Hlt. now rewrite seal_ct_length in Hlt.
  - intros Hh i k w2. eexists. now apply tampered_ciphertext_accepted.
Qed.

(** The hash subkey of the zero key is not zero. *)
Example zero_key_hash_subkey :
  N_to_bytes 16 (GCM.hash_subkey Vectors.zero_key)
  = Vectors.hex "dc95c078a2408989ad48a21492842087".
Proof. vm_compute. reflexivity. Qed.

(** ** Known answers *)

(** FIPS 197, appendix C.3. *)
Example aes256_fips197 :
  N_to_bytes 16
    (AES.encrypt_block
       (Vectors.hex "000102030405060708090a0b0c0d0e0f101112131415161718191a1b1c1d1e1f")
       (bytes_to_N (Vectors.hex "00112233445566778899aabbccddeeff")))
  = Vectors.hex "8ea2b7ca516745bfeafc49904b496089".
Proof. vm_compute. reflexivity. Qed.

(** The GCM test cases 13 and 14 of McGrew and Viega (256-bit zero key,
    96-bit zero nonce). *)
Example gcm_test_case_13 :
  GCM.auth_tag Vectors.zero_key (repeat x00 12) []
  = Vectors.hex "530f8afbc74536b9a963b4f1c4cb738b".
Proof. vm_compute. reflexivity. Qed.

Example gcm_test_case_14 :
  xor_bytes (repeat x00 16) (GCM.keystream Vectors.zero_key (repeat x00 12) 16)
  = Vectors.hex "cea7403d4d606b6e074ec5d3baf39d18"
  /\ GCM.auth_tag Vectors.zero_key (repeat x00 12) (Vectors.hex "cea7403d4d606b6e074ec5d3baf39d18")
     = Vectors.hex "d0d1c8a799996bf0265b98b5d48ab919".
Proof. split; vm_compute; reflexivity. Qed.

(** The scenario of the specification: zero key, nonce ["abcdef"],
    plaintext ["hello"]. *)
Example scenario_hello :
  encrypt (Str (js "hello")) Vectors.zero_key (Some (js "abcdef")) Vectors.w0
  = (Return {| encrypted := Vectors.hex "845a17de6b";
               iv := js "abcdef";
               authTag := Vectors.hex "a8a397e57e056ebe1c059443545f7f47" |},
     logged Vectors.w0 encrypt_calls)
  /\ fst (decrypt (Vectors.hex "845a17de6b") Vectors.zero_key (Str (js "abcdef"))
            (Vectors.hex "a8a397e57e056ebe1c059443545f7f47") Vectors.w0)
     = Return (utf8 (js "hello"))
  /\ fst (decrypt (Vectors.hex "845a17de6b") Vectors.zero_key (Str (js "abcdeg"))
            (Vectors.hex "a8a397e57e056ebe1c059443545f7f47") Vectors.w0)
     = Throw AuthenticationFailed
  /\ fst (encryptToString (Str (js "hello")) Vectors.zero_key (Some (js "abcdef")) Vectors.w0)
     = Return (js "YWJjZGVmqKOX5X4Fbr4cBZRDVF9/R4RaF95r").
Proof. repeat split; vm_compute; reflexivity. Qed.

(** The plaintexts of the text round-trip tests: the empty string and the
    punctuation string. *)
Example text_roundtrip_tests :
  forallb (fun p =>
      match fst (encryptToString (Str p) Vectors.demo_key None Vectors.w0) with
      | Return text =>
          match fst (decryptFromString text Vectors.demo_key Vectors.w0) with
          | Return b => bytes_eqb b (utf8 p)
          | Throw _ => false
          end
      | Throw _ => false
      end)
    [ []; js "!@#$%^&*()_+{}|:" ++ [34%N] ++ js "<>?~`-=[]\;',./" ] = true.
Proof. vm_compute. reflexivity. Qed.

(** ** The layers with a fixed nonce *)

(** With a fixed nonce of six ASCII characters the three layers round-trip
    and the blob has the layout of C7, as with a generated nonce. *)
Lemma fixed_ascii_nonce data key nonce w :
  length key = 32 -> length nonce = 6 -> is_ascii nonce ->
  encryptToBuffer data key (Some nonce) w
  = (Return (utf8 nonce ++ authTag (seal key nonce data) ++ encrypted (seal key nonce data)),
     logged w encrypt_calls)
  /\ length (utf8 nonce) = 6
  /\ (forall w2, fst (decryptFromBuffer
                        (utf8 nonce ++ authTag (seal key nonce data) ++ encrypted (seal key nonce data))
                        key w2) = Return (toBuffer data))
  /\ (forall w2, fst (decryptFromString
                        (base64_encode
                           (utf8 nonce ++ authTag (seal key nonce data) ++ encrypted (seal key nonce data)))
                        key w2) = Return (toBuffer data)).
Proof.
  intros Hk Hn Ha.
  assert (Hb : length (utf8 nonce) = 6) by now rewrite utf8_ascii_length.
  split; [exact (encryptToBuffer_run _ _ _ _ _ _ (encrypt_fixed data key nonce w Hk Hn))|].
  split; [exact Hb|]. split; intros w2.
  - now rewrite decryptFromBuffer_seal.
  - unfold decryptFromString. now rewrite base64_roundtrip, decryptFromBuffer_seal.
Qed.

(** The length check of [encrypt] counts characters, the blob holds bytes:
    six times [U+00E9] pass the check and make a nonce of twelve bytes, so
    the blob of a five-byte plaintext has 33 bytes and [decryptFromBuffer],
    which cuts at 6 and 22, rejects it. *)
Example wide_nonce :
  let nonce := [233; 233; 233; 233; 233; 233]%N in
  length nonce = 6
  /\ length (utf8 nonce) = 12
  /\ match fst (encryptToBuffer (Str (js "hello")) Vectors.demo_key (Some nonce) Vectors.w0) with
     | Return blob =>
         length blob = 33
         /\ fst (decryptFromBuffer blob Vectors.demo_key Vectors.w0) = Throw AuthenticationFailed
     | Throw _ => False
     end.
Proof. repeat split; vm_compute; reflexivity. Qed.

(** ** The claims at concrete inputs *)

Lemma C1_roundtrip_witness :
  length Vectors.demo_key = 32
  /\ (exists r w1,
         encrypt (Str (js "This is a secret message")) Vectors.demo_key None Vectors.w0
         = (Return r, w1)
         /\ forall w2, fst (decrypt (encrypted r) Vectors.demo_key (Str (iv r)) (authTag r) w2)
                       = Return (toBuffer (Str (js "This is a secret message"))))
  /\ (exists blob w1,
         encryptToBuffer (Buf []) Vectors.demo_key None Vectors.w0 = (Return blob, w1)
         /\ forall w2, fst (decryptFromBuffer blob Vectors.demo_key w2) = Return (toBuffer (Buf []))).
Proof.
  assert (demo_key_length : length Vectors.demo_key = 32) by (vm_compute; reflexivity).
  split; [exact demo_key_length|]. split.
  - exact (proj1 (C1_roundtrip (Str (js "This is a secret message"))
                    Vectors.demo_key Vectors.w0 demo_key_length)).
  - exact (proj1 (proj2 (C1_roundtrip (Buf []) Vectors.demo_key Vectors.w0 demo_key_length))).
Defined.

Lemma C6_key_length_checked_first_witness :
  length Vectors.short_key <> 32
  /\ encrypt (Str (js "This is a secret message")) Vectors.short_key None Vectors.w0
     = (Throw InvalidKeyLength, Vectors.w0)
  /\ decrypt (Vectors.hex "845a17de6b") Vectors.short_key (Str (js "abcdef"))
       (Vectors.hex "a8a397e57e056ebe1c059443545f7f47") Vectors.w0
     = (Throw InvalidKeyLength, Vectors.w0).
Proof.
  assert (H : length Vectors.short_key <> 32) by discriminate.
  split; [exact H|].
  exact (C6_key_length_checked_first (Str (js "This is a secret message")) None
           (Vectors.hex "845a17de6b") (Str (js "abcdef"))
           (Vectors.hex "a8a397e57e056ebe1c059443545f7f47") Vectors.short_key Vectors.w0 H).
Defined.

Lemma C7_blob_layout_witness :
  length Vectors.zero_key = 32
  /\ exists r blob w1,
       encrypt (Str (js "hello")) Vectors.zero_key None Vectors.w0 = (Return r, w1)
       /\ encryptToBuffer (Str (js "hello")) Vectors.zero_key None Vectors.w0 = (Return blob, w1)
       /\ length blob = 22 + length (toBuffer (Str (js "hello")))
       /\ subarray blob 0 6 = utf8 (iv r)
       /\ subarray blob 6 22 = authTag r
       /\ subarray_from blob 22 = encrypted r.
Proof.
  assert (zero_key_length : length Vectors.zero_key = 32) by reflexivity.
  split; [exact zero_key_length|].
  exact (C7_blob_layout (Str (js "hello")) Vectors.zero_key Vectors.w0 zero_key_length).
Defined.

Lemma C8_fixed_nonce_deterministic_witness :
  length Vectors.demo_key = 32 /\ length (js "1035db") = 6
  /\ exists r1 r2,
       fst (encrypt (Str (js "hello")) Vectors.demo_key (Some (js "1035db")) Vectors.w0) = Return r1
       /\ fst (encrypt (Str (js "hello")) Vectors.demo_key (Some (js "1035db"))
                 (advance Vectors.w0 6 (RandomBytes 6 :: encrypt_calls))) = Return r2
       /\ encrypted r1 = encrypted r2
       /\ authTag r1 = authTag r2
       /\ iv r1 = js "1035db" /\ iv r2 = js "1035db".
Proof.
  assert (demo_key_length : length Vectors.demo_key = 32) by (vm_compute; reflexivity).
  assert (H6 : length (js "1035db") = 6) by reflexivity.
  split; [exact demo_key_length|]. split; [exact H6|].
  exact (C8_fixed_nonce_deterministic (Str (js "hello")) Vectors.demo_key (js "1035db")
           Vectors.w0 (advance Vectors.w0 6 (RandomBytes 6 :: encrypt_calls))
           demo_key_length H6).
Defined.

Lemma C9_lengths_witness :
  length Vectors.zero_key = 32
  /\ exists r w1,
       encrypt (Str (js "hello")) Vectors.zero_key None Vectors.w0 = (Return r, w1)
       /\ length (encrypted r) = length (toBuffer (Str (js "hello")))
       /\ length (authTag r) = 16.
Proof.
  assert (zero_key_length : length Vectors.zero_key = 32) by reflexivity.
  split; [exact zero_key_length|].
  exact (proj1 (C9_lengths (Str (js "hello")) Vectors.zero_key Vectors.w0 zero_key_length)).
Defined.

Lemma C10_empty_nonce_is_absent_witness :
  length Vectors.zero_key = 32
  /\ encrypt (Str (js "hello")) Vectors.zero_key (Some []) Vectors.w0
     = encrypt (Str (js "hello")) Vectors.zero_key None Vectors.w0
  /\ length (next_nonce Vectors.w0) = 6.
Proof.
  assert (zero_key_length : length Vectors.zero_key = 32) by reflexivity.
  pose proof (C10_empty_nonce_is_absent (Str (js "hello")) Vectors.zero_key Vectors.w0
                zero_key_length) as T.
  split; [exact zero_key_length|].
  exact (conj (proj1 T) (proj1 (proj2 (proj2 (proj2 T))))).
Defined.

Lemma C5_wrong_length_nonce_refused_witness :
  length Vectors.zero_key = 32 /\ js "abc" <> [] /\ length (js "abc") <> 6
  /\ encrypt (Str (js "hello")) Vectors.zero_key (Some (js "abc")) Vectors.w0
     = (Throw InvalidNonceLength, Vectors.w0)
  /\ encryptToBuffer (Str (js "hello")) Vectors.zero_key (Some (js "abc")) Vectors.w0
     = (Throw InvalidNonceLength, Vectors.w0)
  /\ encryptToString (Str (js "hello")) Vectors.zero_key (Some (js "abc")) Vectors.w0
     = (Throw InvalidNonceLength, Vectors.w0).
Proof.
  assert (zero_key_length : length Vectors.zero_key = 32) by reflexivity.
  assert (H1 : js "abc" <> []) by discriminate.
  assert (H2 : length (js "abc") <> 6) by discriminate.
  split; [exact zero_key_length|]. split; [exact H1|]. split; [exact H2|].
  exact (C5_wrong_length_nonce_refused (Str (js "hello")) Vectors.zero_key (js "abc")
           Vectors.w0 zero_key_length H1 H2).
Defined.

Lemma C3_short_blob_witness :
  length (Vectors.hex "0102030405060708090a0b0c0d0e0f101112131415") < 22
  /\ length Vectors.zero_key = 32
  /\ fst (decryptFromBuffer (Vectors.hex "0102030405060708090a0b0c0d0e0f101112131415")
            Vectors.zero_key Vectors.w0) <> Throw MalformedBlob
  /\ exists cs,
       calls (snd (decryptFromBuffer (Vectors.hex "0102030405060708090a0b0c0d0e0f101112131415")
                     Vectors.zero_key Vectors.w0))
       = calls Vectors.w0 ++ CreateDecipheriv :: cs.
Proof.
  assert (zero_key_length : length Vectors.zero_key = 32) by reflexivity.
  assert (H : length (Vectors.hex "0102030405060708090a0b0c0d0e0f101112131415") < 22)
    by (vm_compute; lia).
  split; [exact H|]. split; [exact zero_key_length|].
  pose proof (C3_short_blob (Vectors.hex "0102030405060708090a0b0c0d0e0f101112131415")
                Vectors.zero_key Vectors.w0 H zero_key_length) as T.
  exact (conj (proj1 (proj2 T)) (proj1 (proj2 (proj2 T)))).
Defined.

(* ================================================================== *)
(** * Further properties of the methods *)

(** ** The field of GHASH has no zero divisors

    [GF128] shows that a single changed bit changes GHASH.  For a
    change of any kind inside one block the blocks must form a field: a
    non-zero difference times a non-zero power of the hash subkey is not
    zero.  The only idempotents are [0] and the unit ([inverse_artin],
    checked on the single bits and extended by additivity); since squaring
    128 times is the identity, [a^(2^128 - 1)] is idempotent and absorbs
    [a], so it is the unit for every [a <> 0], and [a^(2^128 - 2)] is the
    inverse of [a]. *)

Module GF128_field.
Import GCM GF128 Berlekamp.
Local Open Scope N_scope.

Lemma combine_bits_lxor cols i a b :
  combine_bits cols i (N.lxor a b) = N.lxor (combine_bits cols i a) (combine_bits cols i b).
Proof.
  revert i. induction cols as [|c cols IH]; intros i; cbn [combine_bits]; [reflexivity|].
  rewrite IH, N.lxor_spec.
  destruct (N.testbit a i), (N.testbit b i); cbn [xorb]; lxor_ring.
Qed.

Lemma combine_bits_0 cols i : combine_bits cols i 0 = 0.
Proof.
  revert i. induction cols as [|c cols IH]; intros i; cbn [combine_bits]; [reflexivity|].
  now rewrite IH, N.bits_0.
Qed.

Lemma ldiff_lxor a b c : N.ldiff (N.lxor a b) c = N.lxor (N.ldiff a c) (N.ldiff b c).
Proof.
  apply N.bits_inj. intro k. rewrite !N.lxor_spec, !N.ldiff_spec, N.lxor_spec.
  destruct (N.testbit a k), (N.testbit b k), (N.testbit c k); reflexivity.
Qed.

(** A number below [2^128] without its top bit is below [2^127]; so if
    nothing is left, it was [0] or the unit. *)
Lemma ldiff_one_zero v : N.ldiff v one128 = 0 -> v = 0 \/ v = one128.
Proof.
  unfold one128. intros H.
  assert (Hk : forall k, k <> 127 -> N.testbit v k = false).
  { intros k Hk. apply (f_equal (fun x => N.testbit x k)) in H.
    rewrite N.ldiff_spec, N.bits_0, N.pow2_bits_eqb in H.
    destruct (N.eqb_spec 127 k) as [E|_]; [congruence|].
    cbn [negb] in H. now rewrite andb_true_r in H. }
  destruct (N.testbit v 127) eqn:T; [right | left]; apply N.bits_inj; intro k.
  - rewrite N.pow2_bits_eqb.
    destruct (N.eqb_spec 127 k) as [<-|Hne]; [exact T | apply Hk; congruence].
  - rewrite N.bits_0.
    destruct (N.eq_dec k 127) as [->|Hne]; [exact T | apply Hk, Hne].
Qed.

Section Idempotents.
Variable mul : N -> N -> N.
Hypothesis G : galois_mul mul.
Hypothesis inverse_artin_basis :
  forall m, m < 128 ->
    combine_bits inverse_artin 0 (artin mul (2 ^ m)) = N.ldiff (2 ^ m) one128.

Lemma artin_lxor a b :
  B128 a -> B128 b -> artin mul (N.lxor a b) = N.lxor (artin mul a) (artin mul b).
Proof.
  intros Ha Hb. unfold artin. rewrite (square_lxor mul G) by assumption. lxor_ring.
Qed.

Lemma inverse_artin_spec v :
  B128 v -> combine_bits inverse_artin 0 (artin mul v) = N.ldiff v one128.
Proof.
  intros Hv. apply N.lxor_eq.
  apply (extension
           (fun v => N.lxor (combine_bits inverse_artin 0 (artin mul v)) (N.ldiff v one128)));
    [| |exact Hv].
  - intros a b Ha Hb. rewrite artin_lxor, combine_bits_lxor, ldiff_lxor by assumption.
    lxor_ring.
  - intros m Hm. rewrite inverse_artin_basis by exact Hm. apply N.lxor_nilpotent.
Qed.

(** The only idempotents are [0] and the unit. *)
Lemma idempotent_trivial e : B128 e -> square mul e = e -> e = 0 \/ e = one128.
Proof.
  intros He Hs. apply ldiff_one_zero.
  rewrite <- inverse_artin_spec by exact He.
  unfold artin. rewrite Hs, N.lxor_nilpotent. apply combine_bits_0.
Qed.

Lemma mul_assoc a b c : B128 a -> B128 b -> B128 c -> mul (mul a b) c = mul a (mul b c).
Proof.
  intros Ha Hb Hc.
  rewrite (mul_comm mul G (mul a b) c) by (try apply (mul_bound mul G); assumption).
  rewrite (mul_left_comm mul G c a b).
  now rewrite (mul_comm mul G c b) by assumption.
Qed.

(** Every non-zero element has an inverse. *)
Lemma inverse_exists a : B128 a -> a <> 0 -> exists b, B128 b /\ mul b a = one128.
Proof.
  intros Ha Hne.
  assert (HK : exists K, (2 <= K)%nat /\ power mul a K = a).
  { exists (2 ^ 128)%nat. split.
    - change 128%nat with (1 + 127)%nat. rewrite Nat.pow_add_r.
      assert (0 < 2 ^ 127)%nat by (apply Nat.neq_0_lt_0, Nat.pow_nonzero; lia).
      change (2 ^ 1)%nat with 2%nat. lia.
    - rewrite <- (iter_square_power mul G) by exact Ha. apply (frobenius mul G), Ha. }
  destruct HK as (K & HK & HF).
  set (e := power mul a (K - 1)).
  assert (Hea : mul e a = a).
  { subst e. rewrite <- (power_S mul). now replace (S (K - 1)) with K by lia. }
  assert (Heb : B128 e) by (apply (power_bound mul G), Ha).
  assert (Hee : square mul e = e).
  { unfold square. subst e.
    rewrite (power_add mul G) by exact Ha.
    replace (K - 1 + (K - 1))%nat with (K + (K - 2))%nat by lia.
    rewrite <- (power_add mul G), HF by exact Ha.
    rewrite <- (power_1 mul G a Ha) at 1.
    rewrite (power_add mul G) by exact Ha. f_equal. lia. }
  destruct (idempotent_trivial e Heb Hee) as [E0|E1].
  - exfalso. apply Hne. rewrite <- Hea, E0. apply (mul_0_l mul G).
  - exists (power mul a (K - 2)). split; [apply (power_bound mul G), Ha|].
    rewrite <- (power_S mul). replace (S (K - 2)) with (K - 1)%nat by lia. exact E1.
Qed.

(** There are no zero divisors. *)
Lemma mul_eq_0 a b : B128 a -> B128 b -> mul a b = 0 -> a = 0 \/ b = 0.
Proof.
  intros Ha Hb H.
  destruct (N.eq_dec a 0) as [E|E]; [left; exact E | right].
  destruct (inverse_exists a Ha E) as (c & Hc & Hca).
  rewrite <- (mul_1_l mul G b Hb), <- Hca.
  rewrite mul_assoc, H by assumption. apply (mul_0_r mul G).
Qed.

Lemma iter_times_power h t d :
  B128 h -> B128 d -> Nat.iter t (times mul h) d = mul d (power mul h t).
Proof.
  intros Hh Hd. induction t as [|t IH].
  - cbn [Nat.iter]. symmetry. apply (mul_1_r mul G), Hd.
  - rewrite Nat.iter_succ, IH, (times_eq mul), (power_S mul).
    apply mul_assoc; [exact Hd | apply (power_bound mul G), Hh | exact Hh].
Qed.

(** A changed block changes GHASH, whatever the change. *)
Lemma ghash_one_block h xs1 x x' xs2 :
  B128 h -> h <> 0 -> B128 x -> B128 x' -> x <> x' ->
  GHASH_with mul h (xs1 ++ x' :: xs2) <> GHASH_with mul h (xs1 ++ x :: xs2).
Proof.
  intros Hh Hne Hx Hx' Hd E.
  set (d := N.lxor x x').
  assert (Hdb : B128 d) by (apply lxor_lt_pow2; assumption).
  assert (Hdn : d <> 0).
  { intros E0. apply Hd. now apply N.lxor_eq. }
  replace x' with (N.lxor x d) in E by (subst d; lxor_ring).
  rewrite (ghash_one_block_changed mul G) in E.
  apply (f_equal (N.lxor (GHASH_with mul h (xs1 ++ x :: xs2)))) in E.
  rewrite N.lxor_nilpotent, <- N.lxor_assoc, N.lxor_nilpotent, N.lxor_0_l in E.
  rewrite (iter_times_power _ _ _ Hh Hdb) in E.
  destruct (mul_eq_0 d _ Hdb (power_bound mul G h _ Hh) E) as [E0|E0]; [contradiction|].
  revert E0. apply (power_nonzero mul G); assumption.
Qed.

End Idempotents.

Lemma gf128_inverse_artin m :
  m < 128 ->
  combine_bits inverse_artin 0 (artin gf128_mul (2 ^ m)) = N.ldiff (2 ^ m) one128.
Proof.
  intros Hm. apply N.eqb_eq.
  apply (basis_check
           (fun m => combine_bits inverse_artin 0 (artin gf128_mul (2 ^ m))
                     =? N.ldiff (2 ^ m) one128)); [|exact Hm].
  vm_compute. reflexivity.
Qed.


(** *** Buffers that differ inside one block *)

Lemma to_N_injective (a b : byte) : Byte.to_N a = Byte.to_N b -> a = b.
Proof.
  intros E. apply (f_equal Byte.of_N) in E. rewrite !Byte.of_to_N in E. now injection E.
Qed.

Lemma bytes_to_N_injective (l1 l2 : bytes) :
  length l1 = length l2 -> bytes_to_N l1 = bytes_to_N l2 -> l1 = l2.
Proof.
  revert l2. induction l1 as [|a l1 IH]; intros [|b l2] Hl E; try discriminate Hl;
    [reflexivity|].
  injection Hl as Hl. rewrite !bytes_to_N_cons, <- Hl in E.
  pose proof (bytes_to_N_bound l1) as B1. pose proof (bytes_to_N_bound l2) as B2.
  rewrite <- Hl in B2.
  set (P := 256 ^ N.of_nat (length l1)) in *.
  assert (Ea : Byte.to_N a = Byte.to_N b) by nia.
  f_equal; [apply to_N_injective, Ea | apply IH; [exact Hl | nia]].
Qed.

Lemma blocks_fuel_enough (f f' : nat) (l : bytes) :
  (length l <= f)%nat -> (length l <= f')%nat -> blocks_fuel f l = blocks_fuel f' l.
Proof.
  revert f' l. induction f as [|f IH]; intros [|f'] [|b l] Hf Hf'; cbn in Hf, Hf';
    try lia; try reflexivity.
  cbn [blocks_fuel]. f_equal. apply IH; rewrite length_skipn; cbn [length]; lia.
Qed.

Lemma blocks_cons (b : byte) (l : bytes) :
  blocks (b :: l)
  = bytes_to_N (firstn 16 ((b :: l) ++ repeat x00 15)) :: blocks (skipn 16 (b :: l)).
Proof.
  unfold blocks at 1. cbn [length blocks_fuel]. f_equal.
  apply blocks_fuel_enough; rewrite ?length_skipn; cbn [length]; lia.
Qed.

Lemma first_block_bound (l : bytes) : B128 (bytes_to_N (firstn 16 (l ++ repeat x00 15))).
Proof.
  unfold B128. eapply N.lt_le_trans; [apply bytes_to_N_bound|].
  change (2 ^ 128) with (256 ^ 16). apply N.pow_le_mono_r; [discriminate|].
  rewrite length_firstn. lia.
Qed.

Lemma first_block_eq (a b : bytes) :
  length a = length b -> firstn 16 a = firstn 16 b ->
  firstn 16 (a ++ repeat x00 15) = firstn 16 (b ++ repeat x00 15).
Proof. intros Hl E. now rewrite !firstn_app, E, Hl. Qed.

Lemma first_block_injective (a b : bytes) :
  length a = length b ->
  bytes_to_N (firstn 16 (a ++ repeat x00 15)) = bytes_to_N (firstn 16 (b ++ repeat x00 15)) ->
  firstn 16 a = firstn 16 b.
Proof.
  intros Hl E. apply bytes_to_N_injective in E.
  - rewrite !firstn_app, Hl in E. apply app_inv_tail in E. exact E.
  - rewrite !length_firstn, !length_app, Hl. reflexivity.
Qed.

(** Two buffers of one length that differ, and only inside the block of
    bytes [16 j .. 16 j + 15], have block lists that differ in one block. *)
Lemma blocks_differ_in_one (j : nat) (a b : bytes) :
  length a = length b ->
  firstn (16 * j) a = firstn (16 * j) b ->
  skipn (16 * S j) a = skipn (16 * S j) b ->
  a <> b ->
  exists xs1 x x' xs2,
    blocks a = xs1 ++ x :: xs2 /\ blocks b = xs1 ++ x' :: xs2
    /\ B128 x /\ B128 x' /\ x <> x'.
Proof.
  revert a b. induction j as [|j IH]; intros a b Hl Hf Hs Hne.
  - change (16 * 1)%nat with 16%nat in Hs.
    destruct a as [|a0 a], b as [|b0 b]; try discriminate Hl; [congruence|].
    exists [], (bytes_to_N (firstn 16 ((a0 :: a) ++ repeat x00 15))),
      (bytes_to_N (firstn 16 ((b0 :: b) ++ repeat x00 15))), (blocks (skipn 16 (a0 :: a))).
    rewrite !blocks_cons, Hs.
    split; [reflexivity|]. split; [reflexivity|].
    split; [apply first_block_bound|]. split; [apply first_block_bound|].
    intros E. apply first_block_injective in E; [|exact Hl].
    apply Hne. rewrite <- (firstn_skipn 16 (a0 :: a)), <- (firstn_skipn 16 (b0 :: b)).
    now rewrite E, Hs.
  - destruct a as [|a0 a], b as [|b0 b]; try discriminate Hl; [congruence|].
    assert (H16 : firstn 16 (a0 :: a) = firstn 16 (b0 :: b)).
    { apply (f_equal (firstn 16)) in Hf. rewrite !firstn_firstn in Hf.
      now replace (Nat.min 16 (16 * S j)) with 16%nat in Hf by lia. }
    destruct (IH (skipn 16 (a0 :: a)) (skipn 16 (b0 :: b))) as (xs1 & x & x' & xs2 & E1 & E2 & B).
    + rewrite !length_skipn. now rewrite Hl.
    + rewrite !firstn_skipn_comm. replace (16 + 16 * j)%nat with (16 * S j)%nat by lia.
      now rewrite Hf.
    + rewrite !skipn_skipn. replace (16 * S j + 16)%nat with (16 * S (S j))%nat by lia.
      exact Hs.
    + intros E. apply Hne.
      rewrite <- (firstn_skipn 16 (a0 :: a)), <- (firstn_skipn 16 (b0 :: b)).
      now rewrite E, H16.
    + exists (bytes_to_N (firstn 16 ((a0 :: a) ++ repeat x00 15)) :: xs1), x, x', xs2.
      rewrite !blocks_cons, E1, E2, (first_block_eq _ _ Hl H16).
      split; [reflexivity|]. split; [reflexivity|]. exact B.
Qed.

(** With a non-zero hash subkey, a ciphertext changed inside one block has
    another tag. *)
Lemma auth_tag_block (key ivb ct ct' : bytes) (j : nat) :
  hash_subkey key <> 0 ->
  length ct' = length ct ->
  firstn (16 * j) ct' = firstn (16 * j) ct ->
  skipn (16 * S j) ct' = skipn (16 * S j) ct ->
  ct' <> ct ->
  auth_tag key ivb ct' <> auth_tag key ivb ct.
Proof.
  intros Hh Hl Hf Hs Hne E. unfold auth_tag in E.
  assert (Hbl : bit_length ct' = bit_length ct) by (unfold bit_length; now rewrite Hl).
  rewrite Hbl in E.
  pose proof (hash_subkey_bound key) as Hb.
  destruct (blocks_differ_in_one j ct ct' (eq_sym Hl) (eq_sym Hf) (eq_sym Hs)
              (fun e => Hne (eq_sym e)))
    as (xs1 & x & x' & xs2 & E1 & E2 & Hx & Hx' & Hd).
  rewrite E1, E2, <- !app_assoc in E. cbn [app] in E.
  unfold GHASH in E.
  apply N_to_bytes_16_injective in E;
    [| exact (lxor_lt_pow2 _ _ 128 (encrypt_block_bound key (J0 key ivb))
                (ghash_bound gf128_mul gf128_mul_galois (hash_subkey key) _ Hb))
     | exact (lxor_lt_pow2 _ _ 128 (encrypt_block_bound key (J0 key ivb))
                (ghash_bound gf128_mul gf128_mul_galois (hash_subkey key) _ Hb))].
  apply (f_equal (N.lxor (AES.encrypt_block key (J0 key ivb)))) in E.
  rewrite <- !N.lxor_assoc, N.lxor_nilpotent, !N.lxor_0_l in E.
  exact (ghash_one_block gf128_mul gf128_mul_galois gf128_inverse_artin (hash_subkey key)
           xs1 x x' (xs2 ++ [bit_length ct]) Hb Hh Hx Hx' Hd E).
Qed.

End GF128_field.

(** ** Keys and nonces *)


Lemma hex_digit_lower (n : N) : (n < 16)%N -> is_lower_hex (hex_digit n) = true.
Proof.
  intros H. unfold is_lower_hex, hex_digit.
  destruct (N.ltb_spec n 10).
  - apply orb_true_iff. left. apply andb_true_iff. split; apply N.leb_le; lia.
  - apply orb_true_iff. right. apply andb_true_iff. split; apply N.leb_le; lia.
Qed.

Lemma hex_encode_lower (b : bytes) : forallb is_lower_hex (hex_encode b) = true.
Proof.
  unfold hex_encode. induction b as [|x b IH]; [reflexivity|].
  cbn [flat_map app forallb]. rewrite IH.
  pose proof (Byte.to_N_bounded x) as Hx.
  rewrite !hex_digit_lower; [reflexivity | apply N.mod_lt; lia | apply N.Div0.div_lt_upper_bound; lia].
Qed.

Lemma hex_encode_firstn (k : nat) (b : bytes) :
  firstn (2 * k) (hex_encode b) = hex_encode (firstn k b).
Proof.
  revert b. induction k as [|k IH]; intros b; [reflexivity|].
  destruct b as [|x b]; [reflexivity|].
  replace (2 * S k) with (S (S (2 * k))) by lia.
  unfold hex_encode in *. cbn [flat_map app firstn]. now rewrite IH.
Qed.

Lemma hex_digit_injective (a b : N) :
  (a < 16)%N -> (b < 16)%N -> hex_digit a = hex_digit b -> a = b.
Proof.
  unfold hex_digit. intros Ha Hb.
  destruct (N.ltb_spec a 10), (N.ltb_spec b 10); lia.
Qed.

Lemma hex_encode_injective (a b : bytes) : hex_encode a = hex_encode b -> a = b.
Proof.
  unfold hex_encode. revert b. induction a as [|x a IH]; intros [|y b] E;
    cbn [flat_map app] in E; try discriminate E; [reflexivity|].
  injection E as E1 E2 E3.
  pose proof (Byte.to_N_bounded x) as Hx. pose proof (Byte.to_N_bounded y) as Hy.
  apply hex_digit_injective in E1; [| apply N.Div0.div_lt_upper_bound; lia ..].
  apply hex_digit_injective in E2; [| apply N.mod_lt; lia ..].
  f_equal; [|apply IH, E3].
  assert (E : Byte.to_N x = Byte.to_N y).
  { rewrite (N.div_mod (Byte.to_N x) 16), (N.div_mod (Byte.to_N y) 16) by lia.
    now rewrite E1, E2. }
  apply (f_equal Byte.of_N) in E. rewrite !Byte.of_to_N in E. now injection E.
Qed.

Lemma firstn_map_seq {A} (f : nat -> A) (c k n : nat) :
  k <= n -> firstn k (map f (seq c n)) = map f (seq c k).
Proof.
  intros H. rewrite firstn_map. f_equal.
  replace n with (k + (n - k)) by lia.
  rewrite seq_app. apply firstn_app_exact, length_seq.
Qed.

(** The generated nonce is the hexadecimal form of the first three of the
    six bytes read. *)
Lemma next_nonce_three_bytes (w : world) :
  next_nonce w = hex_encode (map (entropy w) (seq (cursor w) 3)).
Proof.
  unfold next_nonce, slice0, ivLength.
  pose proof (hex_encode_firstn 3 (map (entropy w) (seq (cursor w) 6))) as H.
  change (2 * 3) with 6 in H. rewrite H.
  now rewrite firstn_map_seq by lia.
Qed.

Lemma generateKey_run (w : world) :
  generateKey w = (Return (map (entropy w) (seq (cursor w) 32)), advance w 32 [RandomBytes 32]).
Proof. reflexivity. Qed.

(** X1 ([generateKey]).  [generateKey] never fails: it returns the next 32
    bytes of the entropy source, in one call of [randomBytes(32)]; a second
    call returns the 32 bytes after them.  The key it returns is accepted
    by [encrypt], and [decrypt] under it gives the plaintext back. *)
Theorem X1_generated_key_is_usable (data : StringOrBuffer) (w : world) :
  exists key w1,
    generateKey w = (Return key, w1)
    /\ length key = 32
    /\ key = map (entropy w) (seq (cursor w) 32)
    /\ w1 = advance w 32 [RandomBytes 32]
    /\ (exists key2 w2,
           generateKey w1 = (Return key2, w2)
           /\ key2 = map (entropy w) (seq (cursor w + 32) 32))
    /\ (exists r w2,
           encrypt data key None w1 = (Return r, w2)
           /\ forall w3, fst (decrypt (encrypted r) key (Str (iv r)) (authTag r) w3)
                         = Return (toBuffer data)).
Proof.
  assert (Hk : length (map (entropy w) (seq (cursor w) 32)) = 32)
    by now rewrite length_map, length_seq.
  eexists _, _. split; [apply generateKey_run|].
  split; [exact Hk|]. split; [reflexivity|]. split; [reflexivity|]. split.
  - eexists _, _. split; [apply generateKey_run | reflexivity].
  - eexists _, _. split; [apply encrypt_generated; [exact Hk | reflexivity]|].
    intros w3. rewrite decrypt_seal; [reflexivity | exact Hk | | reflexivity].
    intros E. pose proof (next_nonce_bytes (advance w 32 [RandomBytes 32])) as Hn.
    rewrite E in Hn. discriminate Hn.
Qed.

(** X2 ([generateRandomString]).  The generated nonce: six bytes of
    entropy are read, and the nonce is the hexadecimal form of the first
    three of them; the other three are dropped by [slice(0, 6)].  It has
    six characters, all of [0-9 a-f], and is six bytes long as UTF-8. *)
Theorem X2_generated_nonce (w : world) :
  exists s,
    generateRandomString w = (Return s, advance w 6 [RandomBytes 6])
    /\ s = hex_encode (map (entropy w) (seq (cursor w) 3))
    /\ length s = 6
    /\ forallb is_lower_hex s = true
    /\ length (utf8 s) = 6.
Proof.
  exists (next_nonce w). split; [apply generateRandomString_run|].
  split; [apply next_nonce_three_bytes|].
  split; [apply next_nonce_length|].
  split; [rewrite next_nonce_three_bytes; apply hex_encode_lower | apply next_nonce_bytes].
Qed.

(** ** [encrypt]: which calls succeed *)

(** X3 ([encrypt], all outcomes).  [encrypt] returns exactly when the key
    has 32 bytes and the fixed nonce is absent, empty or six characters
    long.  It fails with [InvalidKeyLength] exactly when the key has
    another length, and with [InvalidNonceLength] exactly when the key has
    32 bytes and a non-empty fixed nonce has another length than six.  It
    fails in no other way (no exception of [crypto] escapes), and a failed
    call leaves the world as it was: nothing is logged, no entropy is
    read.  A successful call makes the four calls of an encryption
    ([createCipheriv], [update], [final], [getAuthTag]); with a fixed nonce
    it reads no entropy, otherwise it first reads six bytes in one call of
    [randomBytes].  The nonce it returns has six characters, and is the
    fixed nonce when a non-empty one was given. *)
Theorem X3_encrypt_outcomes (data : StringOrBuffer) (key : bytes) (fixedIv : option jsstring)
  (w : world) :
  ((exists r w1, encrypt data key fixedIv w = (Return r, w1))
   <-> length key = 32 /\ (truthy fixedIv = false \/ length (chars fixedIv) = 6))
  /\ (fst (encrypt data key fixedIv w) = Throw InvalidKeyLength <-> length key <> 32)
  /\ (fst (encrypt data key fixedIv w) = Throw InvalidNonceLength
      <-> length key = 32 /\ truthy fixedIv = true /\ length (chars fixedIv) <> 6)
  /\ (forall e, fst (encrypt data key fixedIv w) = Throw e ->
        (e = InvalidKeyLength \/ e = InvalidNonceLength)
        /\ snd (encrypt data key fixedIv w) = w)
  /\ (forall r w1, encrypt data key fixedIv w = (Return r, w1) ->
        (w1 = if truthy fixedIv then logged w encrypt_calls
              else advance w 6 (RandomBytes 6 :: encrypt_calls))
        /\ length (iv r) = 6
        /\ (truthy fixedIv = true -> iv r = chars fixedIv)).
Proof.
  destruct (Nat.eq_dec (length key) 32) as [Hk|Hk].
  - destruct (truthy fixedIv) eqn:Ht.
    + destruct fixedIv as [[|c s]|]; try discriminate Ht. cbn [chars].
      destruct (Nat.eq_dec (length (c :: s)) 6) as [H6|H6].
      * rewrite encrypt_fixed by assumption. cbn [fst snd].
        split; [split; [auto | intros _; eauto]|].
        split; [split; [discriminate | tauto]|].
        split; [split; [discriminate | tauto]|].
        split; [discriminate|]. intros r w1 E. injection E as <- <-.
        cbn [seal iv]. auto.
      * rewrite encrypt_wrong_nonce by (assumption || discriminate). cbn [fst snd].
        split; [split; [intros (r & w1 & E); discriminate E
                       | intros (_ & [E|E]); [discriminate E | tauto]]|].
        split; [split; [discriminate | tauto]|].
        split; [tauto|].
        split; [intros e E; injection E as <-; auto | discriminate].
    + rewrite encrypt_generated by assumption. cbn [fst snd].
      split; [split; [auto | intros _; eauto]|].
      split; [split; [discriminate | tauto]|].
      split; [split; [discriminate | intros (_ & E & _); discriminate E]|].
      split; [discriminate|]. intros r w1 E. injection E as <- <-.
      cbn [seal iv]. split; [reflexivity|]. split; [apply next_nonce_length | discriminate].
  - rewrite encrypt_bad_key by assumption. cbn [fst snd].
    split; [split; [intros (r & w1 & E); discriminate E | tauto]|].
    split; [tauto|].
    split; [split; [discriminate | tauto]|].
    split; [intros e E; injection E as <-; auto | discriminate].
Qed.

(** ** The key check through the layers *)

Lemma decryptFromBuffer_bad_key blob key w :
  length key <> 32 -> decryptFromBuffer blob key w = (Throw InvalidKeyLength, w).
Proof. intros Hk. unfold decryptFromBuffer. now apply decrypt_bad_key. Qed.

(** X4 (key check of the buffer and text layers).  With a key that is not
    32 bytes long, [encryptToBuffer], [encryptToString], [decryptFromBuffer]
    and [decryptFromString] fail with [InvalidKeyLength] and leave the
    world as it was, whatever the plaintext, the fixed nonce, the blob or
    the text: the key is checked before the nonce, before the blob is
    looked at, and whether or not the text is base64. *)
Theorem X4_key_length_all_layers
  (data : StringOrBuffer) (fixedIv : option jsstring) (blob : bytes) (text : jsstring)
  (key : bytes) (w : world) :
  length key <> 32 ->
  encryptToBuffer data key fixedIv w = (Throw InvalidKeyLength, w)
  /\ encryptToString data key fixedIv w = (Throw InvalidKeyLength, w)
  /\ decryptFromBuffer blob key w = (Throw InvalidKeyLength, w)
  /\ decryptFromString text key w = (Throw InvalidKeyLength, w).
Proof.
  intros Hk.
  pose proof (encrypt_bad_key data key fixedIv w Hk) as He.
  split; [apply encryptToBuffer_throw, He|].
  split; [apply encryptToString_throw, He|].
  split; [now apply decryptFromBuffer_bad_key|].
  unfold decryptFromString. now apply decryptFromBuffer_bad_key.
Qed.

(** ** Unframing *)

(** X5 (unframing).  On a blob made of a 6-byte nonce, a 16-byte tag and a
    ciphertext, [decryptFromBuffer] is [decrypt] on these three parts; and
    [decryptFromString] on the base64 form of the blob is the same call. *)
Theorem X5_unframing (ivb tag ct key : bytes) (w : world) :
  length ivb = 6 -> length tag = 16 ->
  decryptFromBuffer (ivb ++ tag ++ ct) key w = decrypt ct key (Buf ivb) tag w
  /\ decryptFromString (base64_encode (ivb ++ tag ++ ct)) key w = decrypt ct key (Buf ivb) tag w.
Proof.
  intros Hi Ht.
  assert (E : decryptFromBuffer (ivb ++ tag ++ ct) key w = decrypt ct key (Buf ivb) tag w).
  { unfold decryptFromBuffer.
    destruct (blob_slices ivb tag ct Hi Ht) as (-> & -> & ->). reflexivity. }
  split; [exact E|].
  unfold decryptFromString. rewrite base64_roundtrip. exact E.
Qed.

(** ** [decrypt]: what it returns and how it fails *)

(** X6 ([decrypt], success).  Whenever [decrypt] returns, the key has 32
    bytes, the nonce is not empty, the tag has a length [setAuthTag]
    accepts and equals the leading bytes of the tag of the ciphertext
    under this key and nonce; the result is the ciphertext xor the key
    stream, of the same length as the ciphertext; and exactly the four
    calls [createDecipheriv], [setAuthTag], [update], [final] were made,
    no entropy read. *)
Theorem X6_decrypt_returns (ct key : bytes) (nonce : StringOrBuffer) (tag pt : bytes)
  (w w1 : world) :
  decrypt ct key nonce tag w = (Return pt, w1) ->
  length key = 32
  /\ toBuffer nonce <> []
  /\ valid_tag_length (length tag) = true
  /\ tag = firstn (length tag) (GCM.auth_tag key (toBuffer nonce) ct)
  /\ pt = xor_bytes ct (GCM.keystream key (toBuffer nonce) (length ct))
  /\ length pt = length ct
  /\ w1 = logged w decrypt_calls.
Proof.
  intros H.
  destruct (Nat.eq_dec (length key) 32) as [Hk|Hk];
    [| rewrite decrypt_bad_key in H by exact Hk; discriminate H].
  destruct (toBuffer nonce) as [|b ivb] eqn:Hi;
    [rewrite decrypt_empty_iv in H by assumption; discriminate H|].
  assert (Hne : toBuffer nonce <> []) by (rewrite Hi; discriminate).
  destruct (valid_tag_length (length tag)) eqn:Ht;
    [| rewrite decrypt_bad_tag_length in H by assumption; discriminate H].
  rewrite decrypt_run in H by assumption.
  destruct (tag_matches key (toBuffer nonce) ct tag) eqn:Hm; [|discriminate H].
  injection H as <- <-. rewrite <- Hi.
  split; [exact Hk|]. split; [exact Hne|]. split; [reflexivity|].
  split; [apply bytes_eqb_eq, Hm|]. split; [reflexivity|].
  split; [|reflexivity].
  unfold open_ct. rewrite xor_bytes_length, keystream_length. lia.
Qed.


(** X8 (how far [decrypt] gets).  Whatever its arguments, [decrypt] reads
    no entropy and makes its calls in one order, stopping at the first
    failure: none with [InvalidKeyLength]; [createDecipheriv] alone with
    its invalid-nonce exception; [createDecipheriv] and [setAuthTag] with
    the invalid-tag-length exception; all four ([createDecipheriv],
    [setAuthTag], [update], [final]) with [AuthenticationFailed] or a
    plaintext.  There is no other outcome.  [decryptFromBuffer] and
    [decryptFromString] read no entropy either. *)
Theorem X8_decrypt_effects (ct key : bytes) (nonce : StringOrBuffer) (tag : bytes)
  (blob : bytes) (text : jsstring) (w : world) :
  (exists cs,
      entropy (snd (decrypt ct key nonce tag w)) = entropy w
      /\ cursor (snd (decrypt ct key nonce tag w)) = cursor w
      /\ calls (snd (decrypt ct key nonce tag w)) = calls w ++ cs
      /\ ((cs = [] /\ fst (decrypt ct key nonce tag w) = Throw InvalidKeyLength)
          \/ (cs = [CreateDecipheriv]
              /\ fst (decrypt ct key nonce tag w) = Throw (CryptoError ERR_CRYPTO_INVALID_IV))
          \/ (cs = [CreateDecipheriv; SetAuthTag]
              /\ fst (decrypt ct key nonce tag w)
                 = Throw (CryptoError (ERR_CRYPTO_INVALID_AUTH_TAG (length tag))))
          \/ (cs = decrypt_calls
              /\ (fst (decrypt ct key nonce tag w) = Throw AuthenticationFailed
                  \/ exists pt, fst (decrypt ct key nonce tag w) = Return pt))))
  /\ cursor (snd (decryptFromBuffer blob key w)) = cursor w
  /\ cursor (snd (decryptFromString text key w)) = cursor w.
Proof.
  assert (D : forall ct nonce tag,
             exists cs,
               entropy (snd (decrypt ct key nonce tag w)) = entropy w
               /\ cursor (snd (decrypt ct key nonce tag w)) = cursor w
               /\ calls (snd (decrypt ct key nonce tag w)) = calls w ++ cs
               /\ ((cs = [] /\ fst (decrypt ct key nonce tag w) = Throw InvalidKeyLength)
                   \/ (cs = [CreateDecipheriv]
                       /\ fst (decrypt ct key nonce tag w)
                          = Throw (CryptoError ERR_CRYPTO_INVALID_IV))
                   \/ (cs = [CreateDecipheriv; SetAuthTag]
                       /\ fst (decrypt ct key nonce tag w)
                          = Throw (CryptoError (ERR_CRYPTO_INVALID_AUTH_TAG (length tag))))
                   \/ (cs = decrypt_calls
                       /\ (fst (decrypt ct key nonce tag w) = Throw AuthenticationFailed
                           \/ exists pt, fst (decrypt ct key nonce tag w) = Return pt)))).
  { clear ct nonce tag. intros ct nonce tag.
    destruct (Nat.eq_dec (length key) 32) as [Hk|Hk].
    - destruct (toBuffer nonce) as [|b ivb] eqn:Hi.
      + rewrite decrypt_empty_iv by assumption. cbn [fst snd logged entropy cursor calls].
        exists [CreateDecipheriv]. auto 10.
      + assert (Hne : toBuffer nonce <> []) by (rewrite Hi; discriminate).
        destruct (valid_tag_length (length tag)) eqn:Ht.
        * rewrite decrypt_run by assumption. cbn [fst snd logged entropy cursor calls].
          exists decrypt_calls. repeat (split; [reflexivity|]).
          right; right; right. split; [reflexivity|].
          destruct (tag_matches _ _ _ _); [right; eexists; reflexivity | left; reflexivity].
        * rewrite decrypt_bad_tag_length by assumption.
          cbn [fst snd logged entropy cursor calls].
          exists [CreateDecipheriv; SetAuthTag]. auto 10.
    - rewrite decrypt_bad_key by assumption. cbn [fst snd].
      exists []. rewrite app_nil_r. auto 10. }
  split; [apply D|].
  unfold decryptFromString, decryptFromBuffer.
  split.
  - destruct (D (subarray_from blob (ivLength + authTagLength))
                (Buf (subarray blob 0 ivLength))
                (subarray blob ivLength (ivLength + authTagLength))) as (cs & _ & H & _).
    exact H.
  - destruct (D (subarray_from (base64_decode text) (ivLength + authTagLength))
                (Buf (subarray (base64_decode text) 0 ivLength))
                (subarray (base64_decode text) ivLength (ivLength + authTagLength)))
      as (cs & _ & H & _).
    exact H.
Qed.

(** ** Tags *)

Lemma decrypt_sealed_with_tag key ivs data tag w :
  length key = 32 -> utf8 ivs <> [] -> valid_tag_length (length tag) = true ->
  decrypt (encrypted (seal key ivs data)) key (Str ivs) tag w
  = (if bytes_eqb tag (firstn (length tag) (authTag (seal key ivs data)))
     then Return (toBuffer data) else Throw AuthenticationFailed,
     logged w decrypt_calls).
Proof.
  intros Hk Hi Ht. cbn [seal encrypted authTag].
  rewrite decrypt_run by assumption. cbn [toBuffer]. unfold tag_matches, open_ct.
  now rewrite seal_ct_open.
Qed.

(** X9 (wrong tag).  For what [encrypt] returned, [decrypt] with any other
    16-byte tag than the one returned fails with [AuthenticationFailed],
    after the four calls of a full decryption.  This covers the tampered
    tag of the tests ([authTag[0] ^ 0xff]) and any number of flipped
    bits. *)
Theorem X9_wrong_tag_rejected
  (data : StringOrBuffer) (key : bytes) (fixedIv : option jsstring) (w w1 : world)
  (r : Encrypted) (tag : bytes) (w2 : world) :
  encrypt data key fixedIv w = (Return r, w1) ->
  length tag = 16 -> tag <> authTag r ->
  decrypt (encrypted r) key (Str (iv r)) tag w2
  = (Throw AuthenticationFailed, logged w2 decrypt_calls).
Proof.
  intros He Hl Hne.
  destruct (encrypt_returns _ _ _ _ _ _ He) as (Hk & ivs & -> & _ & Hi).
  cbn [iv seal]. fold (seal key ivs data).
  rewrite decrypt_sealed_with_tag; [| assumption | assumption | now rewrite Hl].
  rewrite Hl. replace 16 with (length (authTag (seal key ivs data))) at 1
    by apply auth_tag_length.
  rewrite firstn_all.
  destruct (bytes_eqb _ _) eqn:E; [|reflexivity].
  apply bytes_eqb_eq in E. contradiction.
Qed.

(** X10 (truncated tag).  [decrypt] does not insist on the 16 bytes of
    [authTagLength]: for what [encrypt] returned, the first 4, 8, 12, 13,
    14 or 15 bytes of the tag (and all 16) are accepted as the tag, and
    the plaintext is returned. *)
Theorem X10_truncated_tag_accepted
  (data : StringOrBuffer) (key : bytes) (fixedIv : option jsstring) (w w1 : world)
  (r : Encrypted) (n : nat) (w2 : world) :
  encrypt data key fixedIv w = (Return r, w1) ->
  valid_tag_length n = true ->
  length (firstn n (authTag r)) = n
  /\ decrypt (encrypted r) key (Str (iv r)) (firstn n (authTag r)) w2
     = (Return (toBuffer data), logged w2 decrypt_calls).
Proof.
  intros He Hn.
  destruct (encrypt_returns _ _ _ _ _ _ He) as (Hk & ivs & -> & _ & Hi).
  assert (Hle : n <= 16).
  { unfold valid_tag_length in Hn.
    destruct (Nat.eqb_spec n 4); [lia|]. destruct (Nat.eqb_spec n 8); [lia|].
    cbn [orb] in Hn. apply andb_true_iff in Hn as [_ Hn]. now apply Nat.leb_le in Hn. }
  assert (Hl : length (firstn n (authTag (seal key ivs data))) = n).
  { rewrite length_firstn. cbn [seal authTag]. rewrite auth_tag_length. lia. }
  split; [exact Hl|].
  cbn [iv]. rewrite decrypt_sealed_with_tag; [| assumption | assumption | now rewrite Hl].
  now rewrite Hl, bytes_eqb_refl.
Qed.

(** ** Nonces *)

Lemma xorb_common (a b c : bool) : xorb (xorb a c) (xorb b c) = xorb a b.
Proof. destruct a, b, c; reflexivity. Qed.

Lemma xor_bits_common (p q k : bits8) : xor_bits (xor_bits p k) (xor_bits q k) = xor_bits p q.
Proof.
  destruct p as [a0 [a1 [a2 [a3 [a4 [a5 [a6 a7]]]]]]].
  destruct q as [b0 [b1 [b2 [b3 [b4 [b5 [b6 b7]]]]]]].
  destruct k as [c0 [c1 [c2 [c3 [c4 [c5 [c6 c7]]]]]]].
  cbn [xor_bits]. now rewrite !xorb_common.
Qed.

Lemma xor_byte_common (x y k : byte) : xor_byte (xor_byte x k) (xor_byte y k) = xor_byte x y.
Proof. unfold xor_byte. now rewrite !Byte.to_bits_of_bits, xor_bits_common. Qed.

(** Two buffers under one pad: the pad cancels. *)
Lemma xor_bytes_common (K a b : bytes) :
  length a <= length K -> length b <= length K ->
  xor_bytes (xor_bytes a (firstn (length a) K)) (xor_bytes b (firstn (length b) K))
  = xor_bytes a b.
Proof.
  revert a b. induction K as [|k K IH]; intros [|x a] [|y b] Ha Hb;
    cbn in *; try lia; try reflexivity.
  now rewrite xor_byte_common, IH by lia.
Qed.

Lemma keystream_prefix (key ivb : bytes) (n m : nat) :
  n <= m -> GCM.keystream key ivb n = firstn n (GCM.keystream key ivb m).
Proof.
  intros H. unfold GCM.keystream.
  set (f := fun i => N_to_bytes 16 _).
  rewrite firstn_firstn, Nat.min_l by exact H.
  assert (Hd : (n + 15) / 16 <= (m + 15) / 16) by (apply Nat.Div0.div_le_mono; lia).
  replace ((m + 15) / 16) with ((n + 15) / 16 + ((m + 15) / 16 - (n + 15) / 16)) by lia.
  rewrite seq_app, flat_map_app, firstn_app.
  assert (Hl : length (flat_map f (seq 0 ((n + 15) / 16))) = 16 * ((n + 15) / 16)).
  { rewrite (flat_map_length_const _ 16) by (intros; apply N_to_bytes_length).
    now rewrite length_seq. }
  rewrite Hl.
  assert (Hn : n <= 16 * ((n + 15) / 16)).
  { pose proof (Nat.div_mod_eq (n + 15) 16).
    pose proof (Nat.mod_upper_bound (n + 15) 16). lia. }
  replace (n - 16 * ((n + 15) / 16)) with 0 by lia.
  cbn [firstn]. now rewrite app_nil_r.
Qed.

(** X11 (fixed nonce, two plaintexts).  Two calls of [encrypt] with the
    same 32-byte key and the same fixed nonce of six characters succeed
    under the same key stream: the xor of the two ciphertexts is the xor of
    the two plaintexts (over their common length), whatever the states the
    calls are made in. *)
Theorem X11_nonce_reuse_leaks_xor
  (d1 d2 : StringOrBuffer) (key : bytes) (nonce : jsstring) (w w' : world) :
  length key = 32 -> length nonce = 6 ->
  exists r1 r2,
    fst (encrypt d1 key (Some nonce) w) = Return r1
    /\ fst (encrypt d2 key (Some nonce) w') = Return r2
    /\ iv r1 = iv r2
    /\ xor_bytes (encrypted r1) (encrypted r2) = xor_bytes (toBuffer d1) (toBuffer d2).
Proof.
  intros Hk Hn. exists (seal key nonce d1), (seal key nonce d2).
  rewrite !encrypt_fixed by assumption.
  split; [reflexivity|]. split; [reflexivity|]. split; [reflexivity|].
  cbn [seal encrypted]. unfold seal_ct.
  set (a := toBuffer d1). set (b := toBuffer d2).
  set (K := GCM.keystream key (utf8 nonce) (Nat.max (length a) (length b))).
  rewrite (keystream_prefix key (utf8 nonce) (length a) (Nat.max (length a) (length b))) by lia.
  rewrite (keystream_prefix key (utf8 nonce) (length b) (Nat.max (length a) (length b))) by lia.
  apply xor_bytes_common; subst K; rewrite keystream_length; lia.
Qed.

(** X12 (successive generated nonces).  Two successive calls of [encrypt]
    without a fixed nonce succeed; the first nonce is the hexadecimal form
    of entropy bytes [c, c+3), the second of bytes [c+6, c+9), [c] being
    the position of the entropy source before the first call; and the two
    nonces are equal exactly when these two runs of three bytes are
    equal. *)
Theorem X12_generated_nonces (d1 d2 : StringOrBuffer) (key : bytes) (w : world) :
  length key = 32 ->
  exists r1 w1 r2 w2,
    encrypt d1 key None w = (Return r1, w1)
    /\ encrypt d2 key None w1 = (Return r2, w2)
    /\ iv r1 = hex_encode (map (entropy w) (seq (cursor w) 3))
    /\ iv r2 = hex_encode (map (entropy w) (seq (cursor w + 6) 3))
    /\ (iv r1 = iv r2
        <-> map (entropy w) (seq (cursor w) 3) = map (entropy w) (seq (cursor w + 6) 3)).
Proof.
  intros Hk. eexists _, _, _, _.
  split; [apply encrypt_generated; [exact Hk | reflexivity]|].
  split; [apply encrypt_generated; [exact Hk | reflexivity]|].
  cbn [seal iv]. rewrite !next_nonce_three_bytes. cbn [advance entropy cursor].
  split; [reflexivity|]. split; [reflexivity|].
  split; [apply hex_encode_injective | intros ->; reflexivity].
Qed.

(** ** The size of an encoded string *)

Lemma utf8_code_point_length (c : N) :
  1 <= length (utf8_code_point c) <= 4
  /\ (length (utf8_code_point c) = 1 -> (c < 128)%N)
  /\ ((c < 65536)%N -> length (utf8_code_point c) <= 3).
Proof.
  unfold utf8_code_point.
  destruct (N.ltb_spec c 128); [cbn; lia|].
  destruct (N.ltb_spec c 2048); [cbn; lia|].
  destruct (N.ltb_spec c 65536); cbn; lia.
Qed.

Lemma utf8_pair_length (u l : N) :
  length (utf8_code_point (65536 + (u - 55296) * 1024 + (l - 56320))) = 4.
Proof.
  unfold utf8_code_point.
  destruct (N.ltb_spec (65536 + (u - 55296) * 1024 + (l - 56320)) 128); [lia|].
  destruct (N.ltb_spec (65536 + (u - 55296) * 1024 + (l - 56320)) 2048); [lia|].
  destruct (N.ltb_spec (65536 + (u - 55296) * 1024 + (l - 56320)) 65536); [lia|].
  reflexivity.
Qed.

(** At least one byte per code unit, and exactly one only for ASCII. *)
Lemma utf8_length_bounded (n : nat) (s : jsstring) :
  length s <= n ->
  length s <= length (utf8 s)
  /\ (length (utf8 s) = length s -> is_ascii s)
  /\ (Forall (fun c => (c < 65536)%N) s -> length (utf8 s) <= 3 * length s).
Proof.
  revert s. induction n as [|n IH]; intros s Hn.
  - destruct s; [|cbn in Hn; lia]. cbn. split; [lia|]. split; [constructor | lia].
  - destruct s as [|u rest]; [cbn; split; [lia|]; split; [constructor | lia]|].
    cbn [length] in Hn.
    destruct (IH rest ltac:(lia)) as (Hr & Ha & Hu).
    assert (Hrep : length replacement = 3) by reflexivity.
    assert (Hw : forall P : Prop, (Forall (fun c => (c < 65536)%N) rest -> P) ->
                 Forall (fun c => (c < 65536)%N) (u :: rest) -> P).
    { intros P HP F. inversion F. auto. }
    cbn [utf8].
    destruct (is_high_surrogate u) eqn:Hh.
    + destruct rest as [|l rest'].
      * rewrite Hrep. cbn [length]. split; [lia|]. split; intros; lia.
      * destruct (is_low_surrogate l) eqn:Hl.
        -- destruct (IH rest' ltac:(cbn [length] in Hn; lia)) as (Hr' & _ & Hu').
           rewrite length_app, utf8_pair_length. cbn [length] in *.
           split; [lia|]. split; [intros; lia|].
           intros F. inversion F as [|? ? _ F']. inversion F' as [|? ? _ F''].
           specialize (Hu' F''). lia.
        -- rewrite length_app, Hrep. cbn [length] in *.
           split; [lia|]. split; [intros; lia|]. apply Hw. intros F. specialize (Hu F). lia.
    + destruct (is_low_surrogate u) eqn:Hl.
      * rewrite length_app, Hrep. cbn [length] in *.
        split; [lia|]. split; [intros; lia|]. apply Hw. intros F. specialize (Hu F). lia.
      * rewrite length_app. cbn [length].
        pose proof (utf8_code_point_length u) as (B & O & T).
        split; [lia|]. split.
        -- intros E. constructor; [apply O; lia | apply Ha; lia].
        -- intros F. inversion F as [|? ? Fu F']. specialize (T Fu). specialize (Hu F'). lia.
Qed.

Lemma utf8_length_ge (s : jsstring) : length s <= length (utf8 s).
Proof. apply (utf8_length_bounded (length s)). lia. Qed.

Lemma utf8_length_ascii (s : jsstring) : length (utf8 s) = length s <-> is_ascii s.
Proof.
  split; [apply (utf8_length_bounded (length s)); lia | apply utf8_ascii_length].
Qed.

Lemma utf8_length_le (s : jsstring) :
  Forall (fun c => (c < 65536)%N) s -> length (utf8 s) <= 3 * length s.
Proof. apply (utf8_length_bounded (length s)). lia. Qed.

(** ** Fixed nonces through the layers *)

(** X13 (fixed nonce through the layers).  With a 32-byte key and a fixed
    nonce of six characters, [encrypt], [encryptToBuffer] and
    [encryptToString] succeed, reading no entropy and making the four calls
    of an encryption; the nonce returned is the one given; the blob is the
    nonce bytes, the tag and the ciphertext, and the text is the base64
    form of the blob; [decrypt] with the returned ciphertext, nonce and tag
    gives the plaintext back.  When the six characters are ASCII the blob
    has [22 + len] bytes, and [decryptFromBuffer] and [decryptFromString]
    give the plaintext back as well. *)
Theorem X13_fixed_nonce_roundtrip
  (data : StringOrBuffer) (key : bytes) (nonce : jsstring) (w : world) :
  length key = 32 -> length nonce = 6 ->
  exists r blob text,
    encrypt data key (Some nonce) w = (Return r, logged w encrypt_calls)
    /\ encryptToBuffer data key (Some nonce) w = (Return blob, logged w encrypt_calls)
    /\ encryptToString data key (Some nonce) w = (Return text, logged w encrypt_calls)
    /\ iv r = nonce
    /\ blob = utf8 nonce ++ authTag r ++ encrypted r
    /\ text = base64_encode blob
    /\ (forall w2,
          fst (decrypt (encrypted r) key (Str nonce) (authTag r) w2) = Return (toBuffer data))
    /\ (is_ascii nonce ->
        length blob = 22 + length (toBuffer data)
        /\ forall w2,
             fst (decryptFromBuffer blob key w2) = Return (toBuffer data)
             /\ fst (decryptFromString text key w2) = Return (toBuffer data)).
Proof.
  intros Hk Hn.
  pose proof (encrypt_fixed data key nonce w Hk Hn) as He.
  eexists _, _, _. split; [exact He|].
  split; [apply encryptToBuffer_run, He|].
  split; [apply encryptToString_run, He|].
  cbn [iv]. split; [reflexivity|]. split; [reflexivity|]. split; [reflexivity|].
  split.
  - intros w2. rewrite decrypt_seal; [reflexivity | assumption | | reflexivity].
    destruct nonce as [|c s]; [discriminate Hn|].
    pose proof (utf8_nonempty c s) as U. intros E. rewrite E in U. discriminate U.
  - intros Ha.
    assert (Hb : length (utf8 nonce) = 6) by now rewrite utf8_ascii_length.
    split.
    { cbn [seal iv authTag encrypted].
      rewrite !length_app, Hb, auth_tag_length, seal_ct_length. lia. }
    intros w2. split.
    + now rewrite decryptFromBuffer_seal.
    + unfold decryptFromString. now rewrite base64_roundtrip, decryptFromBuffer_seal.
Qed.

(** X14 (width of the nonce field).  [encrypt] counts the characters of a
    fixed nonce, [encryptToBuffer] writes its UTF-8 bytes.  With a 32-byte
    key and a fixed nonce of six characters the blob has
    [len(utf8 nonce) + 16 + len] bytes, where the nonce takes at least 6
    bytes, and at most 18 when its characters are 16-bit code units; the
    blob has the [22 + len] bytes of the documented layout exactly when
    the nonce is ASCII.  When it is not, the first six bytes of the blob
    are not the nonce, and [decryptFromBuffer] calls [decrypt] with a nonce
    cut to six bytes and a tag slice that starts inside the nonce. *)
Theorem X14_nonce_field_width
  (data : StringOrBuffer) (key : bytes) (nonce : jsstring) (w : world) :
  length key = 32 -> length nonce = 6 ->
  exists blob,
    encryptToBuffer data key (Some nonce) w = (Return blob, logged w encrypt_calls)
    /\ length blob = length (utf8 nonce) + 16 + length (toBuffer data)
    /\ 6 <= length (utf8 nonce)
    /\ (Forall (fun c => (c < 65536)%N) nonce -> length (utf8 nonce) <= 18)
    /\ (length blob = 22 + length (toBuffer data) <-> is_ascii nonce)
    /\ (~ is_ascii nonce ->
        subarray blob 0 6 <> utf8 nonce
        /\ decryptFromBuffer blob key w
           = decrypt (skipn 22 blob) key (Buf (firstn 6 (utf8 nonce))) (firstn 16 (skipn 6 blob)) w).
Proof.
  intros Hk Hn.
  pose proof (encrypt_fixed data key nonce w Hk Hn) as He.
  eexists. split; [apply encryptToBuffer_run, He|].
  cbn [iv seal authTag encrypted].
  set (ct := seal_ct key nonce (toBuffer data)).
  set (tag := GCM.auth_tag key (utf8 nonce) ct).
  assert (Hl : length (utf8 nonce ++ tag ++ ct)
               = length (utf8 nonce) + 16 + length (toBuffer data)).
  { subst tag ct. rewrite !length_app, auth_tag_length, seal_ct_length. lia. }
  pose proof (utf8_length_ge nonce) as Hge. rewrite Hn in Hge.
  split; [exact Hl|]. split; [exact Hge|].
  split; [intros F; apply utf8_length_le in F; lia|].
  split.
  { rewrite Hl, <- utf8_length_ascii, Hn. lia. }
  intros Hna.
  assert (Hgt : 6 < length (utf8 nonce)).
  { destruct (Nat.eq_dec (length (utf8 nonce)) 6) as [E|E]; [|lia].
    exfalso. apply Hna, utf8_length_ascii. lia. }
  assert (Hf : firstn 6 (utf8 nonce ++ tag ++ ct) = firstn 6 (utf8 nonce)).
  { rewrite firstn_app. replace (6 - length (utf8 nonce)) with 0 by lia.
    cbn [firstn]. apply app_nil_r. }
  split.
  - unfold subarray. cbn [skipn Nat.sub]. rewrite Hf.
    intros E. apply (f_equal (@length byte)) in E. rewrite length_firstn in E. lia.
  - unfold decryptFromBuffer, subarray, subarray_from, ivLength, authTagLength.
    cbn [skipn Nat.sub Nat.add]. rewrite Hf. reflexivity.
Qed.

(** ** The text envelope *)

Lemma sextet_char_standard (s : sextet) : in_standard_alphabet (sextet_char s) = true.
Proof. destruct s as [[[[[[] []] []] []] []] []]; reflexivity. Qed.

Lemma base64_encode_shape (n : nat) (b : bytes) :
  length b <= n ->
  valid_base64 (base64_encode b) = true
  /\ length (base64_encode b) = 4 * ((length b + 2) / 3).
Proof.
  unfold valid_base64. revert b. induction n as [|n IH]; intros b Hn.
  - destruct b; [split; reflexivity | cbn in Hn; lia].
  - destruct b as [|a0 [|a1 [|a2 rest]]]; [split; reflexivity | | |].
    + cbn [base64_encode]. destruct (encode3 a0 x00 x00) as [[[s1 s2] s3] s4].
      cbn [valid_base64_groups]. rewrite !sextet_char_standard. split; reflexivity.
    + cbn [base64_encode]. destruct (encode3 a0 a1 x00) as [[[s1 s2] s3] s4].
      cbn [valid_base64_groups]. rewrite !sextet_char_standard. split; reflexivity.
    + destruct (IH rest ltac:(cbn in Hn; lia)) as (Hv & Hl).
      cbn [base64_encode]. destruct (encode3 a0 a1 a2) as [[[s1 s2] s3] s4].
      split.
      * cbn [valid_base64_groups]. rewrite !sextet_char_standard, Hv.
        destruct (base64_encode rest); reflexivity.
      * cbn [length]. rewrite Hl.
        replace (S (S (S (length rest))) + 2) with (length rest + 2 + 1 * 3) by lia.
        rewrite Nat.div_add by lia. lia.
Qed.

(** X15 (the text is base64).  Whatever [encryptToString] returns is valid
    base64 of the standard alphabet with padding: it is the base64 form of
    the blob [encryptToBuffer] returns for the same call, decodes to that
    blob, has [4 * ceil(n / 3)] characters for a blob of [n] bytes, and so
    at least 32 characters. *)
Theorem X15_text_is_base64
  (data : StringOrBuffer) (key : bytes) (fixedIv : option jsstring) (w w1 : world)
  (text : jsstring) :
  encryptToString data key fixedIv w = (Return text, w1) ->
  valid_base64 text = true
  /\ exists blob,
       encryptToBuffer data key fixedIv w = (Return blob, w1)
       /\ text = base64_encode blob
       /\ base64_decode text = blob
       /\ 22 + length (toBuffer data) <= length blob
       /\ length text = 4 * ((length blob + 2) / 3)
       /\ 32 <= length text.
Proof.
  intros H.
  destruct (encrypt data key fixedIv w) as [[r|e] w'] eqn:He;
    [| rewrite (encryptToString_throw _ _ _ _ _ _ He) in H; discriminate H].
  rewrite (encryptToString_run _ _ _ _ _ _ He) in H. injection H as <- <-.
  set (blob := utf8 (iv r) ++ authTag r ++ encrypted r).
  destruct (base64_encode_shape (length blob) blob (le_n _)) as (Hv & Hl).
  split; [exact Hv|]. exists blob.
  split; [apply encryptToBuffer_run, He|]. split; [reflexivity|].
  split; [apply base64_roundtrip|].
  assert (Hb : 22 + length (toBuffer data) <= length blob).
  { destruct (encrypt_returns _ _ _ _ _ _ He) as (Hk & ivs & -> & Hi & _).
    subst blob. cbn [seal iv authTag encrypted].
    rewrite !length_app, auth_tag_length, seal_ct_length.
    pose proof (utf8_length_ge ivs). lia. }
  split; [exact Hb|]. split; [exact Hl|].
  rewrite Hl.
  assert (8 <= (length blob + 2) / 3); [|lia].
  change 8 with (24 / 3). apply Nat.Div0.div_le_mono. lia.
Qed.




(** ** A changed ciphertext *)

(** X17 (ciphertext changed inside one block).  Under a key whose hash
    subkey (the encryption of the zero block) is not zero, take what
    [encrypt] returned and replace the ciphertext by any other buffer of the
    same length that differs from it only inside one 16-byte block, bytes
    [16 j] to [16 j + 15]: [decrypt] fails with [AuthenticationFailed].
    This covers one changed byte (the [encrypted[0] ^ 0xff] of the tests),
    any number of flipped bits of one block, and every change of a
    ciphertext of at most 16 bytes. *)
Theorem X17_block_tampering
  (data : StringOrBuffer) (key : bytes) (fixedIv : option jsstring) (w w1 : world)
  (r : Encrypted) (ct' : bytes) (j : nat) (w2 : world) :
  encrypt data key fixedIv w = (Return r, w1) ->
  GCM.hash_subkey key <> 0%N ->
  length ct' = length (encrypted r) ->
  firstn (16 * j) ct' = firstn (16 * j) (encrypted r) ->
  skipn (16 * S j) ct' = skipn (16 * S j) (encrypted r) ->
  ct' <> encrypted r ->
  decrypt ct' key (Str (iv r)) (authTag r) w2
  = (Throw AuthenticationFailed, logged w2 decrypt_calls).
Proof.
  intros He Hh Hl Hf Hs Hne.
  destruct (encrypt_returns _ _ _ _ _ _ He) as (Hk & ivs & -> & _ & Hi).
  cbn [iv seal encrypted authTag] in *.
  set (ct := seal_ct key ivs (toBuffer data)) in *.
  rewrite decrypt_run; [| assumption | assumption | now rewrite auth_tag_length].
  cbn [toBuffer]. unfold tag_matches.
  rewrite (auth_tag_length key (utf8 ivs) ct).
  rewrite <- (auth_tag_length key (utf8 ivs) ct'), firstn_all.
  destruct (bytes_eqb _ _) eqn:E; [|reflexivity].
  apply bytes_eqb_eq in E. exfalso. symmetry in E. revert E.
  now apply (GF128_field.auth_tag_block key (utf8 ivs) ct ct' j).
Qed.

(** X18 (a changed blob or text).  Take the blob [encryptToBuffer] returns
    under a 32-byte key without a fixed nonce: nonce, tag, ciphertext.
    With the nonce in place, [decryptFromBuffer] fails with
    [AuthenticationFailed] on the blob with any other 16 bytes in the tag
    field, and, when the hash subkey of the key is not zero, on the blob
    with its ciphertext changed inside one 16-byte block of the
    ciphertext; and so does [decryptFromString] on the base64 form of
    these blobs. *)
Theorem X18_blob_tampering (data : StringOrBuffer) (key : bytes) (w : world) :
  length key = 32 ->
  exists r blob w1,
    encrypt data key None w = (Return r, w1)
    /\ encryptToBuffer data key None w = (Return blob, w1)
    /\ blob = utf8 (iv r) ++ authTag r ++ encrypted r
    /\ (forall tag' w2,
          length tag' = 16 -> tag' <> authTag r ->
          decryptFromBuffer (utf8 (iv r) ++ tag' ++ encrypted r) key w2
          = (Throw AuthenticationFailed, logged w2 decrypt_calls)
          /\ decryptFromString (base64_encode (utf8 (iv r) ++ tag' ++ encrypted r)) key w2
             = (Throw AuthenticationFailed, logged w2 decrypt_calls))
    /\ (GCM.hash_subkey key <> 0%N ->
        forall ct' j w2,
          length ct' = length (encrypted r) ->
          firstn (16 * j) ct' = firstn (16 * j) (encrypted r) ->
          skipn (16 * S j) ct' = skipn (16 * S j) (encrypted r) ->
          ct' <> encrypted r ->
          decryptFromBuffer (utf8 (iv r) ++ authTag r ++ ct') key w2
          = (Throw AuthenticationFailed, logged w2 decrypt_calls)
          /\ decryptFromString (base64_encode (utf8 (iv r) ++ authTag r ++ ct')) key w2
             = (Throw AuthenticationFailed, logged w2 decrypt_calls)).
Proof.
  intros Hk.
  pose proof (encrypt_generated data key None w Hk eq_refl) as He.
  pose proof (next_nonce_bytes w) as Hn.
  assert (Hi : utf8 (next_nonce w) <> []) by (intros E; rewrite E in Hn; discriminate Hn).
  assert (U : forall tag ct w2,
             length tag = 16 ->
             decryptFromBuffer (utf8 (next_nonce w) ++ tag ++ ct) key w2
             = decrypt ct key (Buf (utf8 (next_nonce w))) tag w2
             /\ decryptFromString (base64_encode (utf8 (next_nonce w) ++ tag ++ ct)) key w2
                = decrypt ct key (Buf (utf8 (next_nonce w))) tag w2).
  { intros tag ct w2 Ht.
    assert (E : decryptFromBuffer (utf8 (next_nonce w) ++ tag ++ ct) key w2
                = decrypt ct key (Buf (utf8 (next_nonce w))) tag w2).
    { unfold decryptFromBuffer.
      destruct (blob_slices (utf8 (next_nonce w)) tag ct Hn Ht) as (-> & -> & ->).
      reflexivity. }
    split; [exact E|]. unfold decryptFromString. now rewrite base64_roundtrip. }
  eexists _, _, _. split; [exact He|]. split; [apply encryptToBuffer_run, He|].
  cbn [iv seal encrypted authTag].
  set (ct := seal_ct key (next_nonce w) (toBuffer data)).
  set (tag := GCM.auth_tag key (utf8 (next_nonce w)) ct).
  split; [reflexivity|]. split.
  - intros tag' w2 Hl Hne.
    destruct (U tag' ct w2 Hl) as (-> & ->).
    assert (D : decrypt ct key (Buf (utf8 (next_nonce w))) tag' w2
                = (Throw AuthenticationFailed, logged w2 decrypt_calls)).
    { rewrite decrypt_run; [| assumption | assumption | now rewrite Hl].
      cbn [toBuffer]. unfold tag_matches. rewrite Hl.
      rewrite <- (auth_tag_length key (utf8 (next_nonce w)) ct), firstn_all.
      destruct (bytes_eqb _ _) eqn:E; [|reflexivity].
      apply bytes_eqb_eq in E. contradiction. }
    rewrite D. split; reflexivity.
  - intros Hh ct' j w2 Hl Hf Hs Hne.
    destruct (U tag ct' w2 (auth_tag_length _ _ _)) as (-> & ->).
    assert (D : decrypt ct' key (Buf (utf8 (next_nonce w))) tag w2
                = (Throw AuthenticationFailed, logged w2 decrypt_calls)).
    { rewrite decrypt_run; [| assumption | assumption | subst tag; now rewrite auth_tag_length].
      cbn [toBuffer]. unfold tag_matches. subst tag.
      rewrite (auth_tag_length key (utf8 (next_nonce w)) ct).
      rewrite <- (auth_tag_length key (utf8 (next_nonce w)) ct'), firstn_all.
      destruct (bytes_eqb _ _) eqn:E; [|reflexivity].
      apply bytes_eqb_eq in E. exfalso. symmetry in E. revert E.
      now apply (GF128_field.auth_tag_block key (utf8 (next_nonce w)) ct ct' j). }
    rewrite D. split; reflexivity.
Qed.

(** ** Strings read back *)

Module DecodeFacts.
Import GF128.
Local Open Scope N_scope.

Lemma byte_value (n : N) : n < 256 -> Byte.to_N (byte_of_N n) = n.
Proof. intros H. rewrite to_N_byte_of_N. now apply N.mod_small. Qed.

(** The decoder, one byte at a time. *)
Lemma decode_ascii (x : byte) (rest : bytes) :
  Byte.to_N x < 128 ->
  utf8_decode 0 0 128 191 (x :: rest) = Byte.to_N x :: utf8_decode 0 0 128 191 rest.
Proof. intros H. cbn [utf8_decode]. apply N.ltb_lt in H. now rewrite H. Qed.

Lemma decode_lead2 (x : byte) (rest : bytes) :
  194 <= Byte.to_N x <= 223 ->
  utf8_decode 0 0 128 191 (x :: rest) = utf8_decode 1 (Byte.to_N x - 192) 128 191 rest.
Proof.
  intros [H1 H2]. cbn [utf8_decode].
  destruct (N.ltb_spec (Byte.to_N x) 128); [lia|].
  apply N.leb_le in H1, H2. now rewrite H1, H2.
Qed.

Lemma decode_lead3 (x : byte) (rest : bytes) :
  224 <= Byte.to_N x <= 239 ->
  utf8_decode 0 0 128 191 (x :: rest)
  = utf8_decode 2 (Byte.to_N x - 224)
      (if Byte.to_N x =? 224 then 160 else 128) (if Byte.to_N x =? 237 then 159 else 191) rest.
Proof.
  intros [H1 H2]. cbn [utf8_decode].
  destruct (N.ltb_spec (Byte.to_N x) 128); [lia|].
  destruct (N.leb_spec (Byte.to_N x) 223); [lia|]. rewrite andb_false_r.
  apply N.leb_le in H1, H2. now rewrite H1, H2.
Qed.

Lemma decode_lead4 (x : byte) (rest : bytes) :
  240 <= Byte.to_N x <= 244 ->
  utf8_decode 0 0 128 191 (x :: rest)
  = utf8_decode 3 (Byte.to_N x - 240)
      (if Byte.to_N x =? 240 then 144 else 128) (if Byte.to_N x =? 244 then 143 else 191) rest.
Proof.
  intros [H1 H2]. cbn [utf8_decode].
  destruct (N.ltb_spec (Byte.to_N x) 128); [lia|].
  destruct (N.leb_spec (Byte.to_N x) 223); [lia|]. rewrite andb_false_r.
  destruct (N.leb_spec (Byte.to_N x) 239); [lia|]. rewrite andb_false_r.
  apply N.leb_le in H1, H2. now rewrite H1, H2.
Qed.

Lemma decode_continue (n : nat) (cp lower upper : N) (x : byte) (rest : bytes) :
  lower <= Byte.to_N x <= upper ->
  utf8_decode (S (S n)) cp lower upper (x :: rest)
  = utf8_decode (S n) (cp * 64 + (Byte.to_N x - 128)) 128 191 rest.
Proof. intros [H1 H2]. cbn [utf8_decode]. apply N.leb_le in H1, H2. now rewrite H1, H2. Qed.

Lemma decode_last (cp lower upper : N) (x : byte) (rest : bytes) :
  lower <= Byte.to_N x <= upper ->
  utf8_decode 1 cp lower upper (x :: rest)
  = utf16_code_point (cp * 64 + (Byte.to_N x - 128)) ++ utf8_decode 0 0 128 191 rest.
Proof. intros [H1 H2]. cbn [utf8_decode]. apply N.leb_le in H1, H2. now rewrite H1, H2. Qed.

Section Arithmetic.
Ltac Zify.zify_post_hook ::= Z.to_euclidean_division_equations.

(** Decoding undoes the encoding of a code point that is not a surrogate. *)
Lemma decode_code_point (c : N) (rest : bytes) :
  c < 1114112 -> (c < 55296 \/ 57343 < c) ->
  utf8_decode 0 0 128 191 (utf8_code_point c ++ rest)
  = utf16_code_point c ++ utf8_decode 0 0 128 191 rest.
Proof.
  intros Hc Hs. unfold utf8_code_point.
  destruct (N.ltb_spec c 128) as [H1|H1]; [|destruct (N.ltb_spec c 2048) as [H2|H2];
    [|destruct (N.ltb_spec c 65536) as [H3|H3]]]; cbn [app].
  - rewrite decode_ascii; rewrite byte_value by lia; [|lia].
    unfold utf16_code_point. destruct (N.ltb_spec c 65536); [reflexivity | lia].
  - rewrite decode_lead2 by (rewrite byte_value; lia).
    rewrite decode_last by (rewrite byte_value; lia).
    rewrite !byte_value by lia. f_equal. f_equal. lia.
  - rewrite decode_lead3 by (rewrite byte_value; lia).
    rewrite (byte_value (224 + c / 4096)) by lia.
    rewrite decode_continue
      by (rewrite byte_value by lia;
          destruct (N.eqb_spec (224 + c / 4096) 224), (N.eqb_spec (224 + c / 4096) 237); lia).
    rewrite decode_last by (rewrite byte_value; lia).
    rewrite !byte_value by lia. f_equal. f_equal. lia.
  - rewrite decode_lead4 by (rewrite byte_value; lia).
    rewrite (byte_value (240 + c / 262144)) by lia.
    rewrite decode_continue
      by (rewrite byte_value by lia;
          destruct (N.eqb_spec (240 + c / 262144) 240), (N.eqb_spec (240 + c / 262144) 244); lia).
    rewrite decode_continue by (rewrite byte_value; lia).
    rewrite decode_last by (rewrite byte_value; lia).
    rewrite !byte_value by lia. f_equal. f_equal. lia.
Qed.

Lemma surrogate_pair_value (u l : N) :
  is_high_surrogate u = true -> is_low_surrogate l = true ->
  let c := 65536 + (u - 55296) * 1024 + (l - 56320) in
  c < 1114112 /\ 57343 < c /\ utf16_code_point c = [u; l].
Proof.
  unfold is_high_surrogate, is_low_surrogate. intros Hu Hl.
  apply andb_true_iff in Hu as [Hu1 Hu2]. apply andb_true_iff in Hl as [Hl1 Hl2].
  apply N.leb_le in Hu1, Hu2, Hl1, Hl2. cbv zeta.
  split; [lia|]. split; [lia|].
  unfold utf16_code_point.
  destruct (N.ltb_spec (65536 + (u - 55296) * 1024 + (l - 56320)) 65536); [lia|].
  f_equal; [lia | f_equal; lia].
Qed.

End Arithmetic.

Lemma decode_replacement (rest : bytes) :
  utf8_decode 0 0 128 191 (replacement ++ rest) = 65533 :: utf8_decode 0 0 128 191 rest.
Proof. reflexivity. Qed.

Lemma not_surrogate (u : N) :
  is_high_surrogate u = false -> is_low_surrogate u = false -> u < 55296 \/ 57343 < u.
Proof.
  unfold is_high_surrogate, is_low_surrogate. intros Hh Hl.
  apply andb_false_iff in Hh. apply andb_false_iff in Hl.
  destruct Hh as [H|H], Hl as [H'|H']; apply N.leb_gt in H, H'; lia.
Qed.

Lemma decode_utf8_bounded (n : nat) (s : jsstring) :
  (length s <= n)%nat -> Forall (fun c => c < 65536) s ->
  toString_utf8 (utf8 s) = toWellFormed s.
Proof.
  unfold toString_utf8. revert s. induction n as [|n IH]; intros s Hn F.
  - destruct s; [reflexivity | cbn in Hn; lia].
  - destruct s as [|u rest]; [reflexivity|].
    inversion F as [|? ? Fu Fr]; subst. cbn [length] in Hn.
    cbn [utf8 toWellFormed].
    destruct (is_high_surrogate u) eqn:Hh.
    + destruct rest as [|l rest']; [reflexivity|].
      destruct (is_low_surrogate l) eqn:Hl.
      * destruct (surrogate_pair_value u l Hh Hl) as (B1 & B2 & E).
        rewrite decode_code_point by (assumption || (right; assumption)).
        rewrite E. inversion Fr; subst. cbn [app]. f_equal. f_equal.
        apply IH; [cbn [length] in Hn; lia | assumption].
      * rewrite decode_replacement. f_equal. apply IH; [lia | assumption].
    + destruct (is_low_surrogate u) eqn:Hl.
      * rewrite decode_replacement. f_equal. apply IH; [lia | assumption].
      * rewrite decode_code_point; [| lia | now apply not_surrogate].
        unfold utf16_code_point. destruct (N.ltb_spec u 65536); [|lia].
        cbn [app]. f_equal. apply IH; [lia | assumption].
Qed.

(** [Buffer.from(s, "utf8").toString("utf8")] is [s.toWellFormed()]. *)
Lemma decode_utf8 (s : jsstring) :
  Forall (fun c => c < 65536) s -> toString_utf8 (utf8 s) = toWellFormed s.
Proof. apply (decode_utf8_bounded (length s)). lia. Qed.

Lemma toWellFormed_bounded (n : nat) (s : jsstring) :
  (length s <= n)%nat -> (toWellFormed s = s <-> isWellFormed s = true).
Proof.
  revert s. induction n as [|n IH]; intros s Hn.
  - destruct s; [split; reflexivity | cbn in Hn; lia].
  - destruct s as [|u rest]; [split; reflexivity|].
    cbn [length] in Hn. cbn [toWellFormed isWellFormed].
    assert (Hne : forall v, (is_high_surrogate v = true \/ is_low_surrogate v = true) -> 65533 <> v).
    { intros v [H|H] <-; discriminate H. }
    destruct (is_high_surrogate u) eqn:Hh.
    + destruct rest as [|l rest'].
      * split; [intros E; injection E as E; exfalso; revert E; apply Hne; auto | discriminate].
      * destruct (is_low_surrogate l) eqn:Hl; cbn [andb].
        -- rewrite <- (IH rest') by (cbn [length] in Hn; lia).
           split; [intros E; now injection E | intros ->; reflexivity].
        -- split; [intros E; injection E as E; exfalso; revert E; apply Hne; auto | discriminate].
    + destruct (is_low_surrogate u) eqn:Hl; cbn [negb andb].
      * split; [intros E; injection E as E; exfalso; revert E; apply Hne; auto | discriminate].
      * rewrite <- (IH rest) by lia.
        split; [intros E; now injection E | intros ->; reflexivity].
Qed.

Lemma toWellFormed_fixed (s : jsstring) : toWellFormed s = s <-> isWellFormed s = true.
Proof. apply (toWellFormed_bounded (length s)). lia. Qed.

End DecodeFacts.

(** X19 (strings in, strings out).  For a string plaintext of 16-bit code
    units and a 32-byte key, [encrypt] then [decrypt], and
    [encryptToString] then [decryptFromString], succeed, and reading the
    result with [toString("utf8")], as the tests and the example do, gives
    the plaintext with every surrogate that has no partner replaced by
    U+FFFD: the plaintext itself exactly when it is well formed. *)
Theorem X19_string_roundtrip (s : jsstring) (key : bytes) (w : world) :
  length key = 32 -> Forall (fun c => (c < 65536)%N) s ->
  (exists r w1,
      encrypt (Str s) key None w = (Return r, w1)
      /\ forall w2, exists pt,
           fst (decrypt (encrypted r) key (Str (iv r)) (authTag r) w2) = Return pt
           /\ toString_utf8 pt = toWellFormed s)
  /\ (exists text w1,
         encryptToString (Str s) key None w = (Return text, w1)
         /\ forall w2, exists pt,
              fst (decryptFromString text key w2) = Return pt
              /\ toString_utf8 pt = toWellFormed s)
  /\ (toWellFormed s = s <-> isWellFormed s = true).
Proof.
  intros Hk F.
  pose proof (encrypt_generated (Str s) key None w Hk eq_refl) as He.
  pose proof (next_nonce_bytes w) as Hn.
  split; [|split].
  - eexists _, _. split; [exact He|]. intros w2. exists (utf8 s). split.
    + rewrite decrypt_seal; [reflexivity | assumption | | reflexivity].
      intros E. rewrite E in Hn. discriminate Hn.
    + now apply DecodeFacts.decode_utf8.
  - eexists _, _. split; [apply encryptToString_run; exact He|]. intros w2.
    exists (utf8 s). split.
    + unfold decryptFromString. rewrite base64_roundtrip.
      cbn [iv seal]. now rewrite decryptFromBuffer_seal.
    + now apply DecodeFacts.decode_utf8.
  - apply DecodeFacts.toWellFormed_fixed.
Qed.

(** ** The further properties at concrete inputs *)

Lemma X4_key_length_all_layers_witness :
  length Vectors.short_key <> 32
  /\ encryptToBuffer (Str (js "This is a secret message")) Vectors.short_key None Vectors.w0
     = (Throw InvalidKeyLength, Vectors.w0)
  /\ encryptToString (Str (js "This is a secret message")) Vectors.short_key None Vectors.w0
     = (Throw InvalidKeyLength, Vectors.w0)
  /\ decryptFromBuffer [] Vectors.short_key Vectors.w0 = (Throw InvalidKeyLength, Vectors.w0)
  /\ decryptFromString (js "!!!!") Vectors.short_key Vectors.w0
     = (Throw InvalidKeyLength, Vectors.w0).
Proof.
  assert (H : length Vectors.short_key <> 32) by discriminate.
  split; [exact H|].
  exact (X4_key_length_all_layers (Str (js "This is a secret message")) None [] (js "!!!!")
           Vectors.short_key Vectors.w0 H).
Defined.

Lemma X5_unframing_witness :
  length (utf8 (js "abcdef")) = 6
  /\ length (Vectors.hex "a8a397e57e056ebe1c059443545f7f47") = 16
  /\ decryptFromBuffer
       (utf8 (js "abcdef") ++ Vectors.hex "a8a397e57e056ebe1c059443545f7f47"
        ++ Vectors.hex "845a17de6b") Vectors.zero_key Vectors.w0
     = decrypt (Vectors.hex "845a17de6b") Vectors.zero_key (Buf (utf8 (js "abcdef")))
         (Vectors.hex "a8a397e57e056ebe1c059443545f7f47") Vectors.w0.
Proof.
  assert (H1 : length (utf8 (js "abcdef")) = 6) by reflexivity.
  assert (H2 : length (Vectors.hex "a8a397e57e056ebe1c059443545f7f47") = 16) by reflexivity.
  split; [exact H1|]. split; [exact H2|].
  exact (proj1 (X5_unframing (utf8 (js "abcdef"))
                  (Vectors.hex "a8a397e57e056ebe1c059443545f7f47")
                  (Vectors.hex "845a17de6b") Vectors.zero_key Vectors.w0 H1 H2)).
Defined.

Lemma X6_decrypt_returns_witness :
  decrypt (Vectors.hex "845a17de6b") Vectors.zero_key (Str (js "abcdef"))
    (Vectors.hex "a8a397e57e056ebe1c059443545f7f47") Vectors.w0
  = (Return (utf8 (js "hello")), logged Vectors.w0 decrypt_calls)
  /\ length Vectors.zero_key = 32
  /\ toBuffer (Str (js "abcdef")) <> []
  /\ length (utf8 (js "hello")) = length (Vectors.hex "845a17de6b").
Proof.
  assert (H : decrypt (Vectors.hex "845a17de6b") Vectors.zero_key (Str (js "abcdef"))
                (Vectors.hex "a8a397e57e056ebe1c059443545f7f47") Vectors.w0
              = (Return (utf8 (js "hello")), logged Vectors.w0 decrypt_calls))
    by (vm_compute; reflexivity).
  pose proof (X6_decrypt_returns _ _ _ _ _ _ _ H) as T.
  split; [exact H|].
  exact (conj (proj1 T) (conj (proj1 (proj2 T))
           (proj1 (proj2 (proj2 (proj2 (proj2 (proj2 T)))))))).
Defined.


Lemma X9_wrong_tag_rejected_witness :
  encrypt (Str (js "hello")) Vectors.zero_key (Some (js "abcdef")) Vectors.w0
  = (Return {| encrypted := Vectors.hex "845a17de6b";
               iv := js "abcdef";
               authTag := Vectors.hex "a8a397e57e056ebe1c059443545f7f47" |},
     logged Vectors.w0 encrypt_calls)
  /\ length (Vectors.hex "57a397e57e056ebe1c059443545f7f47") = 16
  /\ Vectors.hex "57a397e57e056ebe1c059443545f7f47"
     <> Vectors.hex "a8a397e57e056ebe1c059443545f7f47"
  /\ decrypt (Vectors.hex "845a17de6b") Vectors.zero_key (Str (js "abcdef"))
       (Vectors.hex "57a397e57e056ebe1c059443545f7f47") Vectors.w0
     = (Throw AuthenticationFailed, logged Vectors.w0 decrypt_calls).
Proof.
  assert (E : encrypt (Str (js "hello")) Vectors.zero_key (Some (js "abcdef")) Vectors.w0
              = (Return {| encrypted := Vectors.hex "845a17de6b";
                           iv := js "abcdef";
                           authTag := Vectors.hex "a8a397e57e056ebe1c059443545f7f47" |},
                 logged Vectors.w0 encrypt_calls)) by (vm_compute; reflexivity).
  assert (H1 : length (Vectors.hex "57a397e57e056ebe1c059443545f7f47") = 16) by reflexivity.
  assert (H2 : Vectors.hex "57a397e57e056ebe1c059443545f7f47"
               <> Vectors.hex "a8a397e57e056ebe1c059443545f7f47") by discriminate.
  split; [exact E|]. split; [exact H1|]. split; [exact H2|].
  exact (X9_wrong_tag_rejected _ _ _ _ _ _ _ Vectors.w0 E H1 H2).
Defined.

Lemma X10_truncated_tag_accepted_witness :
  encrypt (Str (js "hello")) Vectors.zero_key (Some (js "abcdef")) Vectors.w0
  = (Return {| encrypted := Vectors.hex "845a17de6b";
               iv := js "abcdef";
               authTag := Vectors.hex "a8a397e57e056ebe1c059443545f7f47" |},
     logged Vectors.w0 encrypt_calls)
  /\ valid_tag_length 4 = true
  /\ decrypt (Vectors.hex "845a17de6b") Vectors.zero_key (Str (js "abcdef"))
       (firstn 4 (Vectors.hex "a8a397e57e056ebe1c059443545f7f47")) Vectors.w0
     = (Return (toBuffer (Str (js "hello"))), logged Vectors.w0 decrypt_calls).
Proof.
  assert (E : encrypt (Str (js "hello")) Vectors.zero_key (Some (js "abcdef")) Vectors.w0
              = (Return {| encrypted := Vectors.hex "845a17de6b";
                           iv := js "abcdef";
                           authTag := Vectors.hex "a8a397e57e056ebe1c059443545f7f47" |},
                 logged Vectors.w0 encrypt_calls)) by (vm_compute; reflexivity).
  assert (H : valid_tag_length 4 = true) by reflexivity.
  split; [exact E|]. split; [exact H|].
  exact (proj2 (X10_truncated_tag_accepted _ _ _ _ _ _ 4 Vectors.w0 E H)).
Defined.

Lemma X11_nonce_reuse_leaks_xor_witness :
  length Vectors.demo_key = 32 /\ length (js "1035db") = 6
  /\ exists r1 r2,
       fst (encrypt (Str (js "attack at dawn")) Vectors.demo_key (Some (js "1035db")) Vectors.w0)
       = Return r1
       /\ fst (encrypt (Str (js "retreat")) Vectors.demo_key (Some (js "1035db")) Vectors.w0)
          = Return r2
       /\ iv r1 = iv r2
       /\ xor_bytes (encrypted r1) (encrypted r2)
          = xor_bytes (toBuffer (Str (js "attack at dawn"))) (toBuffer (Str (js "retreat"))).
Proof.
  assert (demo_key_length : length Vectors.demo_key = 32) by (vm_compute; reflexivity).
  assert (H6 : length (js "1035db") = 6) by reflexivity.
  split; [exact demo_key_length|]. split; [exact H6|].
  exact (X11_nonce_reuse_leaks_xor (Str (js "attack at dawn")) (Str (js "retreat"))
           Vectors.demo_key (js "1035db") Vectors.w0 Vectors.w0 demo_key_length H6).
Defined.

Lemma X12_generated_nonces_witness :
  length Vectors.zero_key = 32
  /\ exists r1 w1 r2 w2,
       encrypt (Str (js "hello")) Vectors.zero_key None Vectors.w0 = (Return r1, w1)
       /\ encrypt (Str (js "hello")) Vectors.zero_key None w1 = (Return r2, w2)
       /\ iv r1 = hex_encode (map (entropy Vectors.w0) (seq (cursor Vectors.w0) 3))
       /\ iv r2 = hex_encode (map (entropy Vectors.w0) (seq (cursor Vectors.w0 + 6) 3))
       /\ (iv r1 = iv r2
           <-> map (entropy Vectors.w0) (seq (cursor Vectors.w0) 3)
               = map (entropy Vectors.w0) (seq (cursor Vectors.w0 + 6) 3)).
Proof.
  assert (zero_key_length : length Vectors.zero_key = 32) by reflexivity.
  split; [exact zero_key_length|].
  exact (X12_generated_nonces (Str (js "hello")) (Str (js "hello")) Vectors.zero_key Vectors.w0
           zero_key_length).
Defined.

Lemma X13_fixed_nonce_roundtrip_witness :
  length Vectors.demo_key = 32 /\ length (js "1035db") = 6
  /\ exists r blob text,
       encrypt (Str (js "hello")) Vectors.demo_key (Some (js "1035db")) Vectors.w0
       = (Return r, logged Vectors.w0 encrypt_calls)
       /\ encryptToBuffer (Str (js "hello")) Vectors.demo_key (Some (js "1035db")) Vectors.w0
          = (Return blob, logged Vectors.w0 encrypt_calls)
       /\ encryptToString (Str (js "hello")) Vectors.demo_key (Some (js "1035db")) Vectors.w0
          = (Return text, logged Vectors.w0 encrypt_calls)
       /\ iv r = js "1035db"
       /\ blob = utf8 (js "1035db") ++ authTag r ++ encrypted r
       /\ text = base64_encode blob
       /\ (forall w2,
             fst (decrypt (encrypted r) Vectors.demo_key (Str (js "1035db")) (authTag r) w2)
             = Return (toBuffer (Str (js "hello"))))
       /\ (is_ascii (js "1035db") ->
           length blob = 22 + length (toBuffer (Str (js "hello")))
           /\ forall w2,
                fst (decryptFromBuffer blob Vectors.demo_key w2)
                = Return (toBuffer (Str (js "hello")))
                /\ fst (decryptFromString text Vectors.demo_key w2)
                   = Return (toBuffer (Str (js "hello")))).
Proof.
  assert (demo_key_length : length Vectors.demo_key = 32) by (vm_compute; reflexivity).
  assert (H6 : length (js "1035db") = 6) by reflexivity.
  split; [exact demo_key_length|]. split; [exact H6|].
  exact (X13_fixed_nonce_roundtrip (Str (js "hello")) Vectors.demo_key (js "1035db")
           Vectors.w0 demo_key_length H6).
Defined.

Lemma X14_nonce_field_width_witness :
  length Vectors.demo_key = 32 /\ length [233; 233; 233; 233; 233; 233]%N = 6
  /\ exists blob,
       encryptToBuffer (Str (js "hello")) Vectors.demo_key
         (Some [233; 233; 233; 233; 233; 233]%N) Vectors.w0
       = (Return blob, logged Vectors.w0 encrypt_calls)
       /\ length blob
          = length (utf8 [233; 233; 233; 233; 233; 233]%N) + 16
            + length (toBuffer (Str (js "hello")))
       /\ 6 <= length (utf8 [233; 233; 233; 233; 233; 233]%N).
Proof.
  assert (demo_key_length : length Vectors.demo_key = 32) by (vm_compute; reflexivity).
  assert (H6 : length [233; 233; 233; 233; 233; 233]%N = 6) by reflexivity.
  split; [exact demo_key_length|]. split; [exact H6|].
  destruct (X14_nonce_field_width (Str (js "hello")) Vectors.demo_key
              [233; 233; 233; 233; 233; 233]%N Vectors.w0 demo_key_length H6)
    as (blob & E & L & G & _).
  exists blob. exact (conj E (conj L G)).
Defined.

Lemma X15_text_is_base64_witness :
  encryptToString (Str (js "hello")) Vectors.zero_key (Some (js "abcdef")) Vectors.w0
  = (Return (js "YWJjZGVmqKOX5X4Fbr4cBZRDVF9/R4RaF95r"), logged Vectors.w0 encrypt_calls)
  /\ valid_base64 (js "YWJjZGVmqKOX5X4Fbr4cBZRDVF9/R4RaF95r") = true.
Proof.
  assert (E : encryptToString (Str (js "hello")) Vectors.zero_key (Some (js "abcdef")) Vectors.w0
              = (Return (js "YWJjZGVmqKOX5X4Fbr4cBZRDVF9/R4RaF95r"),
                 logged Vectors.w0 encrypt_calls)) by (vm_compute; reflexivity).
  split; [exact E|].
  exact (proj1 (X15_text_is_base64 _ _ _ _ _ _ E)).
Defined.


Lemma X17_block_tampering_witness :
  encrypt (Str (js "hello")) Vectors.zero_key (Some (js "abcdef")) Vectors.w0
  = (Return {| encrypted := Vectors.hex "845a17de6b";
               iv := js "abcdef";
               authTag := Vectors.hex "a8a397e57e056ebe1c059443545f7f47" |},
     logged Vectors.w0 encrypt_calls)
  /\ GCM.hash_subkey Vectors.zero_key <> 0%N
  /\ length (Vectors.hex "7b5a17de6b") = length (Vectors.hex "845a17de6b")
  /\ Vectors.hex "7b5a17de6b" <> Vectors.hex "845a17de6b"
  /\ decrypt (Vectors.hex "7b5a17de6b") Vectors.zero_key (Str (js "abcdef"))
       (Vectors.hex "a8a397e57e056ebe1c059443545f7f47") Vectors.w0
     = (Throw AuthenticationFailed, logged Vectors.w0 decrypt_calls).
Proof.
  assert (E : encrypt (Str (js "hello")) Vectors.zero_key (Some (js "abcdef")) Vectors.w0
              = (Return {| encrypted := Vectors.hex "845a17de6b";
                           iv := js "abcdef";
                           authTag := Vectors.hex "a8a397e57e056ebe1c059443545f7f47" |},
                 logged Vectors.w0 encrypt_calls)) by (vm_compute; reflexivity).
  assert (Hh : GCM.hash_subkey Vectors.zero_key <> 0%N) by (vm_compute; discriminate).
  assert (Hl : length (Vectors.hex "7b5a17de6b") = length (Vectors.hex "845a17de6b"))
    by reflexivity.
  assert (Hne : Vectors.hex "7b5a17de6b" <> Vectors.hex "845a17de6b") by discriminate.
  split; [exact E|]. split; [exact Hh|]. split; [exact Hl|]. split; [exact Hne|].
  exact (X17_block_tampering _ _ _ _ _ _ (Vectors.hex "7b5a17de6b") 0 Vectors.w0
           E Hh Hl eq_refl eq_refl Hne).
Defined.

Lemma X18_blob_tampering_witness :
  length Vectors.zero_key = 32
  /\ exists r blob w1,
       encrypt (Str (js "hello")) Vectors.zero_key None Vectors.w0 = (Return r, w1)
       /\ encryptToBuffer (Str (js "hello")) Vectors.zero_key None Vectors.w0 = (Return blob, w1)
       /\ blob = utf8 (iv r) ++ authTag r ++ encrypted r
       /\ forall tag' w2,
            length tag' = 16 -> tag' <> authTag r ->
            decryptFromBuffer (utf8 (iv r) ++ tag' ++ encrypted r) Vectors.zero_key w2
            = (Throw AuthenticationFailed, logged w2 decrypt_calls)
            /\ decryptFromString (base64_encode (utf8 (iv r) ++ tag' ++ encrypted r))
                 Vectors.zero_key w2
               = (Throw AuthenticationFailed, logged w2 decrypt_calls).
Proof.
  assert (zero_key_length : length Vectors.zero_key = 32) by reflexivity.
  split; [exact zero_key_length|].
  destruct (X18_blob_tampering (Str (js "hello")) Vectors.zero_key Vectors.w0 zero_key_length)
    as (r & blob & w1 & E1 & E2 & E3 & T & _).
  exists r, blob, w1. exact (conj E1 (conj E2 (conj E3 T))).
Defined.

Lemma X19_string_roundtrip_witness :
  length Vectors.zero_key = 32
  /\ Forall (fun c => (c < 65536)%N) [104; 55357; 105]%N
  /\ (exists r w1,
         encrypt (Str [104; 55357; 105]%N) Vectors.zero_key None Vectors.w0 = (Return r, w1)
         /\ forall w2, exists pt,
              fst (decrypt (encrypted r) Vectors.zero_key (Str (iv r)) (authTag r) w2)
              = Return pt
              /\ toString_utf8 pt = toWellFormed [104; 55357; 105]%N)
  /\ toWellFormed [104; 55357; 105]%N = [104; 65533; 105]%N.
Proof.
  assert (zero_key_length : length Vectors.zero_key = 32) by reflexivity.
  assert (F : Forall (fun c => (c < 65536)%N) [104; 55357; 105]%N)
    by (repeat constructor).
  split; [exact zero_key_length|]. split; [exact F|].
  split; [|reflexivity].
  exact (proj1 (X19_string_roundtrip [104; 55357; 105]%N Vectors.zero_key Vectors.w0
                  zero_key_length F)).
Defined.
